(** * coniglio: a resilience layer over an AMQP connection

    Shallow embedding of [src/index.ts].  The module is a set of
    cooperating [async] functions over shared mutable state (the
    connection, its two channels, the in-flight login promise, the
    per-subscription delivery buffer).  It is modelled as a deterministic
    step function over a [World]: every [await] of the source is a
    program point of a task, and the events that resume a task (a driver
    promise settling, a timer firing, an emitter event, a delivery, a
    pull by the caller) are the labels of the transition system.

    Numbers are the rationals the floats stand for, with the rounding
    of the arithmetic written out; [Math.random()] is an argument in
    [0, 1).  [JSON.parse], [JSON.stringify], [Buffer.from] and
    [buf.toString()] belong to the platform and are parameters. *)

From Stdlib Require Import QArith Qminmax Qpower Qround Qabs Lqa.
From Stdlib Require Import PrimFloat FloatOps SpecFloat.
From stdpp Require Import base option list strings gmap.

#[global] Set Warnings "-clear-no-such-hyp".

(** ** Numbers

    A JavaScript number is a binary64 float.  A finite float is a
    rational, and [+], [-], [*] and [/] return the exact result rounded
    to the nearest float, ties to the even one: [round64] is that
    rounding on the rationals, with the 53 significant bits of the
    format and its smallest exponent.  It has no largest exponent: it
    is the rounding of the program wherever the program's result is
    finite. *)

Module Binary64.
Open Scope Q_scope.

(** The integer [k] with [2^k <= |x| < 2^(k+1)], for [x] not zero. *)
Definition ilog2 (x : Q) : Z :=
  let k := (Z.log2 (Z.abs (Qnum x)) - Z.log2 (Zpos (Qden x)))%Z in
  if Qle_bool (2 ^ k) (Qabs x) then k else (k - 1)%Z.

(** The exponent of the last of the 53 bits of [x], which for the
    subnormal numbers is the smallest one, -1074. *)
Definition ulp_exp (x : Q) : Z := Z.max (ilog2 x - 52) (-1074).

(** The nearest integer, the even one of two that are as near. *)
Definition nearest_even (x : Q) : Z :=
  let n := Qfloor x in
  match Qcompare (x - inject_Z n) (1 # 2) with
  | Lt => n
  | Gt => (n + 1)%Z
  | Eq => if Z.even n then n else (n + 1)%Z
  end.

(** The nearest multiple of [2^e]. *)
Definition round_at (e : Z) (x : Q) : Q :=
  inject_Z (nearest_even (x / 2 ^ e)) * 2 ^ e.

Definition round64 (x : Q) : Q := round_at (ulp_exp x) x.

(** [x] is a float: rounding leaves it as it is, and it is below
    the numbers that round to [Infinity]. *)
Definition representable (x : Q) : Prop :=
  round64 x == x /\ Qabs x < 2 ^ 1024.

(** The rational a float of the kernel stands for, if it is finite. *)
Definition to_Q (x : float) : option Q :=
  match Prim2SF x with
  | S754_zero _ => Some 0
  | S754_finite s m e =>
      Some ((if s then -1 else 1) * inject_Z (Zpos m) * 2 ^ e)
  | _ => None
  end.

End Binary64.

(** ** Backoff generator: [getExpSleeper]

    The closure is given twice: over the rationals with the rounding of
    every inexact operation written out, for the statements about all
    calls; and over the floats of the kernel, where it runs bit for bit
    as the source does. *)

Module Backoff.
Import Binary64.
Open Scope Q_scope.

(** The closure returned by [getExpSleeper (base, max)]: its captured
    [max] and its mutable [current]. *)
Record Sleeper := { current : Q; max : Q }.

Definition getExpSleeper (base max : Q) : Sleeper :=
  {| current := base; max := max |}.

(** [const min = current / 2;
     const jittered = Math.random() * (current - min) + min],
    with [r] the number [Math.random()] returned. *)
Definition jittered (c r : Q) : Q :=
  let min := round64 (c / 2) in
  round64 (round64 (r * round64 (c - min)) + min).

(** [const delay = Math.min(jittered, max)]; [Math.min] returns one
    of its arguments. *)
Definition delay (s : Sleeper) (r : Q) : Q :=
  Qmin (jittered (current s) r) (max s).

(** [current = Math.min(current * 2, max)], run once the sleep is over.
    The double of a float is a float ([round64_double]); where the
    program's doubling overflows to [Infinity], [Math.min] returns
    [max], as [Qmin] does of the exact double. *)
Definition advance (s : Sleeper) : Sleeper :=
  {| current := Qmin (current s * 2) (max s); max := max s |}.

(** One call of the sleeper with random draw [r]: the delay slept and
    the closure afterwards. *)
Definition call (s : Sleeper) (r : Q) : Q * Sleeper :=
  (delay s r, advance s).

(** The closure before its [k]-th call (counting from 0). *)
Definition before_call (base max : Q) (k : nat) : Sleeper :=
  Nat.iter k advance (getExpSleeper base max).

(** The delays of successive calls, one random draw per call. *)
Fixpoint delays (s : Sleeper) (rs : list Q) : list Q :=
  match rs with
  | [] => []
  | r :: rs' => let '(d, s') := call s r in d :: delays s' rs'
  end.

(** Midpoint of the jitter interval from [c/2] to [c]. *)
Definition midpoint (c : Q) : Q := (c / 2 + c) / 2.

(** Midpoint of the same interval once both ends are capped at [m]. *)
Definition capped_midpoint (c m : Q) : Q := (Qmin (c / 2) m + Qmin c m) / 2.

End Backoff.

(** The same closure over the floats of the kernel. *)
Module Backoff64.
Local Open Scope float_scope.

Record Sleeper := { current : float; max : float }.

Definition getExpSleeper (base max : float) : Sleeper :=
  {| current := base; max := max |}.

(** [Math.min] of two numbers: [NaN] if one of them is, and [-0]
    below [+0]. *)
Definition Math_min (x y : float) : float :=
  if is_nan x || is_nan y then nan
  else if x <? y then x
  else if y <? x then y
  else if get_sign x then x else y.

(** [const min = current / 2;
     const jittered = Math.random() * (current - min) + min] *)
Definition jittered (c r : float) : float :=
  let min := c / 2 in r * (c - min) + min.

(** [const delay = Math.min(jittered, max)] *)
Definition delay (s : Sleeper) (r : float) : float :=
  Math_min (jittered (current s) r) (max s).

(** [current = Math.min(current * 2, max)] *)
Definition advance (s : Sleeper) : Sleeper :=
  {| current := Math_min (current s * 2) (max s); max := max s |}.

Definition call (s : Sleeper) (r : float) : float * Sleeper :=
  (delay s r, advance s).

Definition before_call (base max : float) (k : nat) : Sleeper :=
  Nat.iter k advance (getExpSleeper base max).

(** The largest float below 1, and the largest with 52 bits after
    the point: the most a [Math.random()] that draws 53 or 52 random
    bits returns. *)
Definition below_one : float := 0x1.fffffffffffffp-1.
Definition below_one_52 : float := 0x1.ffffffffffffep-1.

(** The two definitions of the jitter return the same number. *)
Definition agrees (c r : float) : bool :=
  match Binary64.to_Q c, Binary64.to_Q r, Binary64.to_Q (jittered c r) with
  | Some c', Some r', Some j => Qeq_bool j (Backoff.jittered c' r')
  | _, _, _ => false
  end.

(** A grid to compare them on: the values [current] takes in the
    module and some others, down to the subnormal numbers, and draws
    from both ends of the unit interval. *)
Definition sample_currents : list float :=
  [1000; 2000; 4000; 8000; 16000; 30000; 1280; 1; 3; 0x1.d333333333333p+2;
   0x1.999999999999ap-4; 0x1.7e43c8800759cp+996; 0x0.012688b70e62bp-1022].
Definition sample_draws : list float :=
  [0; 0x1p-1074; 0x1.56e1fc2f8f359p-997; 0x1.f9add3739635fp-4; 0.25;
   0x1.3333333333333p-2; 0.5; 0x1.0000000000001p-1; 0x1.6666666666666p-1;
   0x1.fff2e48e8a71ep-1; below_one_52; below_one].

End Backoff64.


(** ** Values, deliveries and envelopes *)

(** A [Buffer] is a sequence of bytes. *)
Definition Buffer := list Byte.byte.

(** The values [JSON.parse] can return. *)
#[local] Unset Elimination Schemes.
Inductive jvalue :=
| JNull
| JBool (b : bool)
| JNumber (q : Q)
| JString (s : string)
| JArray (items : list jvalue)
| JObject (members : list (string * jvalue)).
#[local] Set Elimination Schemes.

(** A JavaScript value as the module sees it: [undefined] or a value. *)
Inductive jsval :=
| Undefined
| Defined (v : jvalue).

Inductive error := SyntaxError | TypeError | DriverError.

(** The result of evaluating an expression that may throw. *)
Inductive completion (A : Type) :=
| Return (a : A)
| Throw (e : error).
Arguments Return {A} a.
Arguments Throw {A} e.

Definition bind {A B} (c : completion A) (f : A -> completion B)
  : completion B :=
  match c with
  | Return a => f a
  | Throw e => Throw e
  end.

(** [try { c } catch { h }] *)
Definition try_catch {A} (c : completion A) (h : completion A)
  : completion A :=
  match c with
  | Return a => Return a
  | Throw _ => h
  end.

(** What the module takes from the platform.  [JSON_parse] throws on
    text that is not JSON and otherwise returns a JSON value, never
    [undefined]; [JSON_stringify] stands for the evaluation of
    [Buffer.from(JSON.stringify(payload))] up to the text, which throws
    when the payload has no JSON text. *)
Class Platform := {
  Buffer_toString : Buffer -> string;
  Buffer_from : string -> Buffer;
  JSON_parse : string -> completion jvalue;
  JSON_stringify : jvalue -> completion string
}.

(** A raw delivery ([ConsumeMessage] of the driver). *)
Module ConsumeMessage.
Record t := {
  content : Buffer;
  fields_routingKey : string;
  fields_deliveryTag : nat
}.
End ConsumeMessage.

(** The envelope [listen] yields ([Message<T>] in [types.ts]). *)
Record Message := {
  raw : ConsumeMessage.t;
  content : Buffer;
  data : jsval;
  contentIsJson : bool;
  routingKey : string
}.

(** [ListenOptions]; every field is optional. *)
Module ListenOptions.
Record t := {
  json : option bool;
  prefetch : option nat;
  routingKeys : option (list string)
}.
End ListenOptions.

(** ** The listen pipeline, one delivery at a time *)

Section Listen.
Context `{Platform}.

(** [function safeJson (buf)] *)
Definition safeJson (buf : Buffer) : completion jsval :=
  try_catch
    (bind (JSON_parse (Buffer_toString buf)) (fun v => Return (Defined v)))
    (Return Undefined).

(** [const json = opts?.json !== false] *)
Definition opt_json (opts : option ListenOptions.t) : bool :=
  match opts with
  | Some o =>
      match ListenOptions.json o with
      | Some false => false
      | _ => true
      end
  | None => true
  end.

(** [const prefetch = opts?.prefetch ?? 10] *)
Definition opt_prefetch (opts : option ListenOptions.t) : nat :=
  match opts with
  | Some o => default 10%nat (ListenOptions.prefetch o)
  | None => 10%nat
  end.

(** [const routingKeys = opts?.routingKeys] *)
Definition opt_routingKeys (opts : option ListenOptions.t)
  : option (list string) :=
  match opts with
  | Some o => ListenOptions.routingKeys o
  | None => None
  end.

(** [routingKeys.includes(routingKey)] *)
Definition includes (keys : list string) (k : string) : bool :=
  existsb (String.eqb k) keys.

(** [parsed !== undefined] *)
Definition is_defined (v : jsval) : bool :=
  match v with
  | Undefined => false
  | Defined _ => true
  end.

(** What one turn of the [for await] body does with a delivery. *)
Inductive verdict :=
| Nacked (msg : ConsumeMessage.t) (allUpTo requeue : bool)
    (* [channels.consumer!.nack(msg, false, false); continue] *)
| Yielded (m : Message).
    (* [yield { raw: msg, content, data: parsed, ... }] *)

(** The body of the [for await] loop of [listen] for a delivery
    [msg] (never null here: the consumer callback drops null). *)
Definition listen_body (opts : option ListenOptions.t)
    (msg : ConsumeMessage.t) : completion verdict :=
  let json := opt_json opts in
  let routingKeys := opt_routingKeys opts in
  let content := ConsumeMessage.content msg in
  bind (if json then safeJson content else Return Undefined) (fun parsed =>
  let routingKey := ConsumeMessage.fields_routingKey msg in
  let rejected :=                (* [routingKeys && !routingKeys.includes(..)] *)
    match routingKeys with
    | Some keys => negb (includes keys routingKey)
    | None => false
    end in
  if rejected
  then Return (Nacked msg false false)
  else Return (Yielded {| raw := msg; content := content; data := parsed;
                          contentIsJson := is_defined parsed;
                          routingKey := routingKey |})).

(** [const body = typeof payload === 'string' ? payload
                                               : JSON.stringify(payload)] *)
Definition publish_body (payload : jvalue) : completion string :=
  match payload with
  | JString s => Return s
  | _ => JSON_stringify payload
  end.

End Listen.

(** ** The state of one [coniglio] instance *)

(** Tasks, connections, channels and sleepers are named by their index
    in the store that holds them. *)
Abbreviation TaskId := nat (only parsing).
Abbreviation ConnId := nat (only parsing).
Abbreviation ChanId := nat (only parsing).
Abbreviation SleeperId := nat (only parsing).

(** Listeners the module registers with [conn.once('error', ..)]. *)
Inductive ErrorListener :=
| LogConnectionError
    (* [login]: [(err) => logger.error('connection error', err)] *)
| Resubscribe (g : TaskId).
    (* [startConsumer] of generator [g]:
       [async () => { await login(); await startConsumer() }] *)

(** The listener [login] registers with [conn.once('close', ..)]; it
    closes over the [expSleeper] of the login sequence that made it. *)
Inductive CloseListener :=
| Reconnect (sl : SleeperId).

(** A connection of the driver, as an event emitter. *)
Record Connection := {
  on_error : list ErrorListener;
  on_close : list CloseListener;
  conn_open : bool
}.

(** A channel of the driver: the connection it was created on, how many
    logging ['error'] listeners it carries, whether it is open, and the
    consumer callbacks registered on it (queue and owning generator). *)
Record Channel := {
  ch_conn : ConnId;
  ch_on_error : nat;
  ch_open : bool;
  ch_consumers : list (string * TaskId)
}.

(** Program points of the [while (true)] loop inside [login]. *)
Inductive LoginPc :=
| LConnecting                             (* [await ampqlib.connect(url)] *)
| LCreatingChannel (c : ConnId)           (* [await conn.createChannel()] *)
| LCreatingConfirmChannel (c : ConnId)    (* [await conn.createConfirmChannel()] *)
| LBackoff                                (* [catch]: [await expSleeper()] *)
| LResolved.                              (* [return] *)

(** [coniglio] itself: [await login()], then [return instance]. *)
Inductive MainPc :=
| MCalled
| MAwaitLogin (p : TaskId)
| MReady.

(** The ['close'] listener: [await expSleeper(); await login()]. *)
Inductive ClosePc :=
| CSleeping (sl : SleeperId)
| CAwaitLogin (p : TaskId)
| CDone.

(** The ['error'] listener of [startConsumer]:
    [await login(); await startConsumer()]. *)
Inductive ResubPc :=
| RCalled
| RAwaitLogin (p : TaskId)
| RPrefetching                (* [await channels.consumer!.prefetch(prefetch)] *)
| RDone
| RFailed.                    (* the listener's promise rejected *)

(** [publish]. *)
Inductive PublishPc :=
| PCalled
| PConfirming                 (* awaiting the confirm callback *)
| PBackoff (sl : SleeperId)   (* [catch]: [await expSleeperPublisher()] *)
| PAwaitLogin (p : TaskId)    (* [catch]: [await login()] *)
| PResolved.                  (* [return] *)

(** [listen] over [consumeGenerator]. *)
Inductive GenPc :=
| GNotStarted                 (* created, [next()] not called yet *)
| GPrefetching                (* first [startConsumer]: awaiting [prefetch] *)
| GRunnable                   (* about to test [buffer.length > 0] *)
| GAwaitReady                 (* [await ready()] *)
| GAtYield                    (* suspended at the [yield] of [listen] *)
| GFailed.                    (* the generator threw *)

(** One [listen] call: the closure of its [consumeGenerator] ([queue],
    [buffer]; [prefetch] comes from [opts]; [notify] resolves the
    pending [ready()] exactly when [pc = GAwaitReady]), and what it did
    so far: the deliveries [consumeGenerator] yielded and the envelopes
    [listen] yielded, oldest first. *)
Record Subscription := {
  queue : string;
  opts : option ListenOptions.t;
  buffer : list ConsumeMessage.t;
  pc : GenPc;
  consumed : list ConsumeMessage.t;
  yielded : list Message
}.

Inductive Task :=
| TMain (pc : MainPc)
| TLogin (sl : SleeperId) (pc : LoginPc)
| TCloseHandler (pc : ClosePc)
| TResubscribe (g : TaskId) (pc : ResubPc)
| TPublish (exchange rk : string) (payload : jvalue) (pc : PublishPc)
| TListen (s : Subscription).

(** The two variables that hold a sleeper: [expSleeper], local to one
    login sequence, and [expSleeperPublisher], shared by all publishes. *)
Inductive SleeperVar := ExpSleeper | ExpSleeperPublisher.

(** What a task did, for the record. *)
Inductive Action :=
| ACleanup                                 (* [cleanup(conn, channels)] *)
| AConnected (c : ConnId)                  (* [conn = await ampqlib.connect(url)] *)
| AConsumerChannel (k : ChanId)            (* [channels.consumer = await ..] *)
| APublisherChannel (k : ChanId)           (* [channels.publisher = await ..] *)
| ALoginResolved                           (* [loginInProgress = null; return] *)
| ACaught                                  (* entered a [catch] block *)
| ASleep (v : SleeperVar) (sl : SleeperId) (* called the sleeper [sl] held by [v] *)
| AWarnClosed                              (* [logger.warn('connection closed ..')] *)
| ALogin (p : TaskId)                      (* called [login()], got promise [p] *)
| APrefetch (k : ChanId) (n : nat)         (* [channel.prefetch(n)] *)
| AConsume (k : ChanId) (q : string)       (* [channel.consume(q, cb)] *)
| ANack (k : ChanId) (msg : ConsumeMessage.t) (allUpTo requeue : bool)
| APublish (k : ChanId) (exchange rk : string) (body : Buffer)
| APublishConfirmed.

(** The variables of the [coniglio] closure, the objects they point to,
    the tasks in flight and the record of what they did. *)
Record World := {
  conn : option ConnId;                  (* [let conn] *)
  loginInProgress : option TaskId;       (* [let loginInProgress] *)
  expSleeperPublisher : SleeperId;       (* [let expSleeperPublisher] *)
  consumer : option ChanId;              (* [channels.consumer] *)
  publisher : option ChanId;             (* [channels.publisher] *)
  conns : list Connection;
  chans : list Channel;
  sleepers : list Backoff.Sleeper;
  tasks : list Task;
  log : list (TaskId * Action)
}.

Definition set_conn (v : option ConnId) (w : World) : World :=
  {| conn := v; loginInProgress := loginInProgress w;
     expSleeperPublisher := expSleeperPublisher w; consumer := consumer w;
     publisher := publisher w; conns := conns w; chans := chans w;
     sleepers := sleepers w; tasks := tasks w; log := log w |}.

Definition set_loginInProgress (v : option TaskId) (w : World) : World :=
  {| conn := conn w; loginInProgress := v;
     expSleeperPublisher := expSleeperPublisher w; consumer := consumer w;
     publisher := publisher w; conns := conns w; chans := chans w;
     sleepers := sleepers w; tasks := tasks w; log := log w |}.

Definition set_expSleeperPublisher (v : SleeperId) (w : World) : World :=
  {| conn := conn w; loginInProgress := loginInProgress w;
     expSleeperPublisher := v; consumer := consumer w;
     publisher := publisher w; conns := conns w; chans := chans w;
     sleepers := sleepers w; tasks := tasks w; log := log w |}.

Definition set_consumer (v : option ChanId) (w : World) : World :=
  {| conn := conn w; loginInProgress := loginInProgress w;
     expSleeperPublisher := expSleeperPublisher w; consumer := v;
     publisher := publisher w; conns := conns w; chans := chans w;
     sleepers := sleepers w; tasks := tasks w; log := log w |}.

Definition set_publisher (v : option ChanId) (w : World) : World :=
  {| conn := conn w; loginInProgress := loginInProgress w;
     expSleeperPublisher := expSleeperPublisher w; consumer := consumer w;
     publisher := v; conns := conns w; chans := chans w;
     sleepers := sleepers w; tasks := tasks w; log := log w |}.

Definition set_conns (v : list Connection) (w : World) : World :=
  {| conn := conn w; loginInProgress := loginInProgress w;
     expSleeperPublisher := expSleeperPublisher w; consumer := consumer w;
     publisher := publisher w; conns := v; chans := chans w;
     sleepers := sleepers w; tasks := tasks w; log := log w |}.

Definition set_chans (v : list Channel) (w : World) : World :=
  {| conn := conn w; loginInProgress := loginInProgress w;
     expSleeperPublisher := expSleeperPublisher w; consumer := consumer w;
     publisher := publisher w; conns := conns w; chans := v;
     sleepers := sleepers w; tasks := tasks w; log := log w |}.

Definition set_sleepers (v : list Backoff.Sleeper) (w : World) : World :=
  {| conn := conn w; loginInProgress := loginInProgress w;
     expSleeperPublisher := expSleeperPublisher w; consumer := consumer w;
     publisher := publisher w; conns := conns w; chans := chans w;
     sleepers := v; tasks := tasks w; log := log w |}.

Definition set_tasks (v : list Task) (w : World) : World :=
  {| conn := conn w; loginInProgress := loginInProgress w;
     expSleeperPublisher := expSleeperPublisher w; consumer := consumer w;
     publisher := publisher w; conns := conns w; chans := chans w;
     sleepers := sleepers w; tasks := v; log := log w |}.

Definition set_log (v : list (TaskId * Action)) (w : World) : World :=
  {| conn := conn w; loginInProgress := loginInProgress w;
     expSleeperPublisher := expSleeperPublisher w; consumer := consumer w;
     publisher := publisher w; conns := conns w; chans := chans w;
     sleepers := sleepers w; tasks := tasks w; log := v |}.

(** ** The operations *)

Section Operations.
Context `{Platform}.

Definition emit (t : TaskId) (a : Action) (w : World) : World :=
  set_log (log w ++ [(t, a)]) w.

Definition spawn (k : Task) (w : World) : World :=
  set_tasks (tasks w ++ [k]) w.

Definition set_task (t : TaskId) (k : Task) (w : World) : World :=
  set_tasks (<[t := k]> (tasks w)) w.

Definition new_sleeper (s : Backoff.Sleeper) (w : World) : World :=
  set_sleepers (sleepers w ++ [s]) w.

(** The assignment that ends a sleeper call, once its timer fired. *)
Definition sleeper_done (sl : SleeperId) (w : World) : World :=
  set_sleepers (alter Backoff.advance sl (sleepers w)) w.

Definition alter_conn (f : Connection -> Connection) (c : ConnId)
    (w : World) : World :=
  set_conns (alter f c (conns w)) w.

Definition alter_chan (f : Channel -> Channel) (k : option ChanId)
    (w : World) : World :=
  match k with
  | Some k => set_chans (alter f k (chans w)) w
  | None => w                                        (* [channels.x?.] *)
  end.

Definition conn_removeAllListeners_error (C : Connection) : Connection :=
  {| on_error := []; on_close := on_close C; conn_open := conn_open C |}.

Definition conn_removeAllListeners_close (C : Connection) : Connection :=
  {| on_error := on_error C; on_close := []; conn_open := conn_open C |}.

Definition conn_close (C : Connection) : Connection :=
  {| on_error := on_error C; on_close := on_close C; conn_open := false |}.

Definition conn_once_error (l : ErrorListener) (C : Connection)
  : Connection :=
  {| on_error := on_error C ++ [l]; on_close := on_close C;
     conn_open := conn_open C |}.

Definition chan_removeAllListeners_error (K : Channel) : Channel :=
  {| ch_conn := ch_conn K; ch_on_error := 0; ch_open := ch_open K;
     ch_consumers := ch_consumers K |}.

Definition chan_close (K : Channel) : Channel :=
  {| ch_conn := ch_conn K; ch_on_error := ch_on_error K; ch_open := false;
     ch_consumers := ch_consumers K |}.

Definition chan_consume (q : string) (g : TaskId) (K : Channel) : Channel :=
  {| ch_conn := ch_conn K; ch_on_error := ch_on_error K;
     ch_open := ch_open K; ch_consumers := ch_consumers K ++ [(q, g)] |}.

(** [const cleanup = (conn, channels) => ..]; nothing in it assigns
    [channels.consumer] or [channels.publisher], which are read once. *)
Definition cleanup (w : World) : World :=
  match conn w with
  | None => w                                        (* [if (!conn) return] *)
  | Some c =>
      let consumer := consumer w in
      let publisher := publisher w in
      let w := alter_conn conn_removeAllListeners_error c w in
      let w := alter_conn conn_removeAllListeners_close c w in
      let w := alter_chan chan_removeAllListeners_error consumer w in
      let w := alter_chan chan_removeAllListeners_error publisher w in
      let w := alter_chan chan_close consumer w in
      let w := alter_chan chan_close publisher w in
      alter_conn conn_close c w
  end.

(** The head of the [while (true)] body of [login], up to its first
    [await]: [cleanup(conn, channels); conn = await ampqlib.connect(url)]. *)
Definition login_attempt (p : TaskId) (sl : SleeperId) (w : World) : World :=
  let w := emit p ACleanup (cleanup w) in
  set_task p (TLogin sl LConnecting) w.

(** The [catch] of [login]: [logger.error(..); await expSleeper()]. *)
Definition login_catch (p : TaskId) (sl : SleeperId) (w : World) : World :=
  let w := emit p ACaught w in
  let w := emit p (ASleep ExpSleeper sl) w in
  set_task p (TLogin sl LBackoff) w.

(** [const login = async () => ..], called by task [caller]: the new
    state and the promise the caller awaits.  A promise is named by
    the task that settles it. *)
Definition login (caller : TaskId) (w : World) : World * TaskId :=
  match loginInProgress w with
  | Some p => (emit caller (ALogin p) w, p)
                          (* [if (loginInProgress) return loginInProgress] *)
  | None =>
      let sl := length (sleepers w) in
      let p := length (tasks w) in
      let w := new_sleeper (Backoff.getExpSleeper 1000 30000) w in
      let w := spawn (TLogin sl LConnecting) w in
      let w := login_attempt p sl w in
      let w := set_loginInProgress (Some p) w in
      (emit caller (ALogin p) w, p)
  end.

(** Has the promise of login sequence [p] resolved? *)
Definition login_resolved (p : TaskId) (w : World) : bool :=
  match tasks w !! p with
  | Some (TLogin _ LResolved) => true
  | _ => false
  end.

(** The driver settles the promise login sequence [p] awaits. *)
Definition login_settle (p : TaskId) (sl : SleeperId) (pc : LoginPc)
    (ok : bool) (w : World) : option World :=
  match pc with
  | LConnecting =>
      if ok then
        let c := length (conns w) in
        let w := set_conns (conns w ++
                   [{| on_error := [LogConnectionError];
                       on_close := [Reconnect sl];
                       conn_open := true |}]) w in
        let w := set_conn (Some c) w in
        let w := emit p (AConnected c) w in
        Some (set_task p (TLogin sl (LCreatingChannel c)) w)
      else Some (login_catch p sl w)
  | LCreatingChannel c =>
      if ok then
        let k := length (chans w) in
        let w := set_chans (chans w ++
                   [{| ch_conn := c; ch_on_error := 1; ch_open := true;
                       ch_consumers := [] |}]) w in
        let w := set_consumer (Some k) w in
        let w := emit p (AConsumerChannel k) w in
        match conn w with
        | Some c' => Some (set_task p (TLogin sl (LCreatingConfirmChannel c')) w)
        | None => Some (login_catch p sl w)
        end
      else Some (login_catch p sl w)
  | LCreatingConfirmChannel c =>
      if ok then
        let k := length (chans w) in
        let w := set_chans (chans w ++
                   [{| ch_conn := c; ch_on_error := 1; ch_open := true;
                       ch_consumers := [] |}]) w in
        let w := set_publisher (Some k) w in
        let w := emit p (APublisherChannel k) w in
        let sp := length (sleepers w) in
        let w := new_sleeper (Backoff.getExpSleeper 1000 30000) w in
        let w := set_expSleeperPublisher sp w in
        let w := set_loginInProgress None w in
        let w := emit p ALoginResolved w in
        Some (set_task p (TLogin sl LResolved) w)
      else Some (login_catch p sl w)
  | LBackoff | LResolved => None
  end.

(** [conn.once('close', async () => {..})], fired. *)
Definition run_close_listener (w : World) (l : CloseListener) : World :=
  match l with
  | Reconnect sl =>
      let h := length (tasks w) in
      let w := spawn (TCloseHandler (CSleeping sl)) w in
      let w := emit h AWarnClosed w in
      emit h (ASleep ExpSleeper sl) w
  end.

(** A [conn.once('error', ..)] listener, fired. *)
Definition run_error_listener (w : World) (l : ErrorListener) : World :=
  match l with
  | LogConnectionError => w
  | Resubscribe g =>
      let h := length (tasks w) in
      let w := spawn (TResubscribe g RCalled) w in
      let '(w, p) := login h w in
      set_task h (TResubscribe g (RAwaitLogin p)) w
  end.

(** Updating the closure of generator [g] in place. *)
Definition on_sub (f : Subscription -> Subscription) (k : Task) : Task :=
  match k with
  | TListen s => TListen (f s)
  | _ => k
  end.

Definition alter_sub (f : Subscription -> Subscription) (g : TaskId)
    (w : World) : World :=
  set_tasks (alter (on_sub f) g (tasks w)) w.

Definition sub_set_buffer (b : list ConsumeMessage.t) (s : Subscription)
  : Subscription :=
  {| queue := queue s; opts := opts s; buffer := b; pc := pc s;
     consumed := consumed s; yielded := yielded s |}.

Definition sub_set_pc (v : GenPc) (s : Subscription) : Subscription :=
  {| queue := queue s; opts := opts s; buffer := buffer s; pc := v;
     consumed := consumed s; yielded := yielded s |}.

Definition subscription (g : TaskId) (w : World) : option Subscription :=
  match tasks w !! g with
  | Some (TListen s) => Some s
  | _ => None
  end.

(** [startConsumer] of generator [g], run by task [t], up to its
    [await channels.consumer!.prefetch(prefetch)].  [None]: it threw. *)
Definition startConsumer_call (t g : TaskId) (w : World) : option World :=
  match subscription g w, consumer w with
  | Some s, Some k => Some (emit t (APrefetch k (opt_prefetch (opts s))) w)
  | _, _ => None
  end.

(** The rest of [startConsumer] once [prefetch] resolved:
    [buffer.length = 0; conn.once('error', ..);
     channels.consumer!.consume(queue, cb, { noAck: false })]. *)
Definition startConsumer_rest (t g : TaskId) (w : World) : option World :=
  match subscription g w, conn w, consumer w with
  | Some s, Some c, Some k =>
      let w := alter_sub (sub_set_buffer []) g w in
      let w := alter_conn (conn_once_error (Resubscribe g)) c w in
      let w := alter_chan (chan_consume (queue s) g) (Some k) w in
      Some (emit t (AConsume k (queue s)) w)
  | _, _, _ => None
  end.

(** The consumer callback of generator [g]:
    [msg => { if (!msg) return; buffer.push(msg); notify() }]. *)
Definition consumer_callback (g : TaskId) (msg : option ConsumeMessage.t)
    (w : World) : World :=
  match msg with
  | None => w
  | Some m =>
      alter_sub (fun s =>
        {| queue := queue s; opts := opts s; buffer := buffer s ++ [m];
           pc := match pc s with GAwaitReady => GRunnable | v => v end;
           consumed := consumed s; yielded := yielded s |}) g w
  end.

(** One turn of the loops of [consumeGenerator] and [listen] for the
    runnable generator [g] with closure [s]: with an empty buffer,
    [await ready()]; otherwise [buffer.shift()] is yielded to the
    [for await] of [listen], which nacks it and asks for the next one,
    or yields its envelope, or throws. *)
Definition listen_turn (g : TaskId) (s : Subscription) (w : World) : World :=
  match buffer s with
  | [] => set_task g (TListen (sub_set_pc GAwaitReady s)) w
  | msg :: rest =>
      match listen_body (opts s) msg, consumer w with
      | Return (Yielded m), _ =>
          set_task g (TListen
            {| queue := queue s; opts := opts s; buffer := rest;
               pc := GAtYield; consumed := consumed s ++ [msg];
               yielded := yielded s ++ [m] |}) w
      | Return (Nacked msg' allUpTo requeue), Some k =>
          let w := emit g (ANack k msg' allUpTo requeue) w in
          set_task g (TListen
            {| queue := queue s; opts := opts s; buffer := rest;
               pc := GRunnable; consumed := consumed s ++ [msg];
               yielded := yielded s |}) w
      | _, _ =>
          set_task g (TListen
            {| queue := queue s; opts := opts s; buffer := rest;
               pc := GFailed; consumed := consumed s ++ [msg];
               yielded := yielded s |}) w
      end
  end.

(** The [catch] of [publish]:
    [logger.error(..); await expSleeperPublisher()]. *)
Definition publish_catch (t : TaskId) (ex rk : string) (payload : jvalue)
    (w : World) : World :=
  let sl := expSleeperPublisher w in
  let w := emit t ACaught w in
  let w := emit t (ASleep ExpSleeperPublisher sl) w in
  set_task t (TPublish ex rk payload (PBackoff sl)) w.

(** The [try] of [publish] up to the [await] of the confirm promise. *)
Definition publish_attempt (t : TaskId) (ex rk : string) (payload : jvalue)
    (w : World) : World :=
  match publisher w, publish_body payload with
  | Some k, Return body =>
      let w := emit t (APublish k ex rk (Buffer_from body)) w in
      set_task t (TPublish ex rk payload PConfirming) w
  | _, _ => publish_catch t ex rk payload w
  end.

(** [return instance] has happened. *)
Definition instance_ready (w : World) : bool :=
  match tasks w !! 0%nat with
  | Some (TMain MReady) => true
  | _ => false
  end.

(** Is generator [g] a consumer on the open channel [k] of an open
    connection? *)
Definition consuming (k : ChanId) (g : TaskId) (w : World) : bool :=
  match chans w !! k with
  | Some K =>
      ch_open K &&
      match conns w !! ch_conn K with
      | Some C => conn_open C
      | None => false
      end &&
      existsb (fun qg => Nat.eqb (snd qg) g) (ch_consumers K)
  | None => false
  end.

End Operations.

(** ** Events and the step function *)

(** What the environment (driver, timers, scheduler, caller) can do. *)
Inductive Event :=
| Settle (t : TaskId) (ok : bool)
    (* the driver promise task [t] awaits resolves or rejects *)
| Timer (t : TaskId)
    (* the [sleep] task [t] awaits is over *)
| Resume (t : TaskId)
    (* task [t] continues: after the login promise it awaits resolved,
       or for a runnable generator *)
| ConnError (c : ConnId)            (* connection [c] emits ['error'] *)
| ConnClose (c : ConnId)            (* connection [c] emits ['close'] *)
| ChanError (k : ChanId)            (* channel [k] emits ['error'] *)
| Deliver (k : ChanId) (g : TaskId) (msg : option ConsumeMessage.t)
    (* the driver calls the consumer callback of [g] on channel [k] *)
| Listen (q : string) (o : option ListenOptions.t)
    (* the caller calls [instance.listen(q, o)] *)
| Pull (g : TaskId)
    (* the caller calls [next()] on the generator [g] *)
| Publish (exchange rk : string) (payload : jvalue).
    (* the caller calls [instance.publish(exchange, rk, payload)] *)

Section Step.
Context `{Platform}.

Definition step_settle (t : TaskId) (ok : bool) (w : World)
  : option World :=
  match tasks w !! t with
  | Some (TLogin sl pc) => login_settle t sl pc ok w
  | Some (TResubscribe g RPrefetching) =>
      match (if ok then startConsumer_rest t g w else None) with
      | Some w' => Some (set_task t (TResubscribe g RDone) w')
      | None => Some (set_task t (TResubscribe g RFailed) w)
      end
  | Some (TListen s) =>
      match pc s with
      | GPrefetching =>
          match (if ok then startConsumer_rest t t w else None) with
          | Some w' => Some (alter_sub (sub_set_pc GRunnable) t w')
          | None => Some (alter_sub (sub_set_pc GFailed) t w)
          end
      | _ => None
      end
  | Some (TPublish ex rk payload PConfirming) =>
      if ok then
        let w := emit t APublishConfirmed w in
        Some (set_task t (TPublish ex rk payload PResolved) w)
      else Some (publish_catch t ex rk payload w)
  | _ => None
  end.

Definition step_timer (t : TaskId) (w : World) : option World :=
  match tasks w !! t with
  | Some (TLogin sl LBackoff) =>
      Some (login_attempt t sl (sleeper_done sl w))
  | Some (TCloseHandler (CSleeping sl)) =>
      let '(w, p) := login t (sleeper_done sl w) in
      Some (set_task t (TCloseHandler (CAwaitLogin p)) w)
  | Some (TPublish ex rk payload (PBackoff sl)) =>
      let '(w, p) := login t (sleeper_done sl w) in
      Some (set_task t (TPublish ex rk payload (PAwaitLogin p)) w)
  | _ => None
  end.

Definition step_resume (t : TaskId) (w : World) : option World :=
  match tasks w !! t with
  | Some (TMain (MAwaitLogin p)) =>
      if login_resolved p w then Some (set_task t (TMain MReady) w)
      else None
  | Some (TCloseHandler (CAwaitLogin p)) =>
      if login_resolved p w then Some (set_task t (TCloseHandler CDone) w)
      else None
  | Some (TResubscribe g (RAwaitLogin p)) =>
      if login_resolved p w then
        match startConsumer_call t g w with
        | Some w' => Some (set_task t (TResubscribe g RPrefetching) w')
        | None => Some (set_task t (TResubscribe g RFailed) w)
        end
      else None
  | Some (TPublish ex rk payload (PAwaitLogin p)) =>
      if login_resolved p w then Some (publish_attempt t ex rk payload w)
      else None
  | Some (TListen s) =>
      match pc s with
      | GRunnable => Some (listen_turn t s w)
      | _ => None
      end
  | _ => None
  end.

Definition step_pull (g : TaskId) (w : World) : option World :=
  match tasks w !! g with
  | Some (TListen s) =>
      match pc s with
      | GNotStarted =>
          match startConsumer_call g g w with
          | Some w' => Some (alter_sub (sub_set_pc GPrefetching) g w')
          | None => Some (alter_sub (sub_set_pc GFailed) g w)
          end
      | GAtYield => Some (alter_sub (sub_set_pc GRunnable) g w)
      | _ => None
      end
  | _ => None
  end.

Definition step (w : World) (ev : Event) : option World :=
  match ev with
  | Settle t ok => step_settle t ok w
  | Timer t => step_timer t w
  | Resume t => step_resume t w
  | ConnError c =>
      match conns w !! c with
      | Some C =>
          let w := alter_conn conn_removeAllListeners_error c w in
          Some (foldl run_error_listener w (on_error C))
      | None => None
      end
  | ConnClose c =>
      match conns w !! c with
      | Some C =>
          let w := alter_conn conn_removeAllListeners_close c w in
          let w := alter_conn conn_close c w in
          Some (foldl run_close_listener w (on_close C))
      | None => None
      end
  | ChanError k =>
      match chans w !! k with
      | Some _ => Some (alter_chan chan_removeAllListeners_error (Some k) w)
      | None => None
      end
  | Deliver k g msg =>
      if consuming k g w then Some (consumer_callback g msg w) else None
  | Listen q o =>
      if instance_ready w then
        Some (spawn (TListen {| queue := q; opts := o; buffer := [];
                                pc := GNotStarted; consumed := [];
                                yielded := [] |}) w)
      else None
  | Pull g => step_pull g w
  | Publish ex rk payload =>
      if instance_ready w then
        let t := length (tasks w) in
        let w := spawn (TPublish ex rk payload PCalled) w in
        Some (publish_attempt t ex rk payload w)
      else None
  end.

(** A run: the events in order, each enabled where it happens. *)
Fixpoint run (w : World) (evs : list Event) : option World :=
  match evs with
  | [] => Some w
  | ev :: evs' =>
      match step w ev with
      | Some w' => run w' evs'
      | None => None
      end
  end.

(** The state in which [coniglio(url)] is called. *)
Definition boot : World :=
  {| conn := None; loginInProgress := None; expSleeperPublisher := 0%nat;
     consumer := None; publisher := None; conns := []; chans := [];
     sleepers := [Backoff.getExpSleeper 1000 30000];
     tasks := [TMain MCalled]; log := [] |}.

(** [coniglio(url)] up to its [await login()]. *)
Definition coniglio : World :=
  let '(w, p) := login 0%nat boot in
  set_task 0%nat (TMain (MAwaitLogin p)) w.

(** The states the instance can be in. *)
Definition reachable (w : World) : Prop :=
  exists evs, run coniglio evs = Some w.

(** What task [t] did, oldest first. *)
Definition actions_of (t : TaskId) (l : list (TaskId * Action))
  : list Action :=
  map snd (filter (fun e => fst e = t) l).

Definition history (t : TaskId) (w : World) : list Action :=
  actions_of t (log w).

(** The login sequences started so far. *)
Definition is_login (k : Task) : bool :=
  match k with
  | TLogin _ _ => true
  | _ => false
  end.

Definition count_logins (l : list Task) : nat :=
  length (filter (fun k => is_login k = true) l).

Definition logins_started (w : World) : nat := count_logins (tasks w).

(** Is [t] a login sequence that has not returned yet? *)
Definition login_running (t : TaskId) (w : World) : Prop :=
  exists sl pc, tasks w !! t = Some (TLogin sl pc) /\ pc <> LResolved.

(** The deliveries the driver pushed to generator [g] during a run. *)
Fixpoint pushed (g : TaskId) (evs : list Event) : list ConsumeMessage.t :=
  match evs with
  | [] => []
  | Deliver _ g' (Some m) :: evs' =>
      if Nat.eqb g' g then m :: pushed g evs' else pushed g evs'
  | _ :: evs' => pushed g evs'
  end.

(** Events by which a connection fails. *)
Definition is_connection_failure (ev : Event) : bool :=
  match ev with
  | ConnError _ | ConnClose _ => true
  | _ => false
  end.

End Step.

(** ** A small platform to run the model on

    Byte strings for buffers, the JSON writer, and a JSON reader for
    the literals [null], [true], [false], unsigned integers, and the
    empty array and object: what it reads it reads as [JSON.parse]
    does, and it throws on every other text. *)

Module Sample.
Import Binary64.

Definition is_digit (a : Ascii.ascii) : bool :=
  (48 <=? Ascii.nat_of_ascii a)%nat && (Ascii.nat_of_ascii a <=? 57)%nat.

Fixpoint digits_value (acc : Z) (s : string) : option Z :=
  match s with
  | EmptyString => Some acc
  | String a s' =>
      if is_digit a
      then digits_value (10 * acc + Z.of_nat (Ascii.nat_of_ascii a - 48))%Z s'
      else None
  end.

(** A number of JSON text has no leading zero. *)
Definition leading_zero (s : string) : bool :=
  match s with
  | String a (String _ _) => (Ascii.nat_of_ascii a =? 48)%nat
  | _ => false
  end.

(** The number an integer literal stands for: itself up to [2^53],
    the nearest float above. *)
Definition number_value (z : Z) : Q :=
  if (z <=? 2 ^ 53)%Z then inject_Z z else round64 (inject_Z z).

Definition parse (s : string) : completion jvalue :=
  if String.eqb s "null" then Return JNull
  else if String.eqb s "true" then Return (JBool true)
  else if String.eqb s "false" then Return (JBool false)
  else if String.eqb s "[]" then Return (JArray [])
  else if String.eqb s "{}" then Return (JObject [])
  else match s with
       | EmptyString => Throw SyntaxError
       | _ => if leading_zero s then Throw SyntaxError
              else match digits_value 0 s with
                   | Some z => Return (JNumber (number_value z))
                   | None => Throw SyntaxError
                   end
       end.

(** The decimal digits of a natural number. *)
Fixpoint digits (fuel : nat) (n : Z) (acc : string) : string :=
  match fuel with
  | O => acc
  | S fuel' =>
      let acc' := String (Ascii.ascii_of_nat (48 + Z.to_nat (n mod 10))) acc in
      if (n <? 10)%Z then acc' else digits fuel' (n / 10)%Z acc'
  end.

Definition decimal (n : Z) : string :=
  digits (S (Z.to_nat (Z.log2 n))) n "".

Fixpoint zeros (n : nat) : string :=
  match n with
  | O => ""
  | S n' => String (Ascii.ascii_of_nat 48) (zeros n')
  end.

(** The least [n] from [lo] on with [x < 10^n]. *)
Fixpoint magnitude_from (fuel : nat) (lo : Z) (x : Q) : Z :=
  match fuel with
  | O => lo
  | S fuel' =>
      if Qle_bool (10 ^ lo) x then magnitude_from fuel' (lo + 1) x else lo
  end.

(** The [n] with [10^(n-1) <= x < 10^n], for a positive [x]: the
    search starts below it, from the binary logarithm. *)
Definition magnitude (x : Q) : Z :=
  magnitude_from 6 (ilog2 x * 30103 / 100000 - 1) x.

(** The integer [s] of [k] digits for which [s * 10^(n-k)] is nearest
    to [x] among those that round to [x], if there is one. *)
Definition candidate (x : Q) (n k : Z) : option Z :=
  let scale := (10 ^ (n - k))%Q in
  let lo := Qfloor (x / scale) in
  let hi := (lo + 1)%Z in
  let reads s := Qeq_bool (round64 (inject_Z s * scale)) x in
  match reads lo, reads hi with
  | true, true =>
      match Qcompare (x - inject_Z lo * scale) (inject_Z hi * scale - x) with
      | Lt => Some lo
      | Gt => Some hi
      | Eq => Some (if Z.even lo then lo else hi)
      end
  | true, false => Some lo
  | false, true => Some hi
  | false, false => None
  end.

(** The shortest such [s], with its number of digits. *)
Fixpoint shortest (fuel : nat) (x : Q) (n k : Z) : Z * Z :=
  match fuel with
  | O => (Qfloor (x / 10 ^ (n - k)), k)
  | S fuel' =>
      match candidate x n k with
      | Some s => (s, k)
      | None => shortest fuel' x n (k + 1)
      end
  end.

(** [Number::toString] of a finite number, in radix 10. *)
Definition number_text (q : Q) : string :=
  let x := round64 (Qabs q) in
  if Qeq_bool x 0 then "0"
  else
    let n0 := magnitude x in
    let '(s, k0) := shortest 17 x n0 1 in
    let '(ds, n) :=
      if (s =? 10 ^ k0)%Z then ("1", (n0 + 1)%Z) else (decimal s, n0) in
    let k := Z.of_nat (String.length ds) in
    let body :=
      if ((k <=? n) && (n <=? 21))%Z then ds +:+ zeros (Z.to_nat (n - k))
      else if ((0 <? n) && (n <=? 21))%Z
      then String.substring 0 (Z.to_nat n) ds +:+ "." +:+
           String.substring (Z.to_nat n) (Z.to_nat (k - n)) ds
      else if ((-6 <? n) && (n <=? 0))%Z
      then "0." +:+ zeros (Z.to_nat (- n)) +:+ ds
      else
        let e := (n - 1)%Z in
        let exponent :=
          (if (0 <? e)%Z then "+" else "-") +:+ decimal (Z.abs e) in
        if (k =? 1)%Z then ds +:+ "e" +:+ exponent
        else String.substring 0 1 ds +:+ "." +:+
             String.substring 1 (Z.to_nat (k - 1)) ds +:+ "e" +:+ exponent in
    (if Qle_bool 0 q then "" else "-") +:+ body.

Definition quote : string := String (Ascii.ascii_of_nat 34) "".

Definition hex_digit (n : nat) : Ascii.ascii :=
  Ascii.ascii_of_nat (if n <? 10 then 48 + n else 87 + n)%nat.

(** A character of a string in JSON text. *)
Definition escape (a : Ascii.ascii) : string :=
  let n := Ascii.nat_of_ascii a in
  if (n =? 34)%nat then "\" +:+ quote
  else if (n =? 92)%nat then "\\"
  else if (n =? 8)%nat then "\b"
  else if (n =? 9)%nat then "\t"
  else if (n =? 10)%nat then "\n"
  else if (n =? 12)%nat then "\f"
  else if (n =? 13)%nat then "\r"
  else if (n <? 32)%nat
  then "\u00" +:+ String (hex_digit (n / 16)) (String (hex_digit (n mod 16)) "")
  else String a "".

Fixpoint escaped (s : string) : string :=
  match s with
  | EmptyString => ""
  | String a s' => escape a +:+ escaped s'
  end.

Definition quoted (s : string) : string := quote +:+ escaped s +:+ quote.

Fixpoint separated (l : list string) : string :=
  match l with
  | [] => ""
  | [s] => s
  | s :: l' => s +:+ "," +:+ separated l'
  end.

Fixpoint json_text (v : jvalue) : string :=
  match v with
  | JNull => "null"
  | JBool true => "true"
  | JBool false => "false"
  | JNumber q => number_text q
  | JString s => quoted s
  | JArray items => "[" +:+ separated (map json_text items) +:+ "]"
  | JObject members =>
      "{" +:+ separated (map (fun m => quoted (fst m) +:+ ":" +:+ json_text (snd m))
                            members) +:+ "}"
  end.

(** [JSON.stringify] of a JSON value: there is a text for each, the
    members of an object in the order of the list. *)
Definition stringify (v : jvalue) : completion string :=
  Return (json_text v).

Definition platform : Platform :=
  {| Buffer_toString := String.string_of_list_byte;
     Buffer_from := String.list_byte_of_string;
     JSON_parse := parse;
     JSON_stringify := stringify |}.

Definition delivery (body key : string) (tag : nat) : ConsumeMessage.t :=
  {| ConsumeMessage.content := String.list_byte_of_string body;
     ConsumeMessage.fields_routingKey := key;
     ConsumeMessage.fields_deliveryTag := tag |}.

(** The first login goes through and [coniglio] returns the instance:
    connection 0, consumer channel 0, publisher channel 1. *)
Definition connect_ok : list Event :=
  [Settle 1 true; Settle 1 true; Settle 1 true; Resume 0].

(** Then the caller starts [listen('q')] and pulls once: generator 2
    is subscribed on channel 0 and waits for a delivery. *)
Definition subscribe (o : option ListenOptions.t) : list Event :=
  connect_ok ++ [Listen "q" o; Pull 2; Settle 2 true; Resume 2].

(** The state of the module after a run, on the sample platform. *)
Definition after (evs : list Event) : World :=
  default coniglio (run (H := platform) coniglio evs).

End Sample.

(** ** What holds of every state the instance can be in *)

Section Invariants.
Context `{Platform}.

(** The login promise a task is waiting for, if any. *)
Definition awaits (k : Task) : option TaskId :=
  match k with
  | TMain (MAwaitLogin p) => Some p
  | TCloseHandler (CAwaitLogin p) => Some p
  | TResubscribe _ (RAwaitLogin p) => Some p
  | TPublish _ _ _ (PAwaitLogin p) => Some p
  | _ => None
  end.

(** Calls of the methods of the instance. *)
Definition is_user_task (k : Task) : bool :=
  match k with
  | TListen _ | TPublish _ _ _ _ => true
  | _ => false
  end.

(** Channel [k] was created on connection [c]. *)
Definition chan_on (w : World) (k : ChanId) (c : ConnId) : Prop :=
  exists K, chans w !! k = Some K /\ ch_conn K = c.

(** The three variables are assigned and belong together. *)
Definition initialized (w : World) : Prop :=
  exists c k1 k2,
    conn w = Some c /\ consumer w = Some k1 /\ publisher w = Some k2 /\
    chan_on w k1 c /\ chan_on w k2 c.

(** One turn of the loop of [login] that ended in its [catch]: what
    it did, oldest first. *)
Inductive login_failed_turn (sl : SleeperId) : list Action -> Prop :=
| failed_connect :
    login_failed_turn sl [ACleanup; ACaught; ASleep ExpSleeper sl]
| failed_createChannel c :
    login_failed_turn sl
      [ACleanup; AConnected c; ACaught; ASleep ExpSleeper sl]
| failed_createConfirmChannel c k :
    login_failed_turn sl
      [ACleanup; AConnected c; AConsumerChannel k; ACaught;
       ASleep ExpSleeper sl].

(** What the turn in progress did, by program point. *)
Definition login_turn_at (w : World) (pc : LoginPc) (h : list Action)
  : Prop :=
  match pc with
  | LConnecting => h = [ACleanup]
  | LCreatingChannel c => h = [ACleanup; AConnected c]
  | LCreatingConfirmChannel c =>
      exists k, h = [ACleanup; AConnected c; AConsumerChannel k] /\
                chan_on w k c
  | LBackoff => h = []
  | LResolved =>
      exists c k1 k2,
        h = [ACleanup; AConnected c; AConsumerChannel k1;
             APublisherChannel k2; ALoginResolved] /\
        chan_on w k1 c /\ chan_on w k2 c
  end.

(** The history of a login sequence: failed turns, then the turn in
    progress. *)
Definition login_history (w : World) (sl : SleeperId) (pc : LoginPc)
    (h : list Action) : Prop :=
  exists turns cur,
    h = concat turns ++ cur /\
    Forall (login_failed_turn sl) turns /\
    login_turn_at w pc cur.

(** The [channel.publish] of one attempt of [publish], if the attempt
    got that far. *)
Definition publish_call (ex rk : string) (payload : jvalue)
    (h : list Action) : Prop :=
  match publish_body payload with
  | Return body => exists k, h = [APublish k ex rk (Buffer_from body)]
  | Throw _ => h = []
  end.

(** One attempt of [publish] that ended in its [catch] and, after the
    publish backoff and a login that has resolved, was followed by
    the next attempt. *)
Definition publish_failed_attempt (w : World) (ex rk : string)
    (payload : jvalue) (h : list Action) : Prop :=
  exists call sl p,
    publish_call ex rk payload call /\
    h = call ++ [ACaught; ASleep ExpSleeperPublisher sl; ALogin p] /\
    login_resolved p w = true.

(** The logins that have resolved in [w] have resolved in [w']. *)
Definition resolved_mono (w w' : World) : Prop :=
  forall p, login_resolved p w = true -> login_resolved p w' = true.

Definition publish_attempt_at (ex rk : string) (payload : jvalue)
    (pc : PublishPc) (h : list Action) : Prop :=
  match pc with
  | PCalled => False
  | PConfirming =>
      exists k body, publish_body payload = Return body /\
                     h = [APublish k ex rk (Buffer_from body)]
  | PBackoff sl =>
      exists call, publish_call ex rk payload call /\
                   h = call ++ [ACaught; ASleep ExpSleeperPublisher sl]
  | PAwaitLogin p =>
      exists call sl, publish_call ex rk payload call /\
        h = call ++ [ACaught; ASleep ExpSleeperPublisher sl; ALogin p]
  | PResolved =>
      exists k body, publish_body payload = Return body /\
        h = [APublish k ex rk (Buffer_from body); APublishConfirmed]
  end.

(** The history of a [publish]: failed attempts, then the attempt in
    progress. *)
Definition publish_history (w : World) (ex rk : string) (payload : jvalue)
    (pc : PublishPc) (h : list Action) : Prop :=
  exists attempts cur,
    h = concat attempts ++ cur /\
    Forall (publish_failed_attempt w ex rk payload) attempts /\
    publish_attempt_at ex rk payload pc cur.

(** Does the allow-list of [opts] let the delivery through? *)
Definition accepted (o : option ListenOptions.t) (msg : ConsumeMessage.t)
  : bool :=
  match opt_routingKeys o with
  | Some keys => includes keys (ConsumeMessage.fields_routingKey msg)
  | None => true
  end.

(** The decoded payload [listen] computes for a delivery. *)
Definition parsed_of (o : option ListenOptions.t) (msg : ConsumeMessage.t)
  : jsval :=
  if opt_json o then
    match JSON_parse (Buffer_toString (ConsumeMessage.content msg)) with
    | Return v => Defined v
    | Throw _ => Undefined
    end
  else Undefined.

(** The envelope [listen] makes of a delivery. *)
Definition envelope_of (o : option ListenOptions.t) (msg : ConsumeMessage.t)
  : Message :=
  {| raw := msg; content := ConsumeMessage.content msg;
     data := parsed_of o msg; contentIsJson := is_defined (parsed_of o msg);
     routingKey := ConsumeMessage.fields_routingKey msg |}.

(** The [nack] calls of a history: delivery, [allUpTo], [requeue]. *)
Definition nacks (h : list Action)
  : list (ConsumeMessage.t * bool * bool) :=
  omap (fun a => match a with
                 | ANack _ msg allUpTo requeue => Some (msg, allUpTo, requeue)
                 | _ => None
                 end) h.

Definition is_publish (a : Action) : bool :=
  match a with
  | APublish _ _ _ _ => true
  | _ => false
  end.

Definition is_caught (a : Action) : bool :=
  match a with
  | ACaught => true
  | _ => false
  end.

(** The number of [channel.publish] calls of a history. *)
Definition publish_calls (h : list Action) : nat :=
  length (filter (fun a => is_publish a = true) h).

(** The number of times a history entered a [catch]. *)
Definition failures (h : list Action) : nat :=
  length (filter (fun a => is_caught a = true) h).

Record Inv (w : World) : Prop := {
  (* every recorded action is that of a task *)
  inv_log : forall t a, (t, a) ∈ log w -> t < length (tasks w);
  (* a login sequence that has not returned is the one in flight *)
  inv_running : forall t sl pc,
    tasks w !! t = Some (TLogin sl pc) -> pc <> LResolved ->
    loginInProgress w = Some t;
  inv_inflight : forall p,
    loginInProgress w = Some p -> login_running p w;
  (* whoever waits for a login waits for a login sequence *)
  inv_awaits : forall t k p,
    tasks w !! t = Some k -> awaits k = Some p ->
    exists sl pc, tasks w !! p = Some (TLogin sl pc);
  (* the variables while a login sequence runs, and when none does *)
  inv_connected : forall t sl c,
    tasks w !! t = Some (TLogin sl (LCreatingChannel c)) -> conn w = Some c;
  inv_consumer : forall t sl c,
    tasks w !! t = Some (TLogin sl (LCreatingConfirmChannel c)) ->
    conn w = Some c /\ exists k, consumer w = Some k /\ chan_on w k c;
  inv_quiescent : loginInProgress w = None -> initialized w;
  (* once a login has resolved the variables stay assigned *)
  inv_assigned : forall p sl,
    tasks w !! p = Some (TLogin sl LResolved) ->
    is_Some (conn w) /\ is_Some (consumer w) /\ is_Some (publisher w);
  (* the instance exists only after a login resolved, and its
     methods are called only once it exists *)
  inv_main : exists pc, tasks w !! 0%nat = Some (TMain pc) /\ pc <> MCalled;
  inv_ready : instance_ready w = true ->
    exists p sl, tasks w !! p = Some (TLogin sl LResolved);
  inv_user : forall t k,
    tasks w !! t = Some k -> is_user_task k = true ->
    instance_ready w = true;
  (* histories *)
  inv_login_history : forall t sl pc,
    tasks w !! t = Some (TLogin sl pc) ->
    login_history w sl pc (history t w);
  inv_publish_history : forall t ex rk payload pc,
    tasks w !! t = Some (TPublish ex rk payload pc) ->
    publish_history w ex rk payload pc (history t w);
  (* every delivery the generator handed over was yielded or nacked *)
  inv_yielded : forall g s,
    tasks w !! g = Some (TListen s) ->
    yielded s =
      map (envelope_of (opts s))
        (filter (fun msg => accepted (opts s) msg = true) (consumed s));
  inv_nacked : forall g s,
    tasks w !! g = Some (TListen s) ->
    nacks (history g w) =
      map (fun msg => (msg, false, false))
        (filter (fun msg => accepted (opts s) msg <> true) (consumed s))
}.

End Invariants.

(** ** The step function in smaller steps

    An emitter that fires runs its listeners one after the other; the
    invariant is kept by each of them. *)

Inductive ConnOp := RemoveErrorListeners | RemoveCloseListeners | CloseConn.

Inductive Micro :=
| MEvent (ev : Event)
| MErrorListener (l : ErrorListener)
| MCloseListener (l : CloseListener)
| MConn (op : ConnOp) (c : ConnId).

Section MicroSteps.
Context `{Platform}.

Definition conn_op (op : ConnOp) : Connection -> Connection :=
  match op with
  | RemoveErrorListeners => conn_removeAllListeners_error
  | RemoveCloseListeners => conn_removeAllListeners_close
  | CloseConn => conn_close
  end.

Definition micro (w : World) (m : Micro) : option World :=
  match m with
  | MEvent ev => if is_connection_failure ev then None else step w ev
  | MErrorListener l => Some (run_error_listener w l)
  | MCloseListener l => Some (run_close_listener w l)
  | MConn op c => Some (alter_conn (conn_op op) c w)
  end.

Fixpoint micro_run (w : World) (ms : list Micro) : option World :=
  match ms with
  | [] => Some w
  | m :: ms' =>
      match micro w m with
      | Some w' => micro_run w' ms'
      | None => None
      end
  end.

(** The small steps of an event. *)
Definition micros (w : World) (ev : Event) : list Micro :=
  match ev with
  | ConnError c =>
      match conns w !! c with
      | Some C => MConn RemoveErrorListeners c
                    :: map MErrorListener (on_error C)
      | None => [MEvent ev]
      end
  | ConnClose c =>
      match conns w !! c with
      | Some C => MConn RemoveCloseListeners c :: MConn CloseConn c
                    :: map MCloseListener (on_close C)
      | None => [MEvent ev]
      end
  | _ => [MEvent ev]
  end.

End MicroSteps.

(** ** Statements about single steps *)

Section StepStatements.
Context `{Platform}.


(** The generators registered as consumers on some channel. *)
Definition consumers_in (l : list Channel) : list TaskId :=
  concat (map (fun K => map snd (ch_consumers K)) l).

Definition registered (g : TaskId) (w : World) : Prop :=
  g ∈ consumers_in (chans w).

(** [startConsumer] of the generator has returned. *)
Definition started (v : GenPc) : bool :=
  match v with
  | GRunnable | GAwaitReady | GAtYield => true
  | GNotStarted | GPrefetching | GFailed => false
  end.

(** A run in which no connection fails. *)
Definition quiet (evs : list Event) : Prop :=
  Forall (fun ev => is_connection_failure ev = false) evs.

(** Calls of [next()] and turns of the generator [g], nothing else. *)
Definition pulls_of (g : TaskId) (evs : list Event) : Prop :=
  Forall (fun ev => ev = Resume g \/ ev = Pull g) evs.

(** The consume sequences after a run in which no connection failed:
    nothing resubscribes; a registered generator has started; what a
    generator handed over and what it still buffers are the
    deliveries pushed to it, in order. *)
Record Fifo (evs : list Event) (w : World) : Prop := {
  fifo_no_resubscribe : forall t g v,
    tasks w !! t <> Some (TResubscribe g v);
  fifo_registered : forall g,
    registered g w ->
    exists s, tasks w !! g = Some (TListen s) /\ started (pc s) = true;
  fifo_buffer : forall g s,
    tasks w !! g = Some (TListen s) ->
    consumed s ++ buffer s = pushed g evs /\
    (pc s = GAwaitReady -> buffer s = []) /\
    (started (pc s) = false -> pushed g evs = []);
  fifo_fresh : forall g, length (tasks w) <= g -> pushed g evs = []
}.

(** The subscription setup on channel [k]: its [prefetch] and its
    [consume]. *)
Definition is_setup_on (k : ChanId) (a : Action) : bool :=
  match a with
  | APrefetch k' _ | AConsume k' _ => Nat.eqb k' k
  | _ => false
  end.

Definition setup_on (k : ChanId) (w : World) : list (TaskId * Action) :=
  filter (fun e => is_setup_on k (snd e) = true) (log w).

End StepStatements.

(** ** Sample runs *)

Module Scenario.
Import Sample.

(** [publish('ex', 'rk', null)] whose confirm fails twice, then
    succeeds; each failure is followed by the publish backoff and a
    login (tasks 3 and 4) that goes through. *)
Definition publish_retried : list Event :=
  connect_ok ++
  [Publish "ex" "rk" JNull;
   Settle 2 false; Timer 2;
   Settle 3 true; Settle 3 true; Settle 3 true; Resume 2;
   Settle 2 false; Timer 2;
   Settle 4 true; Settle 4 true; Settle 4 true; Resume 2;
   Settle 2 true].

(** [listen('q')] is subscribed (generator 2 on channel 0) and the
    broker pushes three deliveries. *)
Definition three_deliveries : list Event :=
  subscribe None ++
  [Deliver 0 2 (Some (delivery "1" "a" 1));
   Deliver 0 2 (Some (delivery "2" "b" 2));
   Deliver 0 2 (Some (delivery "3" "a" 3))].

(** [listen('q')] is subscribed, then the broker closes connection 0
    without an ['error'] (a forced close): the ['close'] listener
    (task 3) sleeps and logs in again (task 4), which goes through
    with connection 1 and channels 2 and 3. *)
Definition closed_under_consumer : list Event :=
  subscribe None ++
  [ConnClose 0; Timer 3;
   Settle 4 true; Settle 4 true; Settle 4 true; Resume 3].

(** The same with an ['error'] of connection 0 instead: the listener
    [startConsumer] registered (task 3) logs in again and runs
    [startConsumer] once more. *)
Definition failed_under_consumer : list Event :=
  subscribe None ++
  [ConnError 0;
   Settle 4 true; Settle 4 true; Settle 4 true; Resume 3; Settle 3 true].

(** [listen('q', { routingKeys: ['a'] })] gets a delivery with key
    ['a'] and one with key ['b'], and its consumer pulls twice. *)
Definition only_a : option ListenOptions.t :=
  Some {| ListenOptions.json := None; ListenOptions.prefetch := None;
          ListenOptions.routingKeys := Some ["a"] |}.

Definition filtered : list Event :=
  subscribe only_a ++
  [Deliver 0 2 (Some (delivery "true" "a" 1));
   Deliver 0 2 (Some (delivery "true" "b" 2));
   Resume 2; Pull 2; Resume 2].

(** [listen('q')] gets a body that is JSON and one that is not. *)
Definition decoded : list Event :=
  subscribe None ++
  [Deliver 0 2 (Some (delivery "true" "a" 1));
   Deliver 0 2 (Some (delivery "oops" "a" 2));
   Resume 2; Pull 2; Resume 2].

(** [listen('q', { json: false })] gets a body that is JSON. *)
Definition raw_only : option ListenOptions.t :=
  Some {| ListenOptions.json := Some false; ListenOptions.prefetch := None;
          ListenOptions.routingKeys := None |}.

Definition undecoded : list Event :=
  subscribe raw_only ++
  [Deliver 0 2 (Some (delivery "true" "a" 1)); Resume 2].

(** [listen('q')] has yielded a delivery that came on channel 0 when
    connection 0 closes and the next login (task 4) has its new
    connection. *)
Definition yielded_then_closed : list Event :=
  subscribe None ++
  [Deliver 0 2 (Some (delivery "true" "a" 1)); Resume 2;
   ConnClose 0; Timer 3; Settle 4 true].

(** The closure of generator 2 after a run. *)
Definition listener (evs : list Event) : Subscription :=
  match subscription 2 (after evs) with
  | Some s => s
  | None => {| queue := ""; opts := None; buffer := []; pc := GNotStarted;
               consumed := []; yielded := [] |}
  end.

End Scenario.

(** ** The other methods of the instance: ack and nack *)

(** What [ack] and [nack] ask of the driver. *)
Inductive ChannelCall :=
| CallAck (k : ChanId) (msg : ConsumeMessage.t)
| CallNack (k : ChanId) (msg : ConsumeMessage.t) (allUpTo requeue : bool).

Section InstanceMethods.
Context `{Platform}.

(** [ack (msg) { channels.consumer!.ack(msg.raw) }] *)
Definition ack (msg : Message) (w : World) : completion ChannelCall :=
  match consumer w with
  | Some k => Return (CallAck k (raw msg))
  | None => Throw TypeError              (* a method of [undefined] *)
  end.

(** [nack (msg, requeue = false)
      { channels.consumer!.nack(msg.raw, false, requeue) }];
    [None] is an argument left out or [undefined]. *)
Definition nack (msg : Message) (requeue : option bool) (w : World)
  : completion ChannelCall :=
  match consumer w with
  | Some k => Return (CallNack k (raw msg) false (default false requeue))
  | None => Throw TypeError
  end.

(** The channels on which the driver pushed a delivery during a
    run. *)
Fixpoint pushed_on (evs : list Event) : list (ChanId * ConsumeMessage.t) :=
  match evs with
  | [] => []
  | Deliver k _ (Some m) :: evs' => (k, m) :: pushed_on evs'
  | _ :: evs' => pushed_on evs'
  end.

(** [channels.consumer], once assigned, holds a channel that exists. *)
Definition consumer_bound (w : World) : Prop :=
  forall k, consumer w = Some k -> k < length (chans w).

(** From [w] to [w']: channels are only added, [channels.consumer] is
    only assigned a newer channel, and the instance stays returned. *)
Definition grows (w w' : World) : Prop :=
  length (chans w) <= length (chans w') /\
  (forall k, consumer w = Some k ->
     exists k', consumer w' = Some k' /\ k <= k') /\
  (instance_ready w = true -> instance_ready w' = true).

End InstanceMethods.

(** ** What cleanup leaves of a connection and of a channel *)

Definition conn_torn_down (C : Connection) : Connection :=
  conn_close (conn_removeAllListeners_close (conn_removeAllListeners_error C)).

Definition chan_torn_down (K : Channel) : Channel :=
  chan_close (chan_removeAllListeners_error K).

(** Is channel [k] one of the two that [cleanup] closes in [w]? *)
Definition cleaned (w : World) (k : ChanId) : bool :=
  match conn w with
  | Some _ =>
      bool_decide (consumer w = Some k) || bool_decide (publisher w = Some k)
  | None => false
  end.

(** ** configure *)

Inductive ExchangeType := Topic | Fanout | Direct.

(** A [Record<string, any>]. *)
Abbreviation Args := (gmap string jvalue) (only parsing).

Module ExchangeSpec.
Record t := {
  name : string;
  type : ExchangeType;
  durable : option bool;
  autoDelete : option bool;
  internal : option bool;
  arguments : option Args
}.
End ExchangeSpec.

Module Binding.
Record t := {
  exchange : string;
  routingKey : string;
  arguments : option Args
}.
End Binding.

Module QueueSpec.
Record t := {
  name : string;
  durable : option bool;
  exclusive : option bool;
  autoDelete : option bool;
  deadLetterExchange : option string;
  messageTtl : option Q;
  maxLength : option Q;
  arguments : option Args;
  bindTo : option (list Binding.t)
}.
End QueueSpec.

Module ConfigureOptions.
Record t := {
  exchanges : option (list ExchangeSpec.t);
  queues : option (list QueueSpec.t)
}.
End ConfigureOptions.

(** What [configure] asks of the driver. *)
Inductive ConfigCall :=
| AssertExchange (name : string) (type : ExchangeType)
    (durable autoDelete internal : option bool) (arguments : option Args)
| AssertQueue (name : string) (durable exclusive autoDelete : option bool)
    (arguments : Args)
| BindQueue (queue exchange routingKey : string) (arguments : option Args).

(** [{ ...target, ...source }]; spreading [undefined] adds nothing. *)
Definition spread (target source : Args) : Args := source ∪ target.

(** The value of a string option where the code tests it for truth:
    [undefined] and the empty string are falsy. *)
Definition truthy_string (s : option string) : option string :=
  match s with
  | Some s => if String.eqb s "" then None else Some s
  | None => None
  end.

(** The same for a number: [undefined] and zero are falsy. *)
Definition truthy_number (n : option Q) : option Q :=
  match n with
  | Some q => if Qeq_bool q 0 then None else Some q
  | None => None
  end.

(** [{ ...q.arguments,
       ...(q.deadLetterExchange ? { 'x-dead-letter-exchange': .. } : {}),
       ...(q.messageTtl ? { 'x-message-ttl': q.messageTtl } : {}),
       ...(q.maxLength ? { 'x-max-length': q.maxLength } : {}) }] *)
Definition queue_arguments (q : QueueSpec.t) : Args :=
  let a := spread ∅ (default ∅ (QueueSpec.arguments q)) in
  let a := spread a
             match truthy_string (QueueSpec.deadLetterExchange q) with
             | Some d => {[ "x-dead-letter-exchange" := JString d ]}
             | None => ∅
             end in
  let a := spread a
             match truthy_number (QueueSpec.messageTtl q) with
             | Some n => {[ "x-message-ttl" := JNumber n ]}
             | None => ∅
             end in
  spread a
    match truthy_number (QueueSpec.maxLength q) with
    | Some n => {[ "x-max-length" := JNumber n ]}
    | None => ∅
    end.

Definition exchange_call (ex : ExchangeSpec.t) : ConfigCall :=
  AssertExchange (ExchangeSpec.name ex) (ExchangeSpec.type ex)
    (ExchangeSpec.durable ex) (ExchangeSpec.autoDelete ex)
    (ExchangeSpec.internal ex) (ExchangeSpec.arguments ex).

Definition bind_call (q : QueueSpec.t) (b : Binding.t) : ConfigCall :=
  BindQueue (QueueSpec.name q) (Binding.exchange b) (Binding.routingKey b)
    (Binding.arguments b).

(** The body of [for (const q of queues)] for one queue. *)
Definition queue_calls (q : QueueSpec.t) : list ConfigCall :=
  AssertQueue (QueueSpec.name q) (QueueSpec.durable q)
    (QueueSpec.exclusive q) (QueueSpec.autoDelete q) (queue_arguments q)
  :: map (bind_call q) (default [] (QueueSpec.bindTo q)).

(** The calls of [configure] in program order. *)
Definition configure_calls (o : ConfigureOptions.t) : list ConfigCall :=
  map exchange_call (default [] (ConfigureOptions.exchanges o)) ++
  concat (map queue_calls (default [] (ConfigureOptions.queues o))).

(** The calls awaited one after the other on the channel read at the
    start, [ok i] telling whether the promise of call [i] fulfils: the
    calls made, and how the function ends.  A call on [undefined]
    throws before it is made; a promise that rejects ends the function,
    which has no [catch]. *)
Fixpoint perform (channel : option ChanId) (ok : nat -> bool) (i : nat)
    (calls : list ConfigCall) : list (ChanId * ConfigCall) * completion unit :=
  match calls with
  | [] => ([], Return tt)
  | c :: calls' =>
      match channel with
      | None => ([], Throw TypeError)
      | Some k =>
          if ok i then
            let '(made, r) := perform channel ok (S i) calls' in
            ((k, c) :: made, r)
          else ([(k, c)], Throw DriverError)
      end
  end.

(** [async configure ({ exchanges = [], queues = [] }) { .. }] *)
Definition configure (o : ConfigureOptions.t) (w : World) (ok : nat -> bool)
  : list (ChanId * ConfigCall) * completion unit :=
  perform (publisher w) ok 0 (configure_calls o).

Definition is_exchange_call (c : ConfigCall) : bool :=
  match c with
  | AssertExchange _ _ _ _ _ _ => true
  | _ => false
  end.

(** The number of bindings of the queues. *)
Definition bindings (qs : list QueueSpec.t) : nat :=
  length (concat (map (fun q => default [] (QueueSpec.bindTo q)) qs)).

(** ** Sleepers and listeners of the module *)

(** A sleeper made by [getExpSleeper(1000, 30000)] at some point of its
    life: its [current] is an even whole number from 1000 to 30000. *)
Definition in_range (s : Backoff.Sleeper) : Prop :=
  Backoff.max s = 30000%Q /\
  exists n : Z, (500 <= n <= 15000)%Z /\
                (Backoff.current s == inject_Z (2 * n))%Q.

Definition is_logger (l : ErrorListener) : bool :=
  match l with
  | LogConnectionError => true
  | Resubscribe _ => false
  end.

(** Every sleeper the module refers to exists and is in range. *)
Record sleepers_ok (w : World) : Prop := {
  sleepers_in_range : forall sl s, sleepers w !! sl = Some s -> in_range s;
  sleeper_publisher : expSleeperPublisher w < length (sleepers w);
  sleeper_login : forall t sl pc,
    tasks w !! t = Some (TLogin sl pc) -> sl < length (sleepers w);
  sleeper_close : forall c C sl,
    conns w !! c = Some C -> Reconnect sl ∈ on_close C ->
    sl < length (sleepers w);
  sleeper_handler : forall t sl,
    tasks w !! t = Some (TCloseHandler (CSleeping sl)) ->
    sl < length (sleepers w);
  sleeper_publish : forall t ex rk payload sl,
    tasks w !! t = Some (TPublish ex rk payload (PBackoff sl)) ->
    sl < length (sleepers w);
  sleeper_logged : forall t v sl,
    (t, ASleep v sl) ∈ log w -> sl < length (sleepers w)
}.

(** A small step whose ['close'] listener, if it is one, sleeps on one
    of the first [n] sleepers. *)
Definition guarded (n : nat) (m : Micro) : Prop :=
  match m with
  | MCloseListener (Reconnect sl) => sl < n
  | _ => True
  end.

(** * Rounding *)

Module Binary64Facts.
Import Binary64.
Open Scope Q_scope.

Lemma two_pow_pos (e : Z) : 0 < 2 ^ e.
Proof. apply Qpower_0_lt. reflexivity. Qed.

Lemma two_pow_le (a b : Z) : (a <= b)%Z -> 2 ^ a <= 2 ^ b.
Proof. intros H. apply Qpower_le_compat_l; [exact H|discriminate]. Qed.

Lemma two_pow_between (a b : Z) (x : Q) : 2 ^ a <= x -> x < 2 ^ b -> (a < b)%Z.
Proof.
  intros H1 H2. apply (Qpower_lt_compat_l_inv 2); [|reflexivity].
  eapply Qle_lt_trans; eassumption.
Qed.

Lemma nearest_even_bounds (x : Q) :
  (Qfloor x <= nearest_even x <= Qfloor x + 1)%Z.
Proof.
  unfold nearest_even. cbv zeta.
  destruct (Qcompare (x - inject_Z (Qfloor x)) (1 # 2)); [destruct (Z.even _)| |]; lia.
Qed.

Lemma nearest_even_comp (x y : Q) : x == y -> nearest_even x = nearest_even y.
Proof.
  intros E. unfold nearest_even. cbv zeta.
  rewrite (Qfloor_comp _ _ E).
  replace (Qcompare (x - inject_Z (Qfloor y)) (1 # 2))
    with (Qcompare (y - inject_Z (Qfloor y)) (1 # 2)); [reflexivity|].
  apply Qcompare_comp; [rewrite E|]; reflexivity.
Qed.

Lemma nearest_even_Z (n : Z) : nearest_even (inject_Z n) = n.
Proof.
  unfold nearest_even. cbv zeta. rewrite Qfloor_Z.
  destruct (Qcompare_spec (inject_Z n - inject_Z n) (1 # 2)) as [E|E|E];
    [lra|reflexivity|lra].
Qed.

Lemma nearest_even_mono (x y : Q) :
  x <= y -> (nearest_even x <= nearest_even y)%Z.
Proof.
  intros Hxy. pose proof (Qfloor_resp_le _ _ Hxy) as Hf.
  destruct (Z.eq_dec (Qfloor x) (Qfloor y)) as [E|N].
  - unfold nearest_even. cbv zeta. rewrite E.
    destruct (Qcompare_spec (x - inject_Z (Qfloor y)) (1 # 2)) as [E1|E1|E1];
      destruct (Qcompare_spec (y - inject_Z (Qfloor y)) (1 # 2)) as [E2|E2|E2];
      try destruct (Z.even (Qfloor y)); try lia; lra.
  - pose proof (nearest_even_bounds x). pose proof (nearest_even_bounds y).
    lia.
Qed.

Lemma nearest_even_opp (x : Q) : nearest_even (- x) = (- nearest_even x)%Z.
Proof.
  pose proof (Qfloor_le x) as H1. pose proof (Qlt_floor x) as H2.
  rewrite inject_Z_plus in H2.
  destruct (Qeq_dec x (inject_Z (Qfloor x))) as [E|N].
  - rewrite (nearest_even_comp x _ E).
    rewrite (nearest_even_comp (- x) (inject_Z (- Qfloor x)))
      by (rewrite inject_Z_opp; rewrite <- E; reflexivity).
    rewrite !nearest_even_Z. reflexivity.
  - assert (Qfloor (- x) = (- Qfloor x - 1)%Z) as Hf.
    { pose proof (Qfloor_le (- x)) as H3. pose proof (Qlt_floor (- x)) as H4.
      rewrite inject_Z_plus in H4.
      assert (inject_Z (Qfloor (- x)) < inject_Z (- Qfloor x)) as A
        by (rewrite inject_Z_opp; apply Qle_lt_trans with (- x); [exact H3|];
            assert (~ x == inject_Z (Qfloor x)) by exact N; lra).
      assert (inject_Z (- Qfloor x - 2) < inject_Z (Qfloor (- x))) as B.
      { unfold Z.sub. rewrite inject_Z_plus, !inject_Z_opp.
        change (inject_Z 2) with 2. change (inject_Z 1) with 1 in *. lra. }
      rewrite <- Zlt_Qlt in A, B. lia. }
    unfold nearest_even. cbv zeta. rewrite Hf.
    unfold Z.sub at 1 2 3. rewrite !inject_Z_plus, !inject_Z_opp.
    change (inject_Z 1) with 1 in *.
    replace (Z.even (- Qfloor x + - (1))) with (negb (Z.even (Qfloor x))).
    2:{ rewrite Z.add_opp_r, Z.even_sub, Z.even_opp. simpl.
        destruct (Z.even (Qfloor x)); reflexivity. }
    destruct (Qcompare_spec (- x - (- inject_Z (Qfloor x) + - (1))) (1 # 2))
      as [E1|E1|E1];
      destruct (Qcompare_spec (x - inject_Z (Qfloor x)) (1 # 2)) as [E2|E2|E2];
      try destruct (Z.even (Qfloor x)); simpl; try lia; lra.
Qed.

Lemma ilog2_spec (x : Q) :
  0 < x -> 2 ^ ilog2 x <= x /\ x < 2 ^ (ilog2 x + 1).
Proof.
  intros Hx. destruct x as [n d]. unfold ilog2. cbn [Qnum Qden].
  assert (0 < n)%Z as Hn by (unfold Qlt in Hx; simpl in Hx; lia).
  rewrite (Z.abs_eq n) by lia.
  rewrite (Qabs_pos (n # d)) by lra.
  pose proof (Z.log2_spec n Hn) as [Ha1 Ha2].
  pose proof (Z.log2_spec (Z.pos d) eq_refl) as [Hb1 Hb2].
  pose proof (Z.log2_nonneg n) as Ha0.
  pose proof (Z.log2_nonneg (Z.pos d)) as Hb0.
  set (a := Z.log2 n) in *. set (b := Z.log2 (Z.pos d)) in *.
  rewrite Zle_Qle in Ha1, Hb1. rewrite Zlt_Qlt in Ha2, Hb2.
  rewrite Zpower_Qpower in Ha1, Ha2, Hb1, Hb2 by lia.
  change (inject_Z 2) with 2 in *.
  assert (inject_Z n == (n # d) * inject_Z (Z.pos d)) as Hnd.
  { rewrite Qmake_Qdiv. field. discriminate. }
  assert (0 < inject_Z (Z.pos d)) as Hd by reflexivity.
  pose proof (two_pow_pos b) as Hpb. pose proof (two_pow_pos (a - b)) as Hpk.
  destruct (Qle_bool (2 ^ (a - b)) (n # d)) eqn:Ht.
  - apply Qle_bool_iff in Ht. split; [exact Ht|].
    apply (Qmult_lt_r _ _ (inject_Z (Z.pos d)) Hd). rewrite <- Hnd.
    apply Qlt_le_trans with (2 ^ Z.succ a); [exact Ha2|].
    replace (Z.succ a) with ((a - b + 1) + b)%Z by lia.
    rewrite (Qpower_plus 2 (a - b + 1) b) by discriminate.
    apply Qmult_le_l; [apply two_pow_pos|exact Hb1].
  - assert (n # d < 2 ^ (a - b)) as Hlt.
    { apply Qnot_le_lt. intros Hle. apply Qle_bool_iff in Hle. congruence. }
    replace (a - b - 1 + 1)%Z with (a - b)%Z by lia.
    split; [|exact Hlt].
    apply (Qmult_le_r _ _ (inject_Z (Z.pos d)) Hd). rewrite <- Hnd.
    apply Qle_trans with (2 ^ a); [|exact Ha1].
    replace a with ((a - b - 1) + Z.succ b)%Z at 2 by lia.
    rewrite (Qpower_plus 2 (a - b - 1) (Z.succ b)) by discriminate.
    apply Qmult_le_l; [apply two_pow_pos|]. apply Qlt_le_weak. exact Hb2.
Qed.

Lemma ilog2_mono (x y : Q) : 0 < x -> x <= y -> (ilog2 x <= ilog2 y)%Z.
Proof.
  intros Hx Hxy.
  destruct (ilog2_spec x Hx) as [H1 _].
  destruct (ilog2_spec y) as [_ H2]; [lra|].
  assert (ilog2 x < ilog2 y + 1)%Z by (apply (two_pow_between _ _ x); lra).
  lia.
Qed.

Lemma round_at_mono (e : Z) (x y : Q) :
  x <= y -> round_at e x <= round_at e y.
Proof.
  intros Hxy. unfold round_at. pose proof (two_pow_pos e) as He.
  apply Qmult_le_compat_r; [|lra].
  rewrite <- Zle_Qle. apply nearest_even_mono.
  unfold Qdiv. apply Qmult_le_compat_r; [exact Hxy|].
  apply Qlt_le_weak, Qinv_lt_0_compat, He.
Qed.

Lemma round_at_multiple (e n : Z) (x : Q) :
  x == inject_Z n * 2 ^ e -> round_at e x == x.
Proof.
  intros E. unfold round_at. pose proof (two_pow_pos e) as He.
  rewrite (nearest_even_comp _ (inject_Z n)).
  - rewrite nearest_even_Z. symmetry. exact E.
  - rewrite E. field. lra.
Qed.

Lemma round_at_pow2 (e k : Z) : (e <= k)%Z -> round_at e (2 ^ k) == 2 ^ k.
Proof.
  intros H. apply (round_at_multiple e (2 ^ (k - e))).
  rewrite Zpower_Qpower by lia. change (inject_Z 2) with 2.
  rewrite <- Qpower_plus by discriminate.
  replace (k - e + e)%Z with k by lia. reflexivity.
Qed.

Lemma round_at_nonneg (e : Z) (x : Q) : 0 <= x -> 0 <= round_at e x.
Proof.
  intros Hx. apply Qle_trans with (round_at e 0).
  - rewrite (round_at_multiple e 0 0); [lra|]. change (inject_Z 0) with 0. lra.
  - apply round_at_mono. exact Hx.
Qed.

Lemma round64_mono_pos (x y : Q) :
  0 < x -> x <= y -> round64 x <= round64 y.
Proof.
  intros Hx Hxy. unfold round64.
  pose proof (ilog2_mono x y Hx Hxy) as HL.
  destruct (Z.eq_dec (ulp_exp x) (ulp_exp y)) as [E|N].
  - rewrite E. apply round_at_mono. exact Hxy.
  - destruct (ilog2_spec x Hx) as [_ Hx2].
    destruct (ilog2_spec y) as [Hy1 _]; [lra|].
    unfold ulp_exp in *.
    assert (ilog2 x < ilog2 y)%Z as Hlt by lia.
    assert (x <= 2 ^ ilog2 y) as HxB.
    { apply Qlt_le_weak. eapply Qlt_le_trans; [exact Hx2|].
      apply two_pow_le. lia. }
    apply Qle_trans with (round_at (Z.max (ilog2 x - 52) (-1074)) (2 ^ ilog2 y)).
    { apply round_at_mono. exact HxB. }
    rewrite round_at_pow2 by lia.
    rewrite <- (round_at_pow2 (Z.max (ilog2 y - 52) (-1074)) (ilog2 y)) by lia.
    apply round_at_mono. exact Hy1.
Qed.

Lemma ulp_exp_opp (x : Q) : ulp_exp (- x) = ulp_exp x.
Proof.
  unfold ulp_exp, ilog2. destruct x as [n d]. cbn [Qnum Qden Qopp].
  rewrite Z.abs_opp.
  replace (Qle_bool (2 ^ (Z.log2 (Z.abs n) - Z.log2 (Z.pos d))) (Qabs (- (n # d))))
    with (Qle_bool (2 ^ (Z.log2 (Z.abs n) - Z.log2 (Z.pos d))) (Qabs (n # d)));
    [reflexivity|].
  apply Qleb_comp; [reflexivity|].
  symmetry. exact (Qabs_opp (n # d)).
Qed.

Lemma round64_opp (x : Q) : round64 (- x) == - round64 x.
Proof.
  unfold round64. rewrite ulp_exp_opp. unfold round_at.
  pose proof (two_pow_pos (ulp_exp x)) as He.
  rewrite (nearest_even_comp (- x / 2 ^ ulp_exp x) (- (x / 2 ^ ulp_exp x)))
    by (field; lra).
  rewrite nearest_even_opp, inject_Z_opp. ring.
Qed.

Lemma round64_nonneg (x : Q) : 0 <= x -> 0 <= round64 x.
Proof. apply round_at_nonneg. Qed.

Lemma round64_mono (x y : Q) : x <= y -> round64 x <= round64 y.
Proof.
  intros Hxy.
  destruct (Qlt_le_dec 0 x) as [Hx|Hx]; [by apply round64_mono_pos|].
  assert (round64 x <= 0) as Hx0.
  { pose proof (round64_nonneg (- x)) as Hn. rewrite round64_opp in Hn. lra. }
  destruct (Qlt_le_dec y 0) as [Hy|Hy].
  - pose proof (round64_mono_pos (- y) (- x)) as Hm.
    rewrite !round64_opp in Hm. lra.
  - pose proof (round64_nonneg y Hy). lra.
Qed.

Lemma round64_zero : round64 0 == 0.
Proof. reflexivity. Qed.

Lemma round64_integer (n : Z) :
  (Z.abs n <= 2 ^ 53)%Z -> round64 (inject_Z n) == inject_Z n.
Proof.
  assert (forall n : Z, (0 < n <= 2 ^ 53)%Z ->
            round64 (inject_Z n) == inject_Z n) as Hpos.
  { clear n. intros n Hn.
    assert (0 < inject_Z n) as Hq
      by (change 0 with (inject_Z 0); rewrite <- Zlt_Qlt; lia).
    destruct (Z.eq_dec n (2 ^ 53)%Z) as [->|Hne].
    - vm_compute. reflexivity.
    - destruct (ilog2_spec _ Hq) as [H1 _].
      assert (inject_Z n < 2 ^ 53) as H2.
      { change (2 ^ 53) with (inject_Z (2 ^ 53)%Z). rewrite <- Zlt_Qlt. lia. }
      pose proof (two_pow_between _ _ _ H1 H2) as HL.
      unfold round64, ulp_exp.
      destruct (Z.le_ge_cases (ilog2 (inject_Z n) - 52) (-1074)) as [Hc|Hc].
      + rewrite Z.max_r by exact Hc.
        apply (round_at_multiple _ (n * 2 ^ 1074)).
        rewrite inject_Z_mult, Zpower_Qpower by lia.
        change (inject_Z 2) with 2. rewrite <- Qmult_assoc.
        rewrite <- Qpower_plus by discriminate. simpl. ring.
      + rewrite Z.max_l by lia.
        apply (round_at_multiple _ (n * 2 ^ (52 - ilog2 (inject_Z n)))).
        rewrite inject_Z_mult, Zpower_Qpower by lia.
        change (inject_Z 2) with 2. rewrite <- Qmult_assoc.
        rewrite <- Qpower_plus by discriminate.
        replace (52 - ilog2 (inject_Z n) + (ilog2 (inject_Z n) - 52))%Z
          with 0%Z by lia.
        simpl. ring. }
  intros Hn. destruct (Z.lt_trichotomy n 0) as [Hlt|[->|Hgt]].
  - pose proof (Hpos (- n)%Z) as Hm. rewrite inject_Z_opp, round64_opp in Hm.
    assert (- round64 (inject_Z n) == - inject_Z n) by (apply Hm; lia). lra.
  - reflexivity.
  - apply Hpos. lia.
Qed.

Lemma round64_comp (x y : Q) : x == y -> round64 x == round64 y.
Proof.
  intros E. apply Qle_antisym; apply round64_mono; rewrite E; apply Qle_refl.
Qed.

Lemma representable_comp (x y : Q) :
  x == y -> representable x -> representable y.
Proof.
  unfold representable. intros E [H1 H2]. split.
  - rewrite <- (round64_comp x y E), H1. exact E.
  - rewrite <- E. exact H2.
Qed.

Lemma representable_below (x y : Q) :
  round64 x == x -> 0 <= x -> x <= y -> representable y -> representable x.
Proof.
  intros Hx H0 Hxy [_ Hy]. split; [exact Hx|].
  rewrite Qabs_pos by exact H0. eapply Qle_lt_trans; [exact Hxy|].
  eapply Qle_lt_trans; [apply Qle_Qabs|exact Hy].
Qed.

Lemma ilog2_unique (x : Q) (k : Z) :
  2 ^ k <= x -> x < 2 ^ (k + 1) -> ilog2 x = k.
Proof.
  intros H1 H2. pose proof (two_pow_pos k) as Hk.
  destruct (ilog2_spec x) as [H3 H4]; [lra|].
  pose proof (two_pow_between _ _ _ H1 H4). pose proof (two_pow_between _ _ _ H3 H2).
  lia.
Qed.

(** Doubling a float is exact. *)
Lemma round64_double (c : Q) : round64 c == c -> round64 (c * 2) == c * 2.
Proof.
  assert (forall c, 0 < c -> round64 c == c -> round64 (c * 2) == c * 2)
    as Hpos.
  { clear c. intros c Hc Hr. unfold round64 in *.
    destruct (ilog2_spec c Hc) as [H1 H2].
    assert (ilog2 (c * 2) = (ilog2 c + 1)%Z) as HL.
    { apply ilog2_unique.
      - rewrite Qpower_plus by discriminate. change (2 ^ 1) with 2. lra.
      - rewrite (Qpower_plus 2 (ilog2 c + 1) 1) by discriminate.
        change (2 ^ 1) with 2. lra. }
    unfold round_at in Hr at 1. symmetry in Hr.
    set (n := nearest_even (c / 2 ^ ulp_exp c)) in Hr.
    unfold ulp_exp in *. rewrite HL.
    destruct (Z.lt_ge_cases (ilog2 c - 52) (-1074)) as [Hc1|Hc1].
    - rewrite Z.max_r in * by lia.
      apply (round_at_multiple _ (n * 2)).
      rewrite inject_Z_mult. change (inject_Z 2) with 2. lra.
    - rewrite (Z.max_l (ilog2 c + 1 - 52)) by lia.
      rewrite (Z.max_l (ilog2 c - 52)) in Hr by lia.
      apply (round_at_multiple _ n).
      replace (ilog2 c + 1 - 52)%Z with (ilog2 c - 52 + 1)%Z by lia.
      rewrite Qpower_plus by discriminate. change (2 ^ 1) with 2. lra. }
  intros Hr. destruct (Qlt_le_dec 0 c) as [Hc|Hc]; [by apply Hpos|].
  destruct (Qlt_le_dec c 0) as [Hn|Hn].
  - assert (round64 (- c) == - c) as Hr'
      by (rewrite round64_opp, Hr; reflexivity).
    pose proof (Hpos (- c) ltac:(lra) Hr') as H2.
    rewrite (round64_comp (c * 2) (- (- c * 2))) by ring.
    rewrite round64_opp, H2. ring.
  - rewrite (round64_comp (c * 2) 0) by lra. rewrite round64_zero. lra.
Qed.

(** Every integer up to [2^53] in magnitude is a float. *)
Lemma representable_integer (n : Z) :
  (Z.abs n <= 2 ^ 53)%Z -> representable (inject_Z n).
Proof.
  intros Hn. split; [by apply round64_integer|].
  apply Qabs_Qlt_condition.
  assert (inject_Z (- 2 ^ 53) <= inject_Z n <= inject_Z (2 ^ 53)) as [H1 H2]
    by (rewrite <- !Zle_Qle; lia).
  assert (- 2 ^ 1024 < inject_Z (- 2 ^ 53)) by reflexivity.
  assert (inject_Z (2 ^ 53) < 2 ^ 1024) by reflexivity.
  split; lra.
Qed.

End Binary64Facts.

(** * The backoff generator *)

Module BackoffFacts.
Import Binary64 Binary64Facts Backoff.
Open Scope Q_scope.

Lemma half_mul (c : Q) : c / 2 == c * (1 # 2).
Proof. unfold Qdiv. reflexivity. Qed.

(** The jitter of a float [c] whose half is a float lies between
    [c / 2] and [c], both ends included: the last sum is rounded, and
    may round up to [c]. *)
Lemma jittered_bounds (c r : Q) :
  0 <= c -> 0 <= r -> r <= 1 ->
  representable c -> representable (c / 2) ->
  c / 2 <= jittered c r /\ jittered c r <= c.
Proof.
  intros Hc Hr0 Hr1 [Rc _] [Rh _]. unfold jittered. cbv zeta.
  set (h := c / 2) in *. assert (h == c * (1 # 2)) as Eh by apply half_mul.
  clearbody h.
  assert (round64 (c - round64 h) == h) as Hx.
  { rewrite (round64_comp (c - round64 h) h) by lra. exact Rh. }
  set (x := round64 (c - round64 h)) in *. clearbody x.
  assert (0 <= r * x) as Hp0 by (apply Qmult_le_0_compat; lra).
  assert (r * x <= h) as Hp1.
  { assert (r * x <= 1 * x) by (apply Qmult_le_compat_r; lra). lra. }
  pose proof (round64_nonneg _ Hp0) as Ha0.
  pose proof (round64_mono _ _ Hp1) as Ha1.
  set (a := round64 (r * x)) in *. clearbody a.
  split.
  - apply Qle_trans with (round64 h); [lra|]. apply round64_mono. lra.
  - apply Qle_trans with (round64 c); [|lra]. apply round64_mono. lra.
Qed.

Lemma max_before_call b m k : max (before_call b m k) = m.
Proof. induction k as [|k IH]; [reflexivity|]. simpl. exact IH. Qed.

Lemma current_positive b m k :
  0 < b -> 0 < m -> 0 < current (before_call b m k).
Proof.
  intros Hb Hm. induction k as [|k IH]; [exact Hb|].
  change (before_call b m (S k)) with (advance (before_call b m k)).
  unfold advance. simpl. rewrite max_before_call.
  apply Q.min_glb_lt; lra.
Qed.

Lemma current_capped b m k : current (before_call b m (S k)) <= m.
Proof.
  change (before_call b m (S k)) with (advance (before_call b m k)).
  unfold advance. simpl. rewrite max_before_call. apply Q.le_min_r.
Qed.

(** [current] and its half stay floats from one call to the next. *)
Lemma current_representable b m k :
  0 < b -> 0 < m ->
  representable b -> representable (b / 2) ->
  representable m -> representable (m / 2) ->
  representable (current (before_call b m k)) /\
  representable (current (before_call b m k) / 2).
Proof.
  intros Hb Hm Rb Rb2 Rm Rm2. induction k as [|k [IH1 IH2]]; [by split|].
  pose proof (current_positive b m k Hb Hm) as Hpos.
  change (before_call b m (S k)) with (advance (before_call b m k)).
  unfold advance. cbn [current]. rewrite max_before_call.
  set (c := current (before_call b m k)) in *.
  destruct (Q.min_spec (c * 2) m) as [[Hlt E] | [_ E]]; symmetry in E.
  - split.
    + apply (representable_comp _ _ E).
      apply (representable_below _ m); [|lra|lra|exact Rm].
      apply round64_double, IH1.
    + apply (representable_comp c); [|exact IH1]. rewrite <- E. field.
  - split.
    + by apply (representable_comp _ _ E).
    + apply (representable_comp (m / 2)); [|exact Rm2]. rewrite <- E.
      reflexivity.
Qed.

Lemma midpoint_mono c c' : c <= c' -> midpoint c <= midpoint c'.
Proof. intros H. unfold midpoint. rewrite !half_mul. lra. Qed.

Lemma capped_midpoint_mono c c' m :
  c <= c' -> capped_midpoint c m <= capped_midpoint c' m.
Proof.
  intros H. unfold capped_midpoint. rewrite !half_mul.
  assert (Qmin (c * (1 # 2)) m <= Qmin (c' * (1 # 2)) m)
    by (apply Q.min_le_compat_r; lra).
  assert (Qmin c m <= Qmin c' m) by (apply Q.min_le_compat_r; lra).
  lra.
Qed.

Lemma delays_length s rs : length (delays s rs) = length rs.
Proof.
  revert s. induction rs as [|r rs IH]; intros s; [reflexivity|].
  simpl. f_equal. apply IH.
Qed.

Lemma delays_nth b m rs k r :
  rs !! k = Some r ->
  delays (getExpSleeper b m) rs !! k = Some (delay (before_call b m k) r).
Proof.
  unfold before_call. generalize (getExpSleeper b m) as s.
  revert k. induction rs as [|r0 rs IH]; intros k s Hk; [discriminate|].
  destruct k as [|k]; simpl in *.
  - injection Hk as ->. reflexivity.
  - rewrite (IH k (advance s) Hk). f_equal. f_equal.
    clear. induction k as [|k IHk]; [reflexivity|].
    simpl. rewrite IHk. reflexivity.
Qed.

(** The rational model and the floats of the kernel return the same
    jitter on the sample grid of [Backoff64]. *)
Lemma jittered_agrees_on_samples :
  forallb (fun c => forallb (Backoff64.agrees c) Backoff64.sample_draws)
    Backoff64.sample_currents = true.
Proof. vm_compute. reflexivity. Qed.

(** C8. For a sleeper made with positive base [b] and positive cap
    [m], both floats whose halves are floats, the [k]-th call with
    random draw [r] in [[0,1)] draws its jitter in the closed interval
    from [current/2] to [current], sleeps that value capped at [m] (so
    never more than [m]), and leaves [current = min (2 * current, m)].
    While [current] has not passed [m] the midpoint of the interval
    (capped or not) does not decrease from one call to the next.  The
    same holds of the list of delays produced with the draws [rs]. *)
Theorem backoff_sequence (b m : Q) (rs : list Q) (k : nat) (r : Q) :
  0 < b -> 0 < m ->
  representable b -> representable (b / 2) ->
  representable m -> representable (m / 2) ->
  rs !! k = Some r -> 0 <= r -> r < 1 ->
  let s := before_call b m k in
  let s' := snd (call s r) in
  let d := fst (call s r) in
  delays (getExpSleeper b m) rs !! k = Some d /\
  (exists j, current s / 2 <= j /\ j <= current s /\ d = Qmin j m) /\
  d <= m /\
  s' = before_call b m (S k) /\
  current s' = Qmin (current s * 2) m /\
  current s' <= m /\
  (current s <= m ->
     midpoint (current s) <= midpoint (current s') /\
     capped_midpoint (current s) m <= capped_midpoint (current s') m).
Proof.
  intros Hb Hm Rb Rb2 Rm Rm2 Hk Hr0 Hr1 s s' d. subst s s' d. simpl.
  pose proof (current_positive b m k Hb Hm) as Hpos.
  pose proof (max_before_call b m k) as Hmax.
  destruct (current_representable b m k Hb Hm Rb Rb2 Rm Rm2) as [Rc Rc2].
  split; [apply delays_nth; exact Hk|].
  split.
  { exists (jittered (current (before_call b m k)) r).
    destruct (jittered_bounds (current (before_call b m k)) r) as [Hlo Hhi];
      [lra..|exact Rc|exact Rc2|].
    unfold delay. rewrite Hmax. auto. }
  split; [unfold delay; rewrite Hmax; apply Q.le_min_r|].
  split; [reflexivity|].
  split; [rewrite Hmax; reflexivity|].
  split; [rewrite Hmax; apply Q.le_min_r|].
  intros Hle. rewrite Hmax.
  assert (current (before_call b m k)
          <= Qmin (current (before_call b m k) * 2) m)
    by (apply Q.min_glb; lra).
  split; [apply midpoint_mono | apply capped_midpoint_mono]; assumption.
Qed.

(** The sleeper every caller in the module uses, at its fourth call
    with draw 1/2. *)
Lemma backoff_sequence_witness :
  delays (getExpSleeper 1000 30000) [0; 1 # 4; 3 # 4; 1 # 2] !! 3%nat
    = Some (fst (call (before_call 1000 30000 3) (1 # 2))) /\
  (exists j, current (before_call 1000 30000 3) / 2 <= j /\
             j <= current (before_call 1000 30000 3) /\
             fst (call (before_call 1000 30000 3) (1 # 2)) = Qmin j 30000) /\
  current (snd (call (before_call 1000 30000 3) (1 # 2)))
    = Qmin (current (before_call 1000 30000 3) * 2) 30000.
Proof.
  pose proof (backoff_sequence 1000 30000 [0; 1 # 4; 3 # 4; 1 # 2] 3 (1 # 2))
    as H.
  destruct H as (H1 & H2 & _ & _ & H5 & _);
    try (vm_compute; reflexivity); try (split; vm_compute; reflexivity).
  - discriminate.
  - split; [exact H1 | split; [exact H2 | exact H5]].
Defined.

(** The half-open interval fails at its open end.  With the sleeper
    of the module, base 1000 and cap 30000, and the largest float
    below 1 for the draw, the first delay is 1000, which is [current]
    and not below it: the product rounds to [500 - 2^-44] and the sum
    with 500, half way between two floats, to 1000.  The floats of
    the kernel give the same, and also 1280 for base 1280 and the
    largest draw of 52 bits. *)
Lemma backoff_half_open_refuted :
  let s := getExpSleeper 1000 30000 in
  let r := 1 - 2 ^ (-53) in
  (0 <= r /\ r < 1 /\ representable r) /\
  delay s r == current s /\
  ~ (exists j, current s / 2 <= j /\ j < current s /\
               delay s r == Qmin j (max s)) /\
  (exists q, to_Q Backoff64.below_one = Some q /\ q == r) /\
  PrimFloat.ltb Backoff64.below_one 1 = true /\
  Backoff64.delay (Backoff64.getExpSleeper 1000 30000) Backoff64.below_one
    = Backoff64.current (Backoff64.getExpSleeper 1000 30000) /\
  PrimFloat.ltb Backoff64.below_one_52 1 = true /\
  Backoff64.delay (Backoff64.getExpSleeper 1280 30000) Backoff64.below_one_52
    = Backoff64.current (Backoff64.getExpSleeper 1280 30000).
Proof.
  cbv zeta.
  assert (delay (getExpSleeper 1000 30000) (1 - 2 ^ (-53)) == 1000) as Hd
    by (vm_compute; reflexivity).
  split; [split; [discriminate|split; [reflexivity|split; vm_compute; reflexivity]]|].
  split; [exact Hd|].
  split.
  { intros (j & _ & Hj & Hq). rewrite Hd in Hq. cbn [current max getExpSleeper] in *.
    pose proof (Q.le_min_l j 30000). lra. }
  split; [eexists; split; [vm_compute; reflexivity|vm_compute; reflexivity]|].
  repeat split; vm_compute; reflexivity.
Qed.

End BackoffFacts.

(** * Facts *)

Lemma lookup_alter_Some {A} (f : A -> A) (l : list A) i j y :
  alter f i l !! j = Some y <->
  (i <> j /\ l !! j = Some y) \/ (i = j /\ exists x, l !! j = Some x /\ y = f x).
Proof.
  rewrite list_lookup_alter. case_decide; subst.
  - destruct (l !! j) as [x|] eqn:E; simpl; naive_solver.
  - naive_solver.
Qed.

Lemma foldl_preserves {A B} (P : A -> Prop) (f : A -> B -> A) (l : list B) a :
  (forall a b, P a -> P (f a b)) -> P a -> P (foldl f a l).
Proof. intros Hf. revert a. induction l; simpl; auto. Qed.

Section Runs.
Context `{Platform}.

Lemma run_app w evs1 evs2 :
  run w (evs1 ++ evs2) =
    match run w evs1 with Some w' => run w' evs2 | None => None end.
Proof.
  revert w. induction evs1 as [|ev evs1 IH]; intros w; simpl; [done|].
  destruct (step w ev); [apply IH | done].
Qed.


Lemma reachable_coniglio : reachable coniglio.
Proof. by exists []. Qed.


Lemma reachable_run w evs w' :
  reachable w -> run w evs = Some w' -> reachable w'.
Proof.
  intros [evs0 Hr] Hs. exists (evs0 ++ evs). by rewrite run_app, Hr.
Qed.

Lemma run_ind (P : list Event -> World -> Prop) w0 :
  P [] w0 ->
  (forall evs w ev w',
      run w0 evs = Some w -> P evs w -> step w ev = Some w' ->
      P (evs ++ [ev]) w') ->
  forall evs w, run w0 evs = Some w -> P evs w.
Proof.
  intros H0 Hstep evs. induction evs as [|ev evs IH] using rev_ind;
    intros w Hr.
  - simpl in Hr. by simplify_eq.
  - rewrite run_app in Hr. destruct (run w0 evs) as [w1|] eqn:E; [|done].
    simpl in Hr. destruct (step w1 ev) as [w2|] eqn:E2; [|done].
    simplify_eq. eauto.
Qed.

Lemma reachable_ind (P : World -> Prop) :
  P coniglio ->
  (forall w ev w', reachable w -> P w -> step w ev = Some w' -> P w') ->
  forall w, reachable w -> P w.
Proof.
  intros H0 Hstep w [evs Hr]. revert w Hr.
  apply (run_ind (fun _ w => P w)); [done|].
  intros evs' w ev w' Hr. apply Hstep. by exists evs'.
Qed.

End Runs.

Section Cleanup.
Context `{Platform}.

Ltac cleanup_proj w :=
  unfold cleanup; destruct (conn w) eqn:?; [|done];
  unfold alter_conn, alter_chan;
  destruct (consumer w) eqn:?; destruct (publisher w) eqn:?;
  simpl; rewrite ?length_alter; congruence.

Lemma cleanup_tasks w : tasks (cleanup w) = tasks w.
Proof. cleanup_proj w. Qed.
Lemma cleanup_log w : log (cleanup w) = log w.
Proof. cleanup_proj w. Qed.
Lemma cleanup_conn w : conn (cleanup w) = conn w.
Proof. cleanup_proj w. Qed.
Lemma cleanup_loginInProgress w :
  loginInProgress (cleanup w) = loginInProgress w.
Proof. cleanup_proj w. Qed.
Lemma cleanup_consumer w : consumer (cleanup w) = consumer w.
Proof. cleanup_proj w. Qed.
Lemma cleanup_publisher w : publisher (cleanup w) = publisher w.
Proof. cleanup_proj w. Qed.
Lemma cleanup_sleepers w : sleepers (cleanup w) = sleepers w.
Proof. cleanup_proj w. Qed.
Lemma cleanup_expSleeperPublisher w :
  expSleeperPublisher (cleanup w) = expSleeperPublisher w.
Proof. cleanup_proj w. Qed.
Lemma cleanup_conns_length w : length (conns (cleanup w)) = length (conns w).
Proof. cleanup_proj w. Qed.
Lemma cleanup_chans_length w : length (chans (cleanup w)) = length (chans w).
Proof. cleanup_proj w. Qed.
End Cleanup.

Create Rewrite HintDb world.
#[global] Hint Rewrite @cleanup_tasks @cleanup_log @cleanup_conn
  @cleanup_loginInProgress @cleanup_consumer @cleanup_publisher
  @cleanup_sleepers @cleanup_expSleeperPublisher @cleanup_conns_length
  @cleanup_chans_length : world.

(** Destructing what is known about an entry looked up in an updated
    list. *)
Ltac lookup_inv :=
  repeat match goal with
  | H : <[_ := _]> _ !! _ = Some _ |- _ =>
      apply list_lookup_insert_Some in H;
      destruct H as [(? & ? & ?) | (? & H)]
  | H : (_ ++ [_]) !! _ = Some _ |- _ =>
      apply lookup_snoc_Some in H;
      destruct H as [(? & H) | (? & ?)]
  | H : alter _ _ _ !! _ = Some _ |- _ =>
      apply lookup_alter_Some in H;
      destruct H as [(? & H) | (? & ? & H & ?)]
  end;
  repeat match goal with
  | H : _ = on_sub _ ?x |- _ => destruct x; simpl in H
  end;
  rewrite ?length_app, ?length_insert, ?length_alter in *; simpl in *.

(** Closing a goal by congruence or arithmetic on indices. *)
Ltac fin :=
  simplify_eq; eauto; try done; try lia; try congruence; try (f_equal; lia).

(** Recording that an index that is looked up with success is in range. *)
Ltac note_bounds :=
  repeat match goal with
  | H : ?l !! ?i = Some _ |- _ =>
      lazymatch goal with
      | _ : i < length l |- _ => fail
      | _ => pose proof (lookup_lt_Some _ _ _ H)
      end
  end.

Ltac len := rewrite ?length_insert, ?length_app, ?length_alter; simpl; lia.

(** Evaluating the lookups of the goal in an updated list. *)
Ltac lookup_goal :=
  note_bounds;
  repeat match goal with
  | |- context [<[?i := _]> ?l !! ?j] =>
      first
        [ rewrite (list_lookup_insert_eq l i) by len
        | rewrite (list_lookup_insert_ne l i j) by (done || lia)
        | destruct (decide (i = j));
          [subst; rewrite list_lookup_insert_eq by len
          | rewrite (list_lookup_insert_ne l i j) by done] ]
  | |- context [alter ?f ?i ?l !! ?j] =>
      first
        [ rewrite (list_lookup_alter_ne f l i j) by (done || lia)
        | rewrite (list_lookup_alter_eq f l i)
        | destruct (decide (i = j));
          [subst; rewrite list_lookup_alter_eq
          | rewrite (list_lookup_alter_ne f l i j) by done] ]
  | |- context [(?l ++ [?x]) !! ?j] =>
      first
        [ rewrite (lookup_app_l l [x] j) by len
        | rewrite (list_lookup_middle l [] x j) by (done || lia) ]
  | H : ?l !! ?i = Some _ |- context [?l !! ?i] => rewrite H
  end; simpl.

Ltac unfold_ops :=
  unfold step_settle, step_timer, step_resume, step_pull, login_settle,
    login, login_attempt, login_catch, publish_attempt, publish_catch,
    startConsumer_call, startConsumer_rest, listen_turn, consumer_callback,
    subscription, login_resolved, instance_ready in *.

Ltac unfold_world :=
  unfold set_task, emit, spawn, new_sleeper, sleeper_done, alter_conn,
    alter_chan, alter_sub in *;
  repeat (simpl in *; autorewrite with world in * );
  rewrite ?length_app, ?length_insert, ?length_alter in *; simpl in *.

Ltac case_matches H :=
  repeat match type of H with
  | context [match ?x with _ => _ end] =>
      lazymatch x with
      | context [match _ with _ => _ end] => fail
      | _ => destruct x eqn:?
      end
  | context [if ?x then _ else _] =>
      lazymatch x with
      | context [match _ with _ => _ end] => fail
      | _ => destruct x eqn:?
      end
  end.

Section MicroFacts.
Context `{Platform}.

Lemma micro_run_listeners {A} (f : World -> A -> World) (mk : A -> Micro)
    (ls : list A) w :
  (forall w a, micro w (mk a) = Some (f w a)) ->
  micro_run w (map mk ls) = Some (foldl f w ls).
Proof.
  intros Hf. revert w. induction ls as [|a ls IH]; intros w; simpl; [done|].
  rewrite Hf. apply IH.
Qed.

Lemma step_micros w ev : micro_run w (micros w ev) = step w ev.
Proof.
  destruct ev; simpl; try by (destruct (step_settle _ _ _) || destruct (step_timer _ _) || idtac).
  all: try match goal with |- match ?x with _ => _ end = _ => by destruct x end.
  - destruct (conns w !! c) as [C|] eqn:E; simpl; [|done].
    by apply (micro_run_listeners run_error_listener).
  - destruct (conns w !! c) as [C|] eqn:E; simpl; [|done].
    by apply (micro_run_listeners run_close_listener).
Qed.

Lemma micro_run_preserves (P : World -> Prop) :
  (forall w m w', P w -> micro w m = Some w' -> P w') ->
  forall ms w w', P w -> micro_run w ms = Some w' -> P w'.
Proof.
  intros Hm ms. induction ms as [|m ms IH]; intros w w' HP Hr; simpl in Hr.
  - by simplify_eq.
  - destruct (micro w m) as [w1|] eqn:E; [|done]. eauto.
Qed.

End MicroFacts.

(** Case analysis on a small step, unfolded: one goal per path
    through the code. *)
Ltac micro_cases Hs :=
  match type of Hs with
  | micro _ ?m = Some _ =>
      destruct m as [[] | [] | [] | [] ?]; simpl in Hs;
      try discriminate Hs;
      unfold run_error_listener, run_close_listener in Hs;
      unfold_ops; case_matches Hs; simplify_eq
  end.

Section InvFields.
Context `{Platform}.

Lemma micro_inv_log w m w' :
  Inv w -> micro w m = Some w' ->
  forall t a, (t, a) ∈ log w' -> t < length (tasks w').
Proof.
  intros HI Hs. pose proof (inv_log w HI) as HB. micro_cases Hs.
  all: intros t0 a0 Hin; unfold_world; note_bounds;
    repeat (rewrite elem_of_app in Hin || rewrite list_elem_of_singleton in Hin);
    repeat match goal with Hx : _ \/ _ |- _ => destruct Hx end;
    simplify_eq;
    try match goal with Hx : _ ∈ log _ |- _ => apply HB in Hx end; len.
Qed.

(** Using that the login sequences still running and the promise in
    flight are the same. *)
Ltac know_logins HL1 HL2 :=
  repeat match goal with
  | Hx : tasks ?w0 !! ?t = Some (TLogin _ _) |- _ =>
      lazymatch goal with
      | _ : loginInProgress w0 = Some t |- _ => fail
      | _ => assert (loginInProgress w0 = Some t)
               by (apply (HL1 _ _ _ Hx); done)
      end
  end;
  repeat match goal with
  | Hx : loginInProgress ?w0 = Some ?t |- _ =>
      lazymatch goal with
      | _ : tasks w0 !! t = Some (TLogin _ _) |- _ => fail
      | _ => destruct (HL2 _ Hx) as (? & ? & ? & ?)
      end
  end;
  simplify_eq.

Lemma micro_inv_running w m w' :
  Inv w -> micro w m = Some w' ->
  forall t sl pc,
    tasks w' !! t = Some (TLogin sl pc) -> pc <> LResolved ->
    loginInProgress w' = Some t.
Proof.
  intros HI Hs.
  pose proof (inv_running w HI) as HL1. pose proof (inv_inflight w HI) as HL2.
  unfold login_running in *. micro_cases Hs.
  all: intros ? ? ? ? ?; unfold_world; lookup_inv; simplify_eq; try done;
    know_logins HL1 HL2; fin.
Qed.

Lemma micro_inv_inflight w m w' :
  Inv w -> micro w m = Some w' ->
  forall p, loginInProgress w' = Some p -> login_running p w'.
Proof.
  intros HI Hs.
  pose proof (inv_running w HI) as HL1. pose proof (inv_inflight w HI) as HL2.
  unfold login_running in *. micro_cases Hs.
  all: intros ? ?; unfold_world; simplify_eq; know_logins HL1 HL2;
    lookup_goal; fin.
Qed.

End InvFields.

Section InvFields2.
Context `{Platform}.

Ltac know_logins HL1 HL2 :=
  repeat match goal with
  | Hx : tasks ?w0 !! ?t = Some (TLogin _ _) |- _ =>
      lazymatch goal with
      | _ : loginInProgress w0 = Some t |- _ => fail
      | _ => assert (loginInProgress w0 = Some t)
               by (apply (HL1 _ _ _ Hx); done)
      end
  end;
  repeat match goal with
  | Hx : loginInProgress ?w0 = Some ?t |- _ =>
      lazymatch goal with
      | _ : tasks w0 !! t = Some (TLogin _ _) |- _ => fail
      | _ => destruct (HL2 _ Hx) as (? & ? & ? & ?)
      end
  end;
  simplify_eq.

Lemma micro_inv_awaits w m w' :
  Inv w -> micro w m = Some w' ->
  forall t k p,
    tasks w' !! t = Some k -> awaits k = Some p ->
    exists sl pc, tasks w' !! p = Some (TLogin sl pc).
Proof.
  intros HI Hs.
  pose proof (inv_running w HI) as HL1. pose proof (inv_inflight w HI) as HL2.
  pose proof (inv_awaits w HI) as HA.
  unfold login_running in *. micro_cases Hs.
  all: intros ? ? ? Hk Ha; unfold_world; lookup_inv;
    repeat (progress (simpl in *; simplify_eq)); try done;
    know_logins HL1 HL2;
    try match goal with
    | Hx : tasks _ !! _ = Some ?k |- _ =>
        destruct (HA _ k _ Hx Ha) as (? & ? & ?)
    end;
    lookup_goal; fin.
Qed.

End InvFields2.

Section Channels.
Context `{Platform}.

Lemma chan_on_alter f k' w k c :
  (forall K, ch_conn (f K) = ch_conn K) ->
  chan_on w k c -> chan_on (alter_chan f k' w) k c.
Proof.
  intros Hf (K & HK & Hc). destruct k' as [k'|]; [|by exists K].
  unfold chan_on, alter_chan. simpl.
  destruct (decide (k' = k)) as [->|Hne].
  - exists (f K). rewrite list_lookup_alter_eq, HK. simpl. by rewrite Hf.
  - exists K. by rewrite list_lookup_alter_ne.
Qed.

Lemma chan_on_cleanup w k c : chan_on w k c -> chan_on (cleanup w) k c.
Proof.
  intros Hk. unfold cleanup. destruct (conn w) as [c0|]; [|done].
  cbv zeta.
  change (chan_on (alter_conn conn_close c0 ?w0) k c) with (chan_on w0 k c).
  do 4 (apply chan_on_alter; [by intros []|]).
  exact Hk.
Qed.

Lemma chan_on_chans w w' k c :
  chans w' = chans w -> chan_on w k c -> chan_on w' k c.
Proof. unfold chan_on. by intros ->. Qed.

Lemma chan_on_snoc w w' K k c :
  chans w' = chans w ++ [K] -> chan_on w k c -> chan_on w' k c.
Proof.
  unfold chan_on. intros -> (K0 & HK & Hc). exists K0.
  split; [|done]. by apply lookup_app_l_Some.
Qed.

Lemma chan_on_new w w' c :
  chans w' = chans w ++ [{| ch_conn := c; ch_on_error := 1; ch_open := true;
                            ch_consumers := [] |}] ->
  chan_on w' (length (chans w)) c.
Proof.
  unfold chan_on. intros ->. eexists. split.
  - by rewrite list_lookup_middle.
  - reflexivity.
Qed.

Lemma chan_on_alter_list f k' (l : list Channel) k c :
  (forall K, ch_conn (f K) = ch_conn K) ->
  (exists K, l !! k = Some K /\ ch_conn K = c) ->
  exists K, alter f k' l !! k = Some K /\ ch_conn K = c.
Proof.
  intros Hf (K & HK & Hc). destruct (decide (k' = k)) as [->|Hne].
  - exists (f K). rewrite list_lookup_alter_eq, HK. simpl. by rewrite Hf.
  - exists K. by rewrite list_lookup_alter_ne.
Qed.

Lemma chan_on_snoc_list (l : list Channel) K0 k c :
  (exists K, l !! k = Some K /\ ch_conn K = c) ->
  exists K, (l ++ [K0]) !! k = Some K /\ ch_conn K = c.
Proof.
  intros (K & HK & Hc). exists K. split; [|done]. by apply lookup_app_l_Some.
Qed.

Lemma chan_on_new_list (l : list Channel) K0 c :
  ch_conn K0 = c ->
  exists K, (l ++ [K0]) !! length l = Some K /\ ch_conn K = c.
Proof. intros Hc. exists K0. split; [|done]. by rewrite list_lookup_middle. Qed.

End Channels.

(** Channels stay on the connection they were created on. *)
Ltac chan_on_solve :=
  unfold chan_on in *; unfold_world;
  repeat first
    [ assumption
    | apply chan_on_new_list; reflexivity
    | apply chan_on_snoc_list
    | apply chan_on_alter_list; [by intros []|]
    | apply chan_on_cleanup; unfold chan_on; simpl ].

Ltac know_logins HL1 HL2 :=
  repeat match goal with
  | Hx : tasks ?w0 !! ?t = Some (TLogin _ _) |- _ =>
      lazymatch goal with
      | _ : loginInProgress w0 = Some t |- _ => fail
      | _ => assert (loginInProgress w0 = Some t)
               by (apply (HL1 _ _ _ Hx); done)
      end
  end;
  repeat match goal with
  | Hx : loginInProgress ?w0 = Some ?t |- _ =>
      lazymatch goal with
      | _ : tasks w0 !! t = Some (TLogin _ _) |- _ => fail
      | _ => destruct (HL2 _ Hx) as (? & ? & ? & ?)
      end
  end;
  simplify_eq.

Section Connected.
Context `{Platform}.

Lemma chan_on_micro w m w' :
  micro w m = Some w' -> forall k c, chan_on w k c -> chan_on w' k c.
Proof.
  intros Hs k c Hk. micro_cases Hs.
  all: chan_on_solve.
Qed.

Lemma micro_inv_connected w m w' :
  Inv w -> micro w m = Some w' ->
  forall t sl c,
    tasks w' !! t = Some (TLogin sl (LCreatingChannel c)) -> conn w' = Some c.
Proof.
  intros HI Hs.
  pose proof (inv_running w HI) as HL1. pose proof (inv_inflight w HI) as HL2.
  pose proof (inv_connected w HI) as HC.
  unfold login_running in *. micro_cases Hs.
  all: intros ? ? ? ?; unfold_world; lookup_inv; simplify_eq; try done;
    try match goal with
    | Hx : tasks _ !! _ = Some (TLogin _ (LCreatingChannel _)) |- _ =>
        pose proof (HC _ _ _ Hx)
    end;
    know_logins HL1 HL2; fin.
Qed.

Lemma micro_inv_consumer w m w' :
  Inv w -> micro w m = Some w' ->
  forall t sl c,
    tasks w' !! t = Some (TLogin sl (LCreatingConfirmChannel c)) ->
    conn w' = Some c /\ exists k, consumer w' = Some k /\ chan_on w' k c.
Proof.
  intros HI Hs.
  pose proof (inv_running w HI) as HL1. pose proof (inv_inflight w HI) as HL2.
  pose proof (inv_connected w HI) as HC. pose proof (inv_consumer w HI) as HK.
  unfold login_running in *. micro_cases Hs.
  all: intros ? ? ? ?; unfold_world; lookup_inv; simplify_eq; try done;
    try match goal with
    | Hx : tasks _ !! _ = Some (TLogin _ (LCreatingConfirmChannel _)) |- _ =>
        destruct (HK _ _ _ Hx) as (? & ? & ? & ?)
    end;
    try match goal with
    | Hx : tasks _ !! _ = Some (TLogin _ (LCreatingChannel _)) |- _ =>
        pose proof (HC _ _ _ Hx)
    end;
    know_logins HL1 HL2;
    try (split; [fin|eexists; split; [fin|chan_on_solve]]).
Qed.

Lemma micro_inv_quiescent w m w' :
  Inv w -> micro w m = Some w' ->
  loginInProgress w' = None -> initialized w'.
Proof.
  intros HI Hs.
  pose proof (inv_running w HI) as HL1. pose proof (inv_inflight w HI) as HL2.
  pose proof (inv_consumer w HI) as HK. pose proof (inv_quiescent w HI) as HQ.
  unfold login_running, initialized in *. micro_cases Hs.
  all: intros ?; unfold_world; simplify_eq; try done;
    try match goal with
    | Hx : tasks _ !! _ = Some (TLogin _ (LCreatingConfirmChannel _)) |- _ =>
        destruct (HK _ _ _ Hx) as (? & ? & ? & ?)
    end;
    know_logins HL1 HL2;
    try (destruct HQ as (? & ? & ? & ? & ? & ? & ? & ?); [done|]);
    simplify_eq;
    do 3 eexists; (split; [fin|split; [fin|split; [fin|]]]);
    split; chan_on_solve.
Qed.

Lemma micro_inv_assigned w m w' :
  Inv w -> micro w m = Some w' ->
  forall p sl,
    tasks w' !! p = Some (TLogin sl LResolved) ->
    is_Some (conn w') /\ is_Some (consumer w') /\ is_Some (publisher w').
Proof.
  intros HI Hs.
  pose proof (inv_consumer w HI) as HK. pose proof (inv_assigned w HI) as HA.
  micro_cases Hs.
  all: intros ? ? ?; unfold_world; lookup_inv; simplify_eq; try done;
    try match goal with
    | Hx : tasks _ !! _ = Some (TLogin _ (LCreatingConfirmChannel _)) |- _ =>
        destruct (HK _ _ _ Hx) as (? & ? & ? & ?)
    end;
    try match goal with
    | Hx : tasks _ !! _ = Some (TLogin _ LResolved) |- _ =>
        destruct (HA _ _ Hx) as (? & ? & ?)
    end;
    repeat split; fin.
Qed.

End Connected.

Section Ready.
Context `{Platform}.

Lemma instance_ready_iff w :
  instance_ready w = true <-> tasks w !! 0%nat = Some (TMain MReady).
Proof.
  unfold instance_ready.
  destruct (tasks w !! 0%nat) as [[[]| | | | |]|]; naive_solver.
Qed.

Lemma micro_inv_main w m w' :
  Inv w -> micro w m = Some w' ->
  exists pc, tasks w' !! 0%nat = Some (TMain pc) /\ pc <> MCalled.
Proof.
  intros HI Hs. destruct (inv_main w HI) as (pc0 & HM & Hpc0).
  micro_cases Hs.
  all: unfold_world; lookup_goal; fin.
Qed.

Lemma micro_resolved w m w' p sl :
  micro w m = Some w' ->
  tasks w !! p = Some (TLogin sl LResolved) ->
  tasks w' !! p = Some (TLogin sl LResolved).
Proof.
  intros Hs Hp. micro_cases Hs.
  all: unfold_world; lookup_goal; fin.
Qed.

Lemma micro_inv_ready w m w' :
  Inv w -> micro w m = Some w' ->
  instance_ready w' = true ->
  exists p sl, tasks w' !! p = Some (TLogin sl LResolved).
Proof.
  intros HI Hs Hr.
  pose proof (micro_resolved w m w') as HP.
  pose proof (inv_ready w HI) as HR.
  rewrite instance_ready_iff in Hr.
  destruct (instance_ready w) eqn:Hw.
  { destruct (HR eq_refl) as (p & sl & Hp). eauto. }
  assert (tasks w !! 0%nat <> Some (TMain MReady))
    by (rewrite <- instance_ready_iff; congruence).
  clear HR HP. micro_cases Hs.
  all: unfold_world; lookup_inv; simplify_eq; try done.
  all: match goal with
       | Hx : tasks _ !! ?p = Some (TLogin ?sl LResolved) |- _ => exists p, sl
       end; lookup_goal; fin.
Qed.

Lemma micro_inv_user w m w' :
  Inv w -> micro w m = Some w' ->
  forall t k,
    tasks w' !! t = Some k -> is_user_task k = true ->
    instance_ready w' = true.
Proof.
  intros HI Hs t k Hk Hu.
  pose proof (inv_user w HI) as HU.
  rewrite instance_ready_iff. setoid_rewrite instance_ready_iff in HU.
  micro_cases Hs.
  all: unfold_world; lookup_inv; simpl in *; simplify_eq; try done;
    try match goal with
    | Hx : tasks _ !! _ = Some ?k |- _ =>
        assert (tasks w !! 0%nat = Some (TMain MReady))
          by (apply (HU _ k Hx); done)
    end;
    lookup_goal; fin.
Qed.

End Ready.

Lemma concat_snoc_nil {A} (ls : list (list A)) (l : list A) :
  concat (ls ++ [l]) ++ [] = concat ls ++ l.
Proof. rewrite concat_app. simpl. by rewrite !app_nil_r. Qed.

Lemma concat_snoc {A} (ls : list (list A)) (l : list A) :
  concat (ls ++ [l]) = concat ls ++ l.
Proof. rewrite concat_app. simpl. by rewrite app_nil_r. Qed.

Section Histories.
Context `{Platform}.

Lemma actions_of_app t l1 l2 :
  actions_of t (l1 ++ l2) = actions_of t l1 ++ actions_of t l2.
Proof. unfold actions_of. by rewrite filter_app, map_app. Qed.

Lemma actions_of_singleton t u a :
  actions_of t [(u, a)] = if decide (u = t) then [a] else [].
Proof.
  unfold actions_of. rewrite filter_cons, filter_nil. simpl.
  by case_decide.
Qed.

Lemma actions_of_fresh t n l :
  (forall u a, (u, a) ∈ l -> u < n) -> n <= t -> actions_of t l = [].
Proof.
  intros Hl Hn. unfold actions_of.
  induction l as [|[u a] l IH]; [done|].
  rewrite filter_cons. simpl. case_decide.
  - subst. assert (t < n) by (apply (Hl t a); left). lia.
  - apply IH. intros u' a' Hin. apply (Hl u' a'). by right.
Qed.

Lemma login_history_mono w w' sl pc h :
  (forall k c, chan_on w k c -> chan_on w' k c) ->
  login_history w sl pc h -> login_history w' sl pc h.
Proof.
  intros Hm (turns & cur & -> & Ht & Hc). exists turns, cur.
  split; [done|]. split; [done|].
  destruct pc; simpl in *; naive_solver.
Qed.

End Histories.

(** Bringing the history of a task after a step to the form
    [history before ++ what the step recorded]. *)
Ltac hist_norm :=
  unfold history in *; simpl in *;
  rewrite ?actions_of_app, ?actions_of_singleton in *;
  repeat case_decide; simplify_eq; try lia;
  rewrite ?app_nil_r in *.

Section LoginHistory.
Context `{Platform}.

Lemma micro_inv_login_history w m w' :
  Inv w -> micro w m = Some w' ->
  forall t sl pc,
    tasks w' !! t = Some (TLogin sl pc) ->
    login_history w' sl pc (history t w').
Proof.
  intros HI Hs.
  pose proof (inv_log w HI) as HB.
  pose proof (inv_login_history w HI) as HH.
  pose proof (inv_connected w HI) as HC.
  pose proof (inv_consumer w HI) as HK.
  assert (forall t, length (tasks w) <= t -> actions_of t (log w) = [])
    as Hfresh by (intros; by eapply actions_of_fresh).
  micro_cases Hs.
  all: intros ? ? ? ?; unfold_world; lookup_inv; simplify_eq;
    try done; note_bounds.
  all: hist_norm; rewrite ?Hfresh in * by lia.
  (* a login sequence the step did not run *)
  all: try (eapply login_history_mono; [|eapply HH; eassumption];
            intros ? ? ?; chan_on_solve; fail).
  (* the login sequence the step ran *)
  all: try match goal with
    | Hx : tasks _ !! _ = Some (TLogin _ (LCreatingChannel _)) |- _ =>
        pose proof (HC _ _ _ Hx)
    end.
  all: try match goal with
    | Hx : tasks _ !! _ = Some (TLogin _ (LCreatingConfirmChannel _)) |- _ =>
        destruct (HK _ _ _ Hx) as (? & ? & ? & ?)
    end.
  all: try match goal with
    | Hx : tasks _ !! _ = Some (TLogin _ _) |- _ =>
        destruct (HH _ _ _ Hx) as (turns & cur & Hh & Hturns & Hcur);
        simpl in Hcur; unfold history in Hh; rewrite Hh
    end;
    repeat match goal with
    | Hx : exists _, _ |- _ => destruct Hx
    | Hx : _ /\ _ |- _ => destruct Hx
    end; simplify_eq.
  all: unfold login_history.
  (* a new login sequence *)
  all: try (exists [], [ACleanup]; repeat split; constructor).
  (* the turn goes on *)
  all: try (exists turns; eexists; split;
            [rewrite <- ?app_assoc; simpl; reflexivity|];
            split; [assumption|]; simpl;
            repeat lazymatch goal with
            | |- exists _, _ => eexists
            | |- _ /\ _ => split
            end; first [reflexivity | chan_on_solve]; fail).
  (* the turn failed *)
  all: try (rewrite <- ?app_assoc; simpl;
            eexists (turns ++ [_]), []; split;
            [rewrite concat_snoc_nil; reflexivity|];
            split; [|reflexivity];
            apply Forall_app; split; [assumption|];
            constructor; constructor).
Qed.

End LoginHistory.

Section PublishHistory.
Context `{Platform}.

Lemma publish_attempts_mono w w' ex rk payload attempts :
  resolved_mono w w' ->
  Forall (publish_failed_attempt w ex rk payload) attempts ->
  Forall (publish_failed_attempt w' ex rk payload) attempts.
Proof.
  intros Hm Ha. eapply Forall_impl; [exact Ha|].
  intros a (call & sl & p & ? & ? & ?). exists call, sl, p. eauto.
Qed.

Lemma publish_history_mono w w' ex rk payload pc h :
  resolved_mono w w' ->
  publish_history w ex rk payload pc h ->
  publish_history w' ex rk payload pc h.
Proof.
  intros Hm (attempts & cur & -> & Ha & Hc). exists attempts, cur.
  split; [done|]. split; [|done]. by eapply publish_attempts_mono.
Qed.

Lemma login_resolved_iff p w :
  login_resolved p w = true <->
  exists sl, tasks w !! p = Some (TLogin sl LResolved).
Proof.
  unfold login_resolved.
  destruct (tasks w !! p) as [[| ? []| | | |]|]; naive_solver.
Qed.

Lemma resolved_mono_tasks w w' :
  (forall p sl, tasks w !! p = Some (TLogin sl LResolved) ->
                tasks w' !! p = Some (TLogin sl LResolved)) ->
  resolved_mono w w'.
Proof.
  intros Ht p. rewrite !login_resolved_iff. intros (sl & Hp). eauto.
Qed.

Lemma resolved_mono_micro w m w' :
  micro w m = Some w' -> resolved_mono w w'.
Proof.
  intros Hs p. rewrite !login_resolved_iff. intros (sl & Hp). exists sl.
  by eapply micro_resolved.
Qed.

Lemma publisher_assigned w t ex rk payload pc :
  Inv w -> tasks w !! t = Some (TPublish ex rk payload pc) ->
  is_Some (publisher w).
Proof.
  intros HI Ht.
  assert (instance_ready w = true) as Hr by (by eapply (inv_user w HI)).
  destruct (inv_ready w HI Hr) as (p & sl & Hp).
  by destruct (inv_assigned w HI p sl Hp) as (_ & _ & ?).
Qed.

Lemma publisher_ready w :
  Inv w -> instance_ready w = true -> is_Some (publisher w).
Proof.
  intros HI Hr.
  destruct (inv_ready w HI Hr) as (p & sl & Hp).
  by destruct (inv_assigned w HI p sl Hp) as (_ & _ & ?).
Qed.

Ltac mono_solve :=
  apply resolved_mono_tasks; intros ? ? ?; simpl; lookup_goal; fin.

Ltac ph_side :=
  simpl; unfold publish_call;
  repeat match goal with
  | Hx : publish_body ?p = _ |- _ => rewrite Hx
  end;
  simpl;
  repeat lazymatch goal with
  | |- exists _, _ => eexists
  | |- _ /\ _ => split
  end;
  first [eassumption | reflexivity | rewrite <- ?app_assoc; reflexivity].

Lemma micro_inv_publish_history w m w' :
  Inv w -> micro w m = Some w' ->
  forall t ex rk payload pc,
    tasks w' !! t = Some (TPublish ex rk payload pc) ->
    publish_history w' ex rk payload pc (history t w').
Proof.
  intros HI Hs.
  pose proof (inv_log w HI) as HB.
  pose proof (inv_publish_history w HI) as HH.
  pose proof (fun t ex rk payload pc =>
                publisher_assigned w t ex rk payload pc HI) as HP.
  pose proof (publisher_ready w HI) as HR.
  assert (forall t, length (tasks w) <= t -> actions_of t (log w) = [])
    as Hfresh by (intros; by eapply actions_of_fresh).
  micro_cases Hs.
  all: intros ? ? ? ? ? ?; unfold_world; lookup_inv; simplify_eq;
    try done; note_bounds.
  all: hist_norm; rewrite ?Hfresh in * by lia.
  (* a publish the step did not run *)
  all: try (eapply publish_history_mono; [|eapply HH; eassumption];
            mono_solve).
  (* the publisher channel is assigned *)
  all: try match goal with
    | Hx : publisher _ = None |- _ =>
        first [ destruct HR as [? ?]; [done|congruence]
              | match goal with
                | Hy : tasks _ !! _ = Some (TPublish _ _ _ _) |- _ =>
                    destruct (HP _ _ _ _ _ Hy) as [? ?]; congruence
                end ]
    end.
  all: clear HP HR.
  all: try match goal with
    | Hx : tasks _ !! _ = Some (TPublish _ _ _ _) |- _ =>
        destruct (HH _ _ _ _ _ Hx) as (attempts & cur & Hh & Hatt & Hcur);
        simpl in Hcur; unfold history in Hh; rewrite Hh
    end.
  all: unfold publish_history, publish_call in *;
    repeat match goal with
    | Hx : exists _, _ |- _ => destruct Hx
    | Hx : _ /\ _ |- _ => destruct Hx
    end; simplify_eq;
    repeat match goal with
    | Hx : publish_body ?p = _ |- _ => rewrite Hx in *
    end;
    repeat match goal with
    | Hx : exists _, _ |- _ => destruct Hx
    | Hx : _ /\ _ |- _ => destruct Hx
    end; simplify_eq.
  (* a new publish *)
  all: try (exists []; eexists; split; [simpl; reflexivity|];
            split; [constructor|]; ph_side; fail).
  (* the attempt goes on *)
  all: try (exists attempts; eexists; split;
            [rewrite <- ?app_assoc; simpl; reflexivity|];
            split; [eapply publish_attempts_mono; [|exact Hatt]; mono_solve|];
            ph_side; fail).
  (* the attempt is over and the next one starts *)
  all: try (match goal with
            | Hx : actions_of _ _ = concat ?att ++ ?c |- _ =>
                exists (att ++ [c])
            end; eexists; split;
            [rewrite concat_snoc, <- ?app_assoc; simpl; reflexivity|];
            split;
            [apply Forall_app; split;
             [eapply publish_attempts_mono; [|exact Hatt]; mono_solve|];
             constructor; [|constructor];
             eexists _, _, _; split; [ph_side|];
             split; [reflexivity|];
             apply login_resolved_iff; eexists; simpl; lookup_goal; fin
            |];
            ph_side; fail).
Qed.

End PublishHistory.

Section ListenBody.
Context `{Platform}.

Lemma safeJson_returns buf : exists v, safeJson buf = Return v.
Proof.
  unfold safeJson. destruct (JSON_parse (Buffer_toString buf)); simpl; eauto.
Qed.

Lemma safeJson_parsed buf v :
  JSON_parse (Buffer_toString buf) = Return v ->
  safeJson buf = Return (Defined v).
Proof. unfold safeJson. by intros ->. Qed.

Lemma safeJson_malformed buf e :
  JSON_parse (Buffer_toString buf) = Throw e ->
  safeJson buf = Return Undefined.
Proof. unfold safeJson. by intros ->. Qed.

Lemma listen_body_spec o msg :
  listen_body o msg =
    Return (if accepted o msg then Yielded (envelope_of o msg)
            else Nacked msg false false).
Proof.
  unfold listen_body, accepted, envelope_of, parsed_of, safeJson.
  destruct (opt_json o); simpl;
    [destruct (JSON_parse _); simpl|];
    destruct (opt_routingKeys o) as [keys|]; simpl; try done;
    by destruct (includes keys _).
Qed.

Lemma consumer_assigned w g s :
  Inv w -> tasks w !! g = Some (TListen s) -> is_Some (consumer w).
Proof.
  intros HI Ht.
  assert (instance_ready w = true) as Hr by (by eapply (inv_user w HI)).
  destruct (inv_ready w HI Hr) as (p & sl & Hp).
  by destruct (inv_assigned w HI p sl Hp) as (_ & ? & _).
Qed.

Lemma micro_inv_yielded w m w' :
  Inv w -> micro w m = Some w' ->
  forall g s,
    tasks w' !! g = Some (TListen s) ->
    yielded s =
      map (envelope_of (opts s))
        (filter (fun msg => accepted (opts s) msg = true) (consumed s)).
Proof.
  intros HI Hs.
  pose proof (inv_yielded w HI) as HY.
  pose proof (fun g s => consumer_assigned w g s HI) as HK.
  micro_cases Hs.
  all: intros ? ? ?; unfold_world; lookup_inv; simplify_eq; try done;
    try (by eapply HY).
  all: repeat match goal with
    | Hx : listen_body _ _ = _ |- _ =>
        rewrite listen_body_spec in Hx
    end; simplify_eq.
  all: try match goal with
    | Hx : tasks _ !! _ = Some (TListen _), Hy : consumer _ = None |- _ =>
        destruct (HK _ _ Hx) as [? ?]; congruence
    end.
  all: try match goal with
    | Hx : tasks _ !! _ = Some (TListen _) |- _ =>
        pose proof (HY _ _ Hx)
    end.
  all: simpl in *; rewrite ?filter_app, ?filter_cons, ?filter_nil, ?map_app;
    repeat case_decide; repeat case_match; simplify_eq; simpl;
    rewrite ?app_nil_r; try congruence.
Qed.

Lemma nacks_app h1 h2 : nacks (h1 ++ h2) = nacks h1 ++ nacks h2.
Proof. unfold nacks. apply omap_app. Qed.

Lemma micro_inv_nacked w m w' :
  Inv w -> micro w m = Some w' ->
  forall g s,
    tasks w' !! g = Some (TListen s) ->
    nacks (history g w') =
      map (fun msg => (msg, false, false))
        (filter (fun msg => accepted (opts s) msg <> true) (consumed s)).
Proof.
  intros HI Hs.
  pose proof (inv_log w HI) as HB.
  pose proof (inv_nacked w HI) as HN.
  pose proof (fun g s => consumer_assigned w g s HI) as HK.
  assert (forall t, length (tasks w) <= t -> actions_of t (log w) = [])
    as Hfresh by (intros; by eapply actions_of_fresh).
  micro_cases Hs.
  all: intros ? ? ?; unfold_world; lookup_inv; simplify_eq; try done;
    note_bounds.
  all: hist_norm; rewrite ?Hfresh in * by lia; try (by eapply HN).
  all: repeat match goal with
    | Hx : listen_body _ _ = _ |- _ =>
        rewrite listen_body_spec in Hx
    end; simplify_eq.
  all: try match goal with
    | Hx : tasks _ !! _ = Some (TListen _), Hy : consumer _ = None |- _ =>
        destruct (HK _ _ Hx) as [? ?]; congruence
    end.
  all: try match goal with
    | Hx : tasks _ !! _ = Some (TListen _) |- _ =>
        pose proof (HN _ _ Hx) as HNx; unfold history in HNx
    end.
  all: simpl in *;
    rewrite ?nacks_app, ?filter_app, ?filter_cons, ?filter_nil, ?map_app;
    repeat case_decide; repeat case_match; simplify_eq; simpl;
    rewrite ?app_nil_r; try congruence.
Qed.

End ListenBody.

Section Invariant.
Context `{Platform}.

Lemma Inv_micro w m w' : Inv w -> micro w m = Some w' -> Inv w'.
Proof.
  intros HI Hs. split.
  - by eapply micro_inv_log.
  - by eapply micro_inv_running.
  - by eapply micro_inv_inflight.
  - by eapply micro_inv_awaits.
  - by eapply micro_inv_connected.
  - by eapply micro_inv_consumer.
  - by eapply micro_inv_quiescent.
  - by eapply micro_inv_assigned.
  - by eapply micro_inv_main.
  - by eapply micro_inv_ready.
  - by eapply micro_inv_user.
  - by eapply micro_inv_login_history.
  - by eapply micro_inv_publish_history.
  - by eapply micro_inv_yielded.
  - by eapply micro_inv_nacked.
Qed.

Lemma Inv_step w ev w' : Inv w -> step w ev = Some w' -> Inv w'.
Proof.
  intros HI Hs. rewrite <- step_micros in Hs.
  eapply (micro_run_preserves Inv); [|exact HI|exact Hs].
  intros. by eapply Inv_micro.
Qed.

Lemma Inv_coniglio : Inv coniglio.
Proof.
  split; unfold coniglio; simpl.
  - intros t a Hin. apply list_elem_of_In in Hin. simpl in Hin.
    destruct Hin as [Hin|[Hin|Hin]]; [| |done]; inversion Hin; lia.
  - intros [|[|t]] sl pc Ht Hpc; simpl in *; by simplify_eq.
  - intros p Hp. simplify_eq. by exists 1%nat, LConnecting.
  - intros [|[|t]] k p Ht Ha; simpl in *; simplify_eq; simpl in *;
      simplify_eq. by exists 1%nat, LConnecting.
  - intros [|[|t]] sl c Ht; simpl in *; by simplify_eq.
  - intros [|[|t]] sl c Ht; simpl in *; by simplify_eq.
  - done.
  - intros [|[|t]] sl Ht; simpl in *; by simplify_eq.
  - by exists (MAwaitLogin 1).
  - done.
  - intros [|[|t]] k Ht Hu; simpl in *; by simplify_eq.
  - intros [|[|t]] sl pc Ht; simpl in *; simplify_eq.
    by exists [], [ACleanup].
  - intros [|[|t]] ex rk payload pc Ht; simpl in *; by simplify_eq.
  - intros [|[|t]] s Ht; simpl in *; by simplify_eq.
  - intros [|[|t]] s Ht; simpl in *; by simplify_eq.
Qed.

Lemma reachable_Inv w : reachable w -> Inv w.
Proof.
  apply reachable_ind; [apply Inv_coniglio|].
  intros w0 ev w1 _. apply Inv_step.
Qed.

End Invariant.

(** * The claims about the listen pipeline *)

Section ListenClaims.
Context `{Platform}.

Lemma yielded_envelope w g s m :
  reachable w -> tasks w !! g = Some (TListen s) -> m ∈ yielded s ->
  exists msg, msg ∈ consumed s /\ accepted (opts s) msg = true /\
              m = envelope_of (opts s) msg.
Proof.
  intros Hw Hg Hm. rewrite (inv_yielded w (reachable_Inv w Hw) g s Hg) in Hm.
  apply list_elem_of_fmap in Hm as (msg & -> & Hmsg).
  apply list_elem_of_filter in Hmsg as [Hacc Hin]. eauto.
Qed.

Lemma map_raw_envelope o (l : list ConsumeMessage.t) :
  map raw (map (envelope_of o) l) = l.
Proof. induction l as [|msg l IH]; simpl; [done|]. by rewrite IH. Qed.

(** C7. With [json] enabled (the default), every envelope [listen]
    yields keeps the raw body, and carries the parsed value with
    [contentIsJson = true] when the body parses, [undefined] with
    [contentIsJson = false] when [JSON.parse] throws; neither
    [safeJson] nor the loop body ever throws. *)
Theorem json_decoding (w : World) (g : TaskId) (s : Subscription)
    (m : Message) :
  reachable w -> tasks w !! g = Some (TListen s) ->
  opt_json (opts s) = true -> m ∈ yielded s ->
  content m = ConsumeMessage.content (raw m) /\
  match JSON_parse (Buffer_toString (content m)) with
  | Return v => data m = Defined v /\ contentIsJson m = true
  | Throw _ => data m = Undefined /\ contentIsJson m = false
  end /\
  (forall buf, exists v, safeJson buf = Return v) /\
  (forall o msg, exists v, listen_body o msg = Return v).
Proof.
  intros Hw Hg Hj Hm.
  destruct (yielded_envelope w g s m Hw Hg Hm) as (msg & _ & _ & ->).
  split; [reflexivity|]. split.
  - simpl. unfold parsed_of. rewrite Hj.
    by destruct (JSON_parse _).
  - split; [apply safeJson_returns|].
    intros o msg'. rewrite listen_body_spec. eauto.
Qed.

(** C9. With [json: false] every envelope [listen] yields has
    [contentIsJson = false] and an undefined payload, whatever the
    body is; [json] is off only when the option is literally
    [false]. *)
Theorem json_disabled (w : World) (g : TaskId) (s : Subscription)
    (m : Message) :
  reachable w -> tasks w !! g = Some (TListen s) ->
  opt_json (opts s) = false -> m ∈ yielded s ->
  data m = Undefined /\ contentIsJson m = false /\
  content m = ConsumeMessage.content (raw m) /\
  exists o, opts s = Some o /\ ListenOptions.json o = Some false.
Proof.
  intros Hw Hg Hj Hm.
  destruct (yielded_envelope w g s m Hw Hg Hm) as (msg & _ & _ & ->).
  simpl. unfold parsed_of. rewrite Hj. repeat split.
  unfold opt_json in Hj. destruct (opts s) as [o|]; [|done].
  exists o. split; [done|].
  by destruct (ListenOptions.json o) as [[]|].
Qed.

(** C6. With an allow-list, the deliveries [listen] takes from the
    consume sequence split in two: those whose routing key is in the
    list are yielded, in order; the others are nacked, one message at
    a time and without requeue, and never yielded.  One turn of the
    loop does exactly that with the delivery at the head of the
    buffer. *)
Theorem routing_key_filter (w : World) (g : TaskId) (s : Subscription)
    (keys : list string) :
  reachable w -> tasks w !! g = Some (TListen s) ->
  opt_routingKeys (opts s) = Some keys ->
  let allowed msg := includes keys (ConsumeMessage.fields_routingKey msg) in
  (forall m, m ∈ yielded s -> includes keys (routingKey m) = true) /\
  map raw (yielded s) = filter (fun msg => allowed msg = true) (consumed s) /\
  nacks (history g w) =
    map (fun msg => (msg, false, false))
      (filter (fun msg => allowed msg <> true) (consumed s)) /\
  (forall msg rest,
     pc s = GRunnable -> buffer s = msg :: rest ->
     exists k w' s',
       consumer w = Some k /\
       step w (Resume g) = Some w' /\
       tasks w' !! g = Some (TListen s') /\
       buffer s' = rest /\ consumed s' = consumed s ++ [msg] /\
       if allowed msg
       then yielded s' = yielded s ++ [envelope_of (opts s) msg] /\
            log w' = log w /\ pc s' = GAtYield
       else yielded s' = yielded s /\
            log w' = log w ++ [(g, ANack k msg false false)] /\
            pc s' = GRunnable).
Proof.
  intros Hw Hg Hk allowed.
  pose proof (reachable_Inv w Hw) as HI.
  assert (forall msg, accepted (opts s) msg = allowed msg) as Hacc
    by (intros msg; unfold accepted; by rewrite Hk).
  split; [|split; [|split]].
  - intros m Hm.
    destruct (yielded_envelope w g s m Hw Hg Hm) as (msg & _ & Ha & ->).
    rewrite Hacc in Ha. exact Ha.
  - rewrite (inv_yielded w HI g s Hg), map_raw_envelope.
    apply list_filter_iff. intros msg. by rewrite Hacc.
  - rewrite (inv_nacked w HI g s Hg). f_equal.
    apply list_filter_iff. intros msg. by rewrite Hacc.
  - intros msg rest Hpc Hbuf.
    destruct (consumer_assigned w g s HI Hg) as [k Hcons].
    assert (g < length (tasks w)) by (by eapply lookup_lt_Some).
    exists k. simpl. unfold step_resume, listen_turn.
    rewrite Hg, Hpc, Hbuf, listen_body_spec, Hcons, Hacc.
    destruct (allowed msg); eexists _, _;
      (split; [done|]); (split; [reflexivity|]);
      unfold set_task, emit; simpl;
      rewrite list_lookup_insert_eq by done; done.
Qed.

(** C10. A null message handed to the consumer callback changes
    nothing: nothing is buffered, nobody is woken, the generator stays
    where it was, and the message does not count as pushed. *)
Theorem null_delivery_ignored (w : World) (k : ChanId) (g : TaskId) :
  consumer_callback g None w = w /\
  step w (Deliver k g None) = (if consuming k g w then Some w else None) /\
  forall evs, pushed g (evs ++ [Deliver k g None]) = pushed g evs.
Proof.
  split; [reflexivity|]. split; [reflexivity|].
  intros evs. induction evs as [|ev evs IH]; [reflexivity|].
  simpl. destruct ev; try done.
  destruct msg; [|done]. destruct (g0 =? g)%nat; by rewrite ?IH.
Qed.

End ListenClaims.

(** * Sample runs of the listen pipeline *)

(** With the allow-list [['a']], the delivery with key ['a'] is yielded
    and the one with key ['b'] is nacked. *)
Lemma routing_key_filter_witness :
  reachable (H := Sample.platform) (Sample.after Scenario.filtered) /\
  map raw (yielded (Scenario.listener Scenario.filtered)) =
    [Sample.delivery "true" "a" 1] /\
  nacks (history 2 (Sample.after Scenario.filtered)) =
    [(Sample.delivery "true" "b" 2, false, false)].
Proof.
  assert (reachable (H := Sample.platform) (Sample.after Scenario.filtered))
    as Hw by (exists Scenario.filtered; vm_compute; reflexivity).
  destruct (routing_key_filter (H := Sample.platform)
              (Sample.after Scenario.filtered) 2
              (Scenario.listener Scenario.filtered) ["a"] Hw)
    as (_ & Hy & Hn & _);
    [vm_compute; reflexivity | vm_compute; reflexivity |].
  split; [exact Hw|]. split.
  - rewrite Hy. vm_compute. reflexivity.
  - rewrite Hn. vm_compute. reflexivity.
Defined.

(** The body [oops] is not JSON: its envelope has no payload. *)
Lemma json_decoding_witness :
  reachable (H := Sample.platform) (Sample.after Scenario.decoded) /\
  data (envelope_of (H := Sample.platform) None (Sample.delivery "oops" "a" 2))
    = Undefined /\
  contentIsJson
    (envelope_of (H := Sample.platform) None (Sample.delivery "oops" "a" 2))
    = false.
Proof.
  assert (reachable (H := Sample.platform) (Sample.after Scenario.decoded))
    as Hw by (exists Scenario.decoded; vm_compute; reflexivity).
  destruct (json_decoding (H := Sample.platform)
              (Sample.after Scenario.decoded) 2
              (Scenario.listener Scenario.decoded)
              (envelope_of (H := Sample.platform) None
                 (Sample.delivery "oops" "a" 2)) Hw)
    as (_ & Hd & _).
  - vm_compute. reflexivity.
  - vm_compute. reflexivity.
  - vm_compute. apply list_elem_of_further, list_elem_of_here.
  - split; [exact Hw|]. exact Hd.
Defined.

(** With [json: false] the body [true] is not decoded. *)
Lemma json_disabled_witness :
  reachable (H := Sample.platform) (Sample.after Scenario.undecoded) /\
  data (envelope_of (H := Sample.platform) Scenario.raw_only
          (Sample.delivery "true" "a" 1)) = Undefined /\
  contentIsJson (envelope_of (H := Sample.platform) Scenario.raw_only
                   (Sample.delivery "true" "a" 1)) = false.
Proof.
  assert (reachable (H := Sample.platform) (Sample.after Scenario.undecoded))
    as Hw by (exists Scenario.undecoded; vm_compute; reflexivity).
  destruct (json_disabled (H := Sample.platform)
              (Sample.after Scenario.undecoded) 2
              (Scenario.listener Scenario.undecoded)
              (envelope_of (H := Sample.platform) Scenario.raw_only
                 (Sample.delivery "true" "a" 1)) Hw)
    as (Hd & Hc & _).
  - vm_compute. reflexivity.
  - vm_compute. reflexivity.
  - vm_compute. apply list_elem_of_here.
  - split; [exact Hw|]. split; [exact Hd|exact Hc].
Defined.

(** * The claims about login *)

Section Counting.
Context `{Platform}.

Lemma count_logins_app l1 l2 :
  count_logins (l1 ++ l2) = count_logins l1 + count_logins l2.
Proof. unfold count_logins. by rewrite filter_app, length_app. Qed.

Lemma count_logins_cons k l :
  count_logins (k :: l) = (if is_login k then 1 else 0) + count_logins l.
Proof.
  unfold count_logins. rewrite filter_cons.
  destruct (is_login k); by case_decide.
Qed.

Lemma count_logins_insert l i k k' :
  l !! i = Some k -> is_login k' = is_login k ->
  count_logins (<[i := k']> l) = count_logins l.
Proof.
  intros Hi Hk.
  rewrite <- (take_drop_middle l i k Hi) at 2.
  rewrite insert_take_drop by (by eapply lookup_lt_Some).
  rewrite !count_logins_app, !count_logins_cons. by rewrite Hk.
Qed.

End Counting.

Section LoginClaims.
Context `{Platform}.

Lemma login_running_unique w t1 t2 :
  Inv w -> login_running t1 w -> login_running t2 w -> t1 = t2.
Proof.
  intros HI (sl1 & pc1 & H1 & Hpc1) (sl2 & pc2 & H2 & Hpc2).
  pose proof (inv_running w HI t1 sl1 pc1 H1 Hpc1).
  pose proof (inv_running w HI t2 sl2 pc2 H2 Hpc2).
  congruence.
Qed.

Lemma login_joined caller w p :
  loginInProgress w = Some p ->
  login caller w = (emit caller (ALogin p) w, p).
Proof. unfold login. by intros ->. Qed.

Lemma waiter_resumes w t k p :
  tasks w !! t = Some k -> awaits k = Some p ->
  step w (Resume t) = None <-> login_resolved p w = false.
Proof.
  intros Ht Ha. simpl. unfold step_resume. rewrite Ht.
  destruct k as [[]| |[]|? []|? ? ? []|]; simpl in Ha; simplify_eq;
    destruct (login_resolved p w); try done;
    try (by split; [intros ?; simplify_eq|done]).
  - destruct (startConsumer_call _ _ _); split; done.
Qed.

(** A call of [login] while none is in flight starts a login
    sequence, whose promise it returns. *)
Lemma login_fresh caller w :
  loginInProgress w = None ->
  snd (login caller w) = length (tasks w) /\
  tasks (fst (login caller w)) =
    tasks w ++ [TLogin (length (sleepers w)) LConnecting] /\
  loginInProgress (fst (login caller w)) = Some (length (tasks w)).
Proof.
  intros Hn. unfold login. rewrite Hn. cbv zeta.
  unfold login_attempt, fst, snd. unfold_world.
  split; [done|]. split; [|done].
  apply list_insert_id. by rewrite list_lookup_middle.
Qed.

Lemma step_close_handler_timer w h sl :
  tasks w !! h = Some (TCloseHandler (CSleeping sl)) ->
  step w (Timer h) =
    Some (set_task h
            (TCloseHandler (CAwaitLogin (snd (login h (sleeper_done sl w)))))
            (fst (login h (sleeper_done sl w)))).
Proof.
  intros Hh. change (step w (Timer h)) with (step_timer h w).
  unfold step_timer. rewrite Hh. by destruct (login h (sleeper_done sl w)).
Qed.

Lemma run_close_and_channel_error w c C sl k K evs :
  conns w !! c = Some C -> on_close C = [Reconnect sl] ->
  chans w !! k = Some K ->
  evs = [ConnClose c; ChanError k] \/ evs = [ChanError k; ConnClose c] ->
  run w evs =
    Some (set_chans (alter chan_removeAllListeners_error k (chans w))
            (run_close_listener
               (alter_conn conn_close c
                  (alter_conn conn_removeAllListeners_close c w))
               (Reconnect sl))).
Proof.
  intros Hc Hclose Hk Hevs.
  destruct Hevs as [-> | ->]; simpl; rewrite ?Hc, ?Hk; simpl;
    rewrite ?Hclose, ?Hc, ?Hk; simpl; rewrite ?Hclose, ?Hk; reflexivity.
Qed.

(** A ['close'] and a channel ['error'] in one turn, in either
    order: no login starts until the backoff of the ['close']
    listener is over, and then exactly one does. *)
Lemma close_and_channel_error w c C sl k K evs :
  conns w !! c = Some C -> on_close C = [Reconnect sl] ->
  chans w !! k = Some K -> loginInProgress w = None ->
  evs = [ConnClose c; ChanError k] \/ evs = [ChanError k; ConnClose c] ->
  let h := length (tasks w) in
  exists w' w'',
    run w evs = Some w' /\
    tasks w' = tasks w ++ [TCloseHandler (CSleeping sl)] /\
    logins_started w' = logins_started w /\
    loginInProgress w' = None /\
    step w' (Timer h) = Some w'' /\
    logins_started w'' = S (logins_started w) /\
    loginInProgress w'' = Some (S h) /\
    login_running (S h) w'' /\
    tasks w'' !! h = Some (TCloseHandler (CAwaitLogin (S h))).
Proof.
  intros Hc Hclose Hk Hnone Hevs h.
  pose proof (run_close_and_channel_error w c C sl k K evs Hc Hclose Hk Hevs)
    as Hrun.
  set (w' := set_chans _ _) in Hrun.
  assert (tasks w' = tasks w ++ [TCloseHandler (CSleeping sl)]) as Ht
    by reflexivity.
  assert (loginInProgress w' = None) as Hn by exact Hnone.
  assert (tasks w' !! h = Some (TCloseHandler (CSleeping sl))) as Hh
    by (rewrite Ht; by apply list_lookup_middle).
  destruct (login_fresh h (sleeper_done sl w')) as (Hp & Ht' & Hl');
    [exact Hn|].
  change (tasks (sleeper_done sl w')) with (tasks w') in Hp, Ht', Hl'.
  rewrite Ht in Hp, Ht', Hl'. rewrite length_app in Hp, Hl'.
  simpl in Hp, Hl'. fold h in Hp, Hl'.
  replace (h + 1) with (S h) in Hp, Hl' by lia.
  exists w', (set_task h
            (TCloseHandler (CAwaitLogin (snd (login h (sleeper_done sl w')))))
            (fst (login h (sleeper_done sl w')))).
  split; [exact Hrun|]. split; [exact Ht|].
  split; [unfold logins_started; rewrite Ht;
          by rewrite count_logins_app, Nat.add_0_r|].
  split; [exact Hn|].
  split; [by apply step_close_handler_timer|].
  rewrite Hp. unfold logins_started, login_running, set_task.
  cbn [tasks set_tasks loginInProgress]. rewrite Ht'.
  split.
  { erewrite (count_logins_insert _ h (TCloseHandler (CSleeping sl)));
      [| |done].
    - rewrite !count_logins_app. unfold count_logins at 2 3. simpl. lia.
    - rewrite lookup_app_l by (rewrite length_app; simpl; lia).
      by apply list_lookup_middle. }
  split; [exact Hl'|].
  split.
  - exists (length (sleepers (sleeper_done sl w'))), LConnecting.
    split; [|done].
    rewrite list_lookup_insert_ne by lia.
    apply list_lookup_middle. rewrite length_app. simpl. lia.
  - apply list_lookup_insert_eq. rewrite !length_app. simpl. lia.
Qed.

(** C1. [login] is coalesced.  A call made while a login is in
    flight returns the promise in flight and starts nothing; at most
    one login sequence runs at a time; whoever awaits a login is
    blocked exactly as long as that sequence has not returned; and
    when the connection emits ['close'] and a channel ['error'] in
    the same turn, in either order, one login sequence is started,
    by the ['close'] listener once its backoff is over. *)
Theorem login_coalesced (w : World) :
  reachable w ->
  (forall caller p, loginInProgress w = Some p ->
     login caller w = (emit caller (ALogin p) w, p) /\
     login_running p w /\
     logins_started (fst (login caller w)) = logins_started w) /\
  (forall t1 t2, login_running t1 w -> login_running t2 w -> t1 = t2) /\
  (forall t k p, tasks w !! t = Some k -> awaits k = Some p ->
     (login_running p w /\ loginInProgress w = Some p /\
      step w (Resume t) = None) \/
     (login_resolved p w = true /\ is_Some (step w (Resume t)))) /\
  (forall c C sl k K evs,
     conns w !! c = Some C -> on_close C = [Reconnect sl] ->
     chans w !! k = Some K -> loginInProgress w = None ->
     evs = [ConnClose c; ChanError k] \/ evs = [ChanError k; ConnClose c] ->
     let h := length (tasks w) in
     exists w' w'',
       run w evs = Some w' /\
       tasks w' = tasks w ++ [TCloseHandler (CSleeping sl)] /\
       logins_started w' = logins_started w /\
       loginInProgress w' = None /\
       step w' (Timer h) = Some w'' /\
       logins_started w'' = S (logins_started w) /\
       loginInProgress w'' = Some (S h) /\
       login_running (S h) w'' /\
       tasks w'' !! h = Some (TCloseHandler (CAwaitLogin (S h)))).
Proof.
  intros Hw. pose proof (reachable_Inv w Hw) as HI.
  split; [|split; [|split]].
  - intros caller p Hp. rewrite (login_joined caller w p Hp).
    split; [reflexivity|]. split; [by apply inv_inflight|reflexivity].
  - intros t1 t2. by apply login_running_unique.
  - intros t k p Ht Ha.
    destruct (inv_awaits w HI t k p Ht Ha) as (sl & pc & Hp).
    pose proof (waiter_resumes w t k p Ht Ha) as Hres.
    destruct (login_resolved p w) eqn:Hr.
    + right. split; [reflexivity|].
      destruct (step w (Resume t)) as [w'|]; [by eexists|].
      destruct Hres as [Hres _]. specialize (Hres eq_refl). congruence.
    + left.
      assert (pc <> LResolved) as Hpc.
      { intros ->. unfold login_resolved in Hr. by rewrite Hp in Hr. }
      split; [by exists sl, pc|].
      split; [by eapply inv_running|]. by apply Hres.
  - intros c C sl k K evs. apply close_and_channel_error.
Qed.

End LoginClaims.

(** The instance is connected (connection 0, channels 0 and 1), and
    connection 0 closes while channel 1 fails. *)
Lemma login_coalesced_witness :
  reachable (H := Sample.platform) (Sample.after Sample.connect_ok) /\
  exists w' w'',
    run (H := Sample.platform) (Sample.after Sample.connect_ok)
      [ConnClose 0; ChanError 1] = Some w' /\
    step (H := Sample.platform) w' (Timer 2) = Some w'' /\
    logins_started w' = 1 /\ logins_started w'' = 2 /\
    loginInProgress w'' = Some 3.
Proof.
  assert (reachable (H := Sample.platform) (Sample.after Sample.connect_ok))
    as Hw by (exists Sample.connect_ok; vm_compute; reflexivity).
  split; [exact Hw|].
  destruct (login_coalesced (H := Sample.platform) _ Hw) as (_ & _ & _ & Hd).
  destruct (Hd 0 {| on_error := [LogConnectionError];
                    on_close := [Reconnect 1]; conn_open := true |}
              1 1 {| ch_conn := 0; ch_on_error := 1; ch_open := true;
                     ch_consumers := [] |}
              [ConnClose 0; ChanError 1])
    as (w' & w'' & H1 & _ & H3 & _ & H5 & H6 & H7 & _);
    [reflexivity | reflexivity | reflexivity | reflexivity
    | left; reflexivity |].
  exists w', w''. repeat split; assumption.
Defined.

(** * The contract of login *)

Section LoginContract.
Context `{Platform}.

Lemma run_cons_Some w ev w' evs :
  step w ev = Some w' -> run w (ev :: evs) = run w' evs.
Proof. intros Hs. change (run w (ev :: evs)) with
    (match step w ev with Some w' => run w' evs | None => None end).
  by rewrite Hs. Qed.

Lemma step_login_settle w p sl pc ok :
  tasks w !! p = Some (TLogin sl pc) ->
  step w (Settle p ok) = login_settle p sl pc ok w.
Proof.
  intros Hp. change (step w (Settle p ok)) with (step_settle p ok w).
  unfold step_settle. by rewrite Hp.
Qed.





End LoginContract.


(** * The contract of publish *)

Section PublishContract.
Context `{Platform}.

Lemma publish_body_string s : publish_body (JString s) = Return s.
Proof. reflexivity. Qed.

Lemma publish_body_other payload :
  (forall s, payload <> JString s) ->
  publish_body payload = JSON_stringify payload.
Proof. intros Hs. destruct payload; try reflexivity. by destruct (Hs s). Qed.

Lemma publish_calls_app h1 h2 :
  publish_calls (h1 ++ h2) = publish_calls h1 + publish_calls h2.
Proof. unfold publish_calls. by rewrite filter_app, length_app. Qed.

Lemma failures_app h1 h2 : failures (h1 ++ h2) = failures h1 + failures h2.
Proof. unfold failures. by rewrite filter_app, length_app. Qed.

(** Every failed attempt entered the [catch] once, and called
    [channel.publish] once if the body could be made. *)
Lemma failed_attempts_count w ex rk payload attempts :
  Forall (publish_failed_attempt w ex rk payload) attempts ->
  failures (concat attempts) = length attempts /\
  (forall body, publish_body payload = Return body ->
     publish_calls (concat attempts) = length attempts).
Proof.
  induction 1 as [|a attempts (call & sl & p & Hc & -> & _) _ [IH1 IH2]];
    [done|].
  simpl. rewrite failures_app, publish_calls_app, IH1.
  unfold publish_call in Hc. split.
  - destruct (publish_body payload); [destruct Hc as (k & ->)|subst call];
      by simpl.
  - intros body Hb. rewrite (IH2 body Hb). rewrite Hb in Hc.
    by destruct Hc as (k & ->).
Qed.

(** A call of [login] by a task: the promise it returns is that of
    the login in flight, which it starts if there was none. *)
Lemma login_call caller w :
  caller < length (tasks w) ->
  loginInProgress (fst (login caller w)) = Some (snd (login caller w)) /\
  history caller (fst (login caller w)) =
    history caller w ++ [ALogin (snd (login caller w))] /\
  tasks (fst (login caller w)) !! caller = tasks w !! caller /\
  logins_started (fst (login caller w)) =
    match loginInProgress w with
    | Some _ => logins_started w
    | None => S (logins_started w)
    end.
Proof.
  intros Hc. unfold login, logins_started.
  destruct (loginInProgress w) as [p|] eqn:Hl; cbv zeta;
    unfold login_attempt, fst, snd; unfold_world.
  - split; [done|]. split; [by hist_norm|]. done.
  - split; [done|]. split; [by hist_norm|].
    split; [by lookup_goal|].
    rewrite list_insert_id by (by rewrite list_lookup_middle).
    rewrite count_logins_app. unfold count_logins at 2. simpl. lia.
Qed.

(** C3. The contract of [publish].  The body is the payload itself
    when it is a string and [JSON.stringify] of it otherwise.  The
    history of a call is a series of failed attempts, each one
    [channel.publish], the [catch], one sleep of the publish backoff
    and one call of [login] that has resolved, then the attempt in
    progress; so a call that resolved made one more [channel.publish]
    than it had failures, and ended with the confirmation.  The
    promise of a call resolves on the confirm callback reporting
    success and on nothing else; a failure sends the call to the
    publish backoff, whose timer makes it call [login], which joins
    the login in flight or starts one, and the next attempt starts
    once that login has resolved. *)
Theorem publish_contract (w : World) (t : TaskId) (ex rk : string)
    (payload : jvalue) (pc : PublishPc) :
  reachable w -> tasks w !! t = Some (TPublish ex rk payload pc) ->
  (forall s, payload = JString s -> publish_body payload = Return s) /\
  ((forall s, payload <> JString s) ->
     publish_body payload = JSON_stringify payload) /\
  publish_history w ex rk payload pc (history t w) /\
  (pc = PResolved ->
     publish_calls (history t w) = S (failures (history t w)) /\
     (failures (history t w) = 2 -> publish_calls (history t w) = 3) /\
     exists attempts k body,
       publish_body payload = Return body /\
       length attempts = failures (history t w) /\
       Forall (publish_failed_attempt w ex rk payload) attempts /\
       history t w =
         concat attempts ++
         [APublish k ex rk (Buffer_from body); APublishConfirmed]) /\
  (forall ok, is_Some (step w (Settle t ok)) <-> pc = PConfirming) /\
  (forall w', step w (Settle t true) = Some w' ->
     tasks w' !! t = Some (TPublish ex rk payload PResolved) /\
     history t w' = history t w ++ [APublishConfirmed]) /\
  (forall w', step w (Settle t false) = Some w' ->
     tasks w' !! t = Some (TPublish ex rk payload
                             (PBackoff (expSleeperPublisher w))) /\
     history t w' =
       history t w ++
       [ACaught; ASleep ExpSleeperPublisher (expSleeperPublisher w)]) /\
  (forall sl, pc = PBackoff sl ->
     exists w' p,
       step w (Timer t) = Some w' /\
       tasks w' !! t = Some (TPublish ex rk payload (PAwaitLogin p)) /\
       history t w' = history t w ++ [ALogin p] /\
       loginInProgress w' = Some p /\ login_running p w' /\
       logins_started w' =
         match loginInProgress w with
         | Some _ => logins_started w
         | None => S (logins_started w)
         end) /\
  (forall p, pc = PAwaitLogin p ->
     (is_Some (step w (Resume t)) <-> login_resolved p w = true) /\
     forall w', step w (Resume t) = Some w' ->
       exists pc', tasks w' !! t = Some (TPublish ex rk payload pc') /\
         match publish_body payload with
         | Return body =>
             pc' = PConfirming /\
             exists k, history t w' =
               history t w ++ [APublish k ex rk (Buffer_from body)]
         | Throw _ =>
             pc' = PBackoff (expSleeperPublisher w) /\
             history t w' =
               history t w ++
               [ACaught; ASleep ExpSleeperPublisher (expSleeperPublisher w)]
         end).
Proof.
  intros Hw Ht. pose proof (reachable_Inv w Hw) as HI.
  pose proof (lookup_lt_Some _ _ _ Ht) as Hlt.
  pose proof (inv_publish_history w HI t ex rk payload pc Ht) as Hh.
  split; [by intros s ->|].
  split; [apply publish_body_other|].
  split; [exact Hh|].
  split.
  { intros ->. destruct Hh as (attempts & cur & Hh & Ha & k & body & Hb & ->).
    destruct (failed_attempts_count w ex rk payload attempts Ha) as [Hf Hc].
    specialize (Hc body Hb).
    assert (failures (history t w) = length attempts) as Hfail.
    { rewrite Hh, failures_app, Hf. unfold failures. simpl. lia. }
    assert (publish_calls (history t w) = S (length attempts)) as Hcalls.
    { rewrite Hh, publish_calls_app, Hc. unfold publish_calls. simpl. lia. }
    split; [by rewrite Hcalls, Hfail|].
    split; [intros Hf2; rewrite Hcalls; rewrite Hf2 in Hfail; lia|].
    exists attempts, k, body. by rewrite Hfail. }
  split.
  { intros ok. change (step w (Settle t ok)) with (step_settle t ok w).
    unfold step_settle. rewrite Ht. split.
    - intros [w' Hs]. by destruct pc.
    - intros ->. destruct ok; by eexists. }
  split.
  { intros w' Hs. change (step w (Settle t true)) with (step_settle t true w)
      in Hs. unfold step_settle in Hs. rewrite Ht in Hs.
    destruct pc; try done. simplify_eq. unfold_world.
    split; [by lookup_goal|]. by hist_norm. }
  split.
  { intros w' Hs. change (step w (Settle t false))
      with (step_settle t false w) in Hs.
    unfold step_settle in Hs. rewrite Ht in Hs.
    destruct pc; try done. simplify_eq. unfold publish_catch. unfold_world.
    split; [by lookup_goal|]. hist_norm. by rewrite <- app_assoc. }
  split.
  { intros sl ->. change (step w (Timer t)) with (step_timer t w).
    unfold step_timer. rewrite Ht.
    destruct (login_call t (sleeper_done sl w) Hlt) as (Hl & Hhist & Hk & Hn).
    destruct (login t (sleeper_done sl w)) as [w1 p] eqn:Hlogin.
    simpl in Hl, Hhist, Hk, Hn. rewrite Ht in Hk.
    eexists _, p. split; [reflexivity|].
    assert (loginInProgress (set_task t (TPublish ex rk payload
              (PAwaitLogin p)) w1) = Some p) as Hl' by exact Hl.
    split; [apply list_lookup_insert_eq; by eapply lookup_lt_Some|].
    split; [exact Hhist|]. split; [exact Hl'|].
    split; [|unfold logins_started, set_task; cbn [tasks set_tasks];
             by erewrite count_logins_insert].
    apply inv_inflight; [|exact Hl'].
    apply (Inv_step w (Timer t)); [exact HI|].
    change (step w (Timer t)) with (step_timer t w).
    unfold step_timer. by rewrite Ht, Hlogin. }
  intros p ->. change (step w (Resume t)) with (step_resume t w).
  unfold step_resume. rewrite Ht.
  destruct (publisher_assigned w t _ _ _ _ HI Ht) as [k Hk].
  split.
  { destruct (login_resolved p w); [|by split; [intros []|]].
    split; [done|]. by eexists. }
  intros w' Hs. destruct (login_resolved p w); [|done]. simplify_eq.
  unfold publish_attempt, publish_catch. rewrite Hk.
  destruct (publish_body payload) as [body|e]; eexists; unfold_world;
    (split; [by lookup_goal|]); (split; [done|]).
  - exists k. by hist_norm.
  - hist_norm. by rewrite <- app_assoc.
Qed.

End PublishContract.

(** [publish('ex', 'rk', null)] whose confirm fails twice and then
    succeeds made three [channel.publish] calls. *)
Lemma publish_contract_witness :
  reachable (H := Sample.platform) (Sample.after Scenario.publish_retried) /\
  tasks (Sample.after Scenario.publish_retried) !! 2 =
    Some (TPublish "ex" "rk" JNull PResolved) /\
  failures (history 2 (Sample.after Scenario.publish_retried)) = 2 /\
  publish_calls (history 2 (Sample.after Scenario.publish_retried)) = 3.
Proof.
  assert (reachable (H := Sample.platform)
            (Sample.after Scenario.publish_retried)) as Hw
    by (exists Scenario.publish_retried; vm_compute; reflexivity).
  assert (tasks (Sample.after Scenario.publish_retried) !! 2 =
            Some (TPublish "ex" "rk" JNull PResolved)) as Ht
    by (vm_compute; reflexivity).
  destruct (publish_contract (H := Sample.platform) _ 2 "ex" "rk" JNull
              PResolved Hw Ht) as (_ & _ & _ & Hres & _).
  destruct (Hres eq_refl) as (_ & H3 & _).
  assert (failures (history 2 (Sample.after Scenario.publish_retried)) = 2)
    as Hf by (vm_compute; reflexivity).
  split; [exact Hw|]. split; [exact Ht|]. split; [exact Hf|].
  exact (H3 Hf).
Defined.

(** * The consume sequence *)

Section Consumers.
Context `{Platform}.

Lemma consumers_in_app l1 l2 :
  consumers_in (l1 ++ l2) = consumers_in l1 ++ consumers_in l2.
Proof. unfold consumers_in. by rewrite map_app, concat_app. Qed.

Lemma consumers_in_cons K l :
  consumers_in (K :: l) = map snd (ch_consumers K) ++ consumers_in l.
Proof. reflexivity. Qed.

Lemma consumers_in_singleton K :
  consumers_in [K] = map snd (ch_consumers K).
Proof. unfold consumers_in. simpl. by rewrite app_nil_r. Qed.

Lemma consumers_in_alter f k l :
  (forall K, ch_consumers (f K) = ch_consumers K) ->
  consumers_in (alter f k l) = consumers_in l.
Proof.
  intros Hf. revert k. induction l as [|K l IH]; intros [|k]; try done.
  - change (alter f 0 (K :: l)) with (f K :: l).
    by rewrite !consumers_in_cons, Hf.
  - change (alter f (S k) (K :: l)) with (K :: alter f k l).
    by rewrite !consumers_in_cons, IH.
Qed.

Lemma consumers_in_consume q g k l g' :
  g' ∈ consumers_in (alter (chan_consume q g) k l) <->
  g' ∈ consumers_in l \/ (g' = g /\ k < length l).
Proof.
  revert k. induction l as [|K l IH]; intros [|k].
  - split; [intros ?; by left|]. intros [?|[_ ?]]; [done|simpl in *; lia].
  - split; [intros ?; by left|]. intros [?|[_ ?]]; [done|simpl in *; lia].
  - change (alter (chan_consume q g) 0 (K :: l))
      with (chan_consume q g K :: l).
    rewrite !consumers_in_cons. simpl. rewrite map_app. simpl.
    rewrite !elem_of_app, list_elem_of_singleton.
    split; [|naive_solver]. intros [[?|?]|?]; auto. right. split; [done|lia].
  - change (alter (chan_consume q g) (S k) (K :: l))
      with (K :: alter (chan_consume q g) k l).
    rewrite !consumers_in_cons, !elem_of_app, IH. simpl.
    split; [|naive_solver lia]. intros [?|[?|[? ?]]]; auto.
    right. split; [done|lia].
Qed.

Lemma consumers_in_cleanup w :
  consumers_in (chans (cleanup w)) = consumers_in (chans w).
Proof.
  unfold cleanup. destruct (conn w); [|done]. cbv zeta.
  unfold alter_chan, alter_conn.
  destruct (consumer w), (publisher w); simpl;
    by rewrite ?consumers_in_alter.
Qed.

Lemma consuming_registered k g w :
  consuming k g w = true -> registered g w.
Proof.
  unfold consuming, registered. intros Hc.
  destruct (chans w !! k) as [K|] eqn:HK; [|done].
  apply andb_true_iff in Hc as [_ Hc].
  apply existsb_exists in Hc as ([q g'] & Hin & Heq).
  apply Nat.eqb_eq in Heq. simpl in Heq. subst g'.
  rewrite <- (take_drop_middle _ _ _ HK), consumers_in_app.
  apply elem_of_app. right. unfold consumers_in. simpl.
  apply elem_of_app. left. apply list_elem_of_fmap. exists (q, g).
  split; [done|]. by apply list_elem_of_In.
Qed.

Lemma pushed_app g evs1 evs2 :
  pushed g (evs1 ++ evs2) = pushed g evs1 ++ pushed g evs2.
Proof.
  induction evs1 as [|ev evs1 IH]; [done|].
  destruct ev as [| | | | | |k g' [m|]| | |]; simpl; try done.
  destruct (g' =? g); simpl; by rewrite IH.
Qed.

Lemma pushed_pulls g g' evs : pulls_of g' evs -> pushed g evs = [].
Proof. induction 1 as [|ev evs [-> | ->] _ IH]; done. Qed.

End Consumers.

(** Case analysis on a step that is not a connection failure. *)
Ltac step_cases Hs :=
  match type of Hs with
  | step _ ?ev = Some _ =>
      destruct ev as [| | | | | | ? ? []| | |]; try discriminate;
      simpl in Hs; unfold_ops; case_matches Hs; simplify_eq
  end.

Section FifoInvariant.
Context `{Platform}.

Lemma Fifo_no_resubscribe evs w ev w' :
  Fifo evs w -> is_connection_failure ev = false ->
  step w ev = Some w' ->
  forall t g v, tasks w' !! t <> Some (TResubscribe g v).
Proof.
  intros [F1 _ _ _] Hq Hs.
  step_cases Hs.
  all: intros ? ? ? Hx; unfold_world; lookup_inv; simplify_eq;
    try (by eapply F1).
Qed.

Lemma Fifo_registered evs w ev w' :
  Inv w -> Fifo evs w -> is_connection_failure ev = false ->
  step w ev = Some w' ->
  forall g, registered g w' ->
    exists s, tasks w' !! g = Some (TListen s) /\ started (pc s) = true.
Proof.
  intros HI [F1 F2 _ _] Hq Hs.
  pose proof (fun g s => consumer_assigned w g s HI) as HK.
  unfold registered in *.
  step_cases Hs.
  all: intros gx Hx; unfold_world;
    rewrite ?consumers_in_cleanup, ?consumers_in_app,
      ?consumers_in_consume in Hx;
    rewrite ?consumers_in_alter in Hx by done;
    rewrite ?consumers_in_singleton in Hx; simpl in Hx;
    rewrite ?app_nil_r in Hx.
  all: try (destruct Hx as [Hx | [-> ?]]).
  all: try (destruct (F2 _ Hx) as (s0 & Hs0 & Hst0)).
  all: try (by (exfalso; eapply F1; eauto)).
  all: repeat match goal with
    | Hx : listen_body _ _ = _ |- _ =>
        rewrite listen_body_spec in Hx
    end; simplify_eq.
  all: try match goal with
    | Hx : tasks _ !! _ = Some (TListen _), Hy : consumer _ = None |- _ =>
        destruct (HK _ _ Hx) as [? ?]; congruence
    end.
  all: try (by (eexists; split; [lookup_goal; fin|fin])).
  all: try match goal with
    | |- exists _, alter _ ?t _ !! ?g = _ /\ _ =>
        destruct (decide (t = g)) as [->|]
    | |- exists _, <[?t := _]> _ !! ?g = _ /\ _ =>
        destruct (decide (t = g)) as [->|]
    end; simplify_eq.
  all: repeat match goal with
    | Hp : pc ?s = _, Hst : context [pc ?s] |- _ => rewrite Hp in Hst
    end; simpl in *; try done.
  all: try (by (eexists; split; [lookup_goal; fin|fin])).
  eexists. split; [lookup_goal; fin|]. simpl. by destruct (pc s0).
Qed.

Lemma Fifo_fresh evs w ev w' :
  Fifo evs w -> is_connection_failure ev = false ->
  step w ev = Some w' ->
  forall g, length (tasks w') <= g -> pushed g (evs ++ [ev]) = [].
Proof.
  intros [_ F2 _ F4] Hq Hs g Hg. rewrite pushed_app.
  assert (length (tasks w) <= length (tasks w')) as Hlen.
  { clear F2 F4 Hg. step_cases Hs; unfold_world; len. }
  rewrite F4 by lia.
  destruct ev as [| | | | | |k g' [m|]| | |]; try done.
  simpl in *. destruct (consuming k g' w) eqn:Hc; [|done].
  destruct (F2 g' (consuming_registered _ _ _ Hc)) as (s & Hs' & _).
  apply lookup_lt_Some in Hs'.
  destruct (Nat.eqb_spec g' g); [lia|done].
Qed.

Lemma Fifo_buffer evs w ev w' :
  Inv w -> Fifo evs w -> is_connection_failure ev = false ->
  step w ev = Some w' ->
  forall g s,
    tasks w' !! g = Some (TListen s) ->
    consumed s ++ buffer s = pushed g (evs ++ [ev]) /\
    (pc s = GAwaitReady -> buffer s = []) /\
    (started (pc s) = false -> pushed g (evs ++ [ev]) = []).
Proof.
  intros HI [F1 F2 F3 F4] Hq Hs.
  pose proof (fun g s => consumer_assigned w g s HI) as HK.
  assert (forall k g, consuming k g w = true ->
            exists s, tasks w !! g = Some (TListen s) /\
                      started (pc s) = true) as HC
    by (intros k g Hc; apply F2; by eapply consuming_registered).
  step_cases Hs.
  all: intros gx sx Hx; rewrite pushed_app; simpl; rewrite ?app_nil_r.
  all: unfold_world; lookup_inv; simplify_eq.
  all: try (by eapply F3).
  all: try (by (exfalso; eapply F1; eauto)).
  all: repeat match goal with
    | Hx : listen_body _ _ = _ |- _ =>
        rewrite listen_body_spec in Hx
    end; simplify_eq.
  all: try match goal with
    | Hx : tasks _ !! _ = Some (TListen _), Hy : consumer _ = None |- _ =>
        destruct (HK _ _ Hx) as [? ?]; congruence
    end.
  all: try match goal with
    | Hc : consuming _ _ _ = true |- _ =>
        destruct (HC _ _ Hc) as (? & ? & ?)
    end; simplify_eq.
  all: try match goal with
    | Hx : tasks _ !! _ = Some (TListen ?s) |- _ =>
        destruct (F3 _ _ Hx) as (Ha & Hb & Hc)
    end.
  all: repeat match goal with
    | Hp : pc ?s = _ |- _ => rewrite Hp in *
    end; simpl in *.
  all: try match goal with
    | Hb : buffer ?s = _ |- _ => rewrite Hb in *
    end.
  all: rewrite <- ?app_assoc; simpl.
  all: try (by (split_and!; [congruence|done..])).
  all: try (by (split_and!; [congruence|auto..])).
  - specialize (Hc eq_refl). rewrite Hc in *.
    apply app_eq_nil in Ha as [-> _]. by split_and!.
  - destruct (Nat.eqb_spec g gx); [done|]. rewrite app_nil_r.
    by eapply F3.
  - rewrite Nat.eqb_refl, app_assoc, Ha. split; [done|].
    match goal with Hst : started (pc s) = true |- _ => revert Hst end.
    destruct (pc s); simpl; done.
  - rewrite F4 by done. by split_and!.
Qed.

Lemma Fifo_step evs w ev w' :
  Inv w -> Fifo evs w -> is_connection_failure ev = false ->
  step w ev = Some w' -> Fifo (evs ++ [ev]) w'.
Proof.
  intros HI HF Hq Hs. split.
  - by eapply Fifo_no_resubscribe.
  - by eapply Fifo_registered.
  - by eapply Fifo_buffer.
  - by eapply Fifo_fresh.
Qed.

Lemma Fifo_coniglio : Fifo [] coniglio.
Proof.
  split.
  - intros [|[|t]] g v; done.
  - intros g Hg. by apply elem_of_nil in Hg.
  - intros [|[|g]] s; done.
  - done.
Qed.

Lemma Fifo_run evs w :
  run coniglio evs = Some w -> quiet evs -> Fifo evs w.
Proof.
  revert evs w.
  apply (run_ind (fun evs w => quiet evs -> Fifo evs w)).
  - intros _. apply Fifo_coniglio.
  - intros evs w ev w' Hr IH Hs Hq.
    apply Forall_app in Hq as [Hq Hev].
    apply Forall_inv in Hev.
    apply (Fifo_step evs w ev w');
      [apply reachable_Inv; by exists evs|by apply IH|exact Hev|exact Hs].
Qed.

(** One turn of a runnable generator whose buffer is not empty hands
    the head of the buffer over. *)
Lemma listen_turn_shift w g s m rest :
  Inv w -> tasks w !! g = Some (TListen s) -> pc s = GRunnable ->
  buffer s = m :: rest ->
  exists w' s',
    step w (Resume g) = Some w' /\
    tasks w' !! g = Some (TListen s') /\
    buffer s' = rest /\ consumed s' = consumed s ++ [m] /\
    (pc s' = GRunnable \/ pc s' = GAtYield).
Proof.
  intros HI Hg Hpc Hb.
  change (step w (Resume g)) with (step_resume g w).
  unfold step_resume. rewrite Hg, Hpc. unfold listen_turn. rewrite Hb.
  rewrite listen_body_spec.
  destruct (consumer_assigned w g s HI Hg) as [k ->].
  pose proof (lookup_lt_Some _ _ _ Hg) as Hlt.
  destruct (accepted (opts s) m); eexists _, _;
    (split; [reflexivity|]); unfold_world;
    (split; [by apply list_lookup_insert_eq|]); simpl; auto.
Qed.

(** [next()] on a generator suspended at its [yield] makes it
    runnable again. *)
Lemma pull_at_yield w g s :
  tasks w !! g = Some (TListen s) -> pc s = GAtYield ->
  step w (Pull g) = Some (alter_sub (sub_set_pc GRunnable) g w) /\
  tasks (alter_sub (sub_set_pc GRunnable) g w) !! g =
    Some (TListen (sub_set_pc GRunnable s)).
Proof.
  intros Hg Hpc. change (step w (Pull g)) with (step_pull g w).
  unfold step_pull. rewrite Hg, Hpc. split; [done|].
  unfold alter_sub. cbn [tasks set_tasks].
  by rewrite list_lookup_alter_eq, Hg.
Qed.

(** A consumer that keeps calling [next()] empties the buffer, in
    order. *)
Lemma drain n : forall w g s,
  Inv w -> tasks w !! g = Some (TListen s) -> started (pc s) = true ->
  (pc s = GAwaitReady -> buffer s = []) -> length (buffer s) = n ->
  exists pulls w' s',
    pulls_of g pulls /\ run w pulls = Some w' /\
    tasks w' !! g = Some (TListen s') /\
    buffer s' = [] /\ consumed s' = consumed s ++ buffer s.
Proof.
  induction n as [|n IH]; intros w g s HI Hg Hst Hready Hn.
  { apply nil_length_inv in Hn. exists [], w, s.
    rewrite Hn, app_nil_r. by split_and!; try constructor. }
  destruct (buffer s) as [|m rest] eqn:Hb; [done|].
  simpl in Hn. assert (length rest = n) as Hrest by lia.
  assert (forall w1 s1,
    Inv w1 -> tasks w1 !! g = Some (TListen s1) -> pc s1 = GRunnable ->
    buffer s1 = m :: rest -> consumed s1 = consumed s ->
    exists pulls w' s',
      pulls_of g pulls /\ run w1 pulls = Some w' /\
      tasks w' !! g = Some (TListen s') /\
      buffer s' = [] /\ consumed s' = consumed s ++ m :: rest) as Hrun.
  { intros w1 s1 HI1 Hg1 Hpc1 Hb1 Hc1.
    destruct (listen_turn_shift w1 g s1 m rest HI1 Hg1 Hpc1 Hb1)
      as (w2 & s2 & Hs2 & Hg2 & Hb2 & Hc2 & Hpc2).
    destruct (IH w2 g s2) as (pulls & w' & s' & Hp & Hr & Hg' & Hb' & Hc');
      [by eapply Inv_step|done|by destruct Hpc2 as [-> | ->]
      |by destruct Hpc2 as [-> | ->]|by rewrite Hb2|].
    exists (Resume g :: pulls), w', s'.
    split; [constructor; [by left|done]|].
    split; [by rewrite (run_cons_Some _ _ _ _ Hs2)|].
    split; [done|]. split; [done|].
    rewrite Hc', Hc2, Hb2, Hc1. by rewrite <- app_assoc. }
  destruct (pc s) eqn:Hpc; try done.
  - exact (Hrun w s HI Hg Hpc Hb eq_refl).
  - by specialize (Hready eq_refl).
  - destruct (pull_at_yield w g s Hg Hpc) as [Hs1 Hg1].
    destruct (Hrun _ _ (Inv_step _ _ _ HI Hs1) Hg1 eq_refl Hb eq_refl)
      as (pulls & w' & s' & Hp & Hr & Hg' & Hb' & Hc').
    exists (Pull g :: pulls), w', s'.
    split; [constructor; [by right|done]|].
    split; [by rewrite (run_cons_Some _ _ _ _ Hs1)|]. done.
Qed.

(** C4. In a run in which no connection fails, what a consume
    sequence has handed over followed by what it still buffers is
    the sequence of the deliveries pushed to it, in push order: a
    push appends one delivery to the buffer, a turn of the generator
    takes one from its head, and a consumer that keeps calling
    [next()] gets all of them, as many as were pushed and in that
    order. *)
Theorem consume_fifo (evs : list Event) (w : World) (g : TaskId)
    (s : Subscription) :
  run coniglio evs = Some w -> quiet evs ->
  tasks w !! g = Some (TListen s) ->
  consumed s ++ buffer s = pushed g evs /\
  (forall k m w', step w (Deliver k g (Some m)) = Some w' ->
     exists s', tasks w' !! g = Some (TListen s') /\
                buffer s' = buffer s ++ [m] /\ consumed s' = consumed s) /\
  (forall m rest, pc s = GRunnable -> buffer s = m :: rest ->
     exists w' s',
       step w (Resume g) = Some w' /\ tasks w' !! g = Some (TListen s') /\
       buffer s' = rest /\ consumed s' = consumed s ++ [m]) /\
  exists pulls w' s',
    pulls_of g pulls /\ run w pulls = Some w' /\
    tasks w' !! g = Some (TListen s') /\
    buffer s' = [] /\ consumed s' = pushed g evs /\
    length (consumed s') = length (pushed g evs) /\
    pushed g (evs ++ pulls) = pushed g evs.
Proof.
  intros Hr Hq Hg.
  assert (Inv w) as HI by (apply reachable_Inv; by exists evs).
  destruct (Fifo_run evs w Hr Hq) as [_ _ F3 _].
  destruct (F3 g s Hg) as (Hfifo & Hready & Hidle).
  split; [exact Hfifo|]. split.
  { intros k m w' Hs. simpl in Hs.
    destruct (consuming k g w); [|done]. simplify_eq.
    eexists. unfold alter_sub. cbn [tasks set_tasks].
    rewrite list_lookup_alter_eq, Hg. simpl. by split_and!. }
  split.
  { intros m rest Hpc Hb.
    destruct (listen_turn_shift w g s m rest HI Hg Hpc Hb)
      as (w' & s' & ? & ? & ? & ? & _).
    by exists w', s'. }
  destruct (started (pc s)) eqn:Hst.
  - destruct (drain (length (buffer s)) w g s HI Hg Hst Hready eq_refl)
      as (pulls & w' & s' & Hp & Hrun & Hg' & Hb' & Hc').
    exists pulls, w', s'. rewrite Hc', Hfifo, pushed_app.
    rewrite (pushed_pulls g g pulls Hp), app_nil_r. by split_and!.
  - specialize (Hidle eq_refl). rewrite Hidle in Hfifo.
    apply app_eq_nil in Hfifo as [Hc Hb].
    exists [], w, s. rewrite app_nil_r, Hidle, Hc.
    by split_and!; try constructor.
Qed.

End FifoInvariant.

(** Three deliveries pushed to [listen('q')]: the consumer gets the
    three of them, in push order. *)
Lemma consume_fifo_witness :
  run (H := Sample.platform) coniglio Scenario.three_deliveries =
    Some (Sample.after Scenario.three_deliveries) /\
  quiet Scenario.three_deliveries /\
  exists pulls w' s',
    pulls_of 2 pulls /\
    run (H := Sample.platform) (Sample.after Scenario.three_deliveries) pulls
      = Some w' /\
    tasks w' !! 2 = Some (TListen s') /\
    buffer s' = [] /\
    consumed s' = [Sample.delivery "1" "a" 1; Sample.delivery "2" "b" 2;
                   Sample.delivery "3" "a" 3].
Proof.
  assert (run (H := Sample.platform) coniglio Scenario.three_deliveries =
            Some (Sample.after Scenario.three_deliveries)) as Hr
    by (vm_compute; reflexivity).
  assert (quiet Scenario.three_deliveries) as Hq
    by (repeat constructor).
  destruct (consume_fifo (H := Sample.platform) Scenario.three_deliveries
              (Sample.after Scenario.three_deliveries) 2
              {| queue := "q"; opts := None;
                 buffer := [Sample.delivery "1" "a" 1;
                            Sample.delivery "2" "b" 2;
                            Sample.delivery "3" "a" 3];
                 pc := GRunnable; consumed := []; yielded := [] |} Hr Hq)
    as (_ & _ & _ & pulls & w' & s' & Hp & Hrun & Hg' & Hb & Hc & _).
  - vm_compute. reflexivity.
  - split; [exact Hr|]. split; [exact Hq|].
    exists pulls, w', s'. split; [exact Hp|]. split; [exact Hrun|].
    split; [exact Hg'|]. split; [exact Hb|]. exact Hc.
Defined.

(** * Recovery of the consume sequence *)

(** C5. A connection that closes under a live consume sequence without
    emitting ['error'] first.  The module logs in again and the new
    consumer channel (2) is there, but [startConsumer] is not run
    again: neither [prefetch] nor [consume] is called on channel 2,
    no delivery can reach the generator, which waits at
    [await ready()], and no timer or promise is pending that could
    change that.  When the connection emits ['error'] instead, the
    listener of [startConsumer] does run the setup on channel 2 and
    deliveries reach the generator again. *)
Theorem close_skips_resubscription :
  let w := Sample.after Scenario.closed_under_consumer in
  let w_error := Sample.after Scenario.failed_under_consumer in
  run (H := Sample.platform) coniglio Scenario.closed_under_consumer = Some w /\
  loginInProgress w = None /\ conn w = Some 1 /\ consumer w = Some 2 /\
  initialized w /\
  subscription 2 w =
    Some {| queue := "q"; opts := None; buffer := []; pc := GAwaitReady;
            consumed := []; yielded := [] |} /\
  setup_on 2 w = [] /\
  (forall k, consuming k 2 w = false) /\
  (forall k m, step (H := Sample.platform) w (Deliver k 2 m) = None) /\
  (forall t ok, step (H := Sample.platform) w (Settle t ok) = None) /\
  (forall t, step (H := Sample.platform) w (Timer t) = None) /\
  (forall t, step (H := Sample.platform) w (Resume t) = None) /\
  (forall g, step (H := Sample.platform) w (Pull g) = None) /\
  run (H := Sample.platform) coniglio Scenario.failed_under_consumer
    = Some w_error /\
  consumer w_error = Some 2 /\
  setup_on 2 w_error = [(3, APrefetch 2 10); (3, AConsume 2 "q")] /\
  consuming 2 2 w_error = true /\
  (forall m, is_Some (step (H := Sample.platform) w_error (Deliver 2 2 m))).
Proof.
  intros w w_error.
  assert (forall k, consuming k 2 w = false) as Hk
    by (intros [|[|[|[|k]]]]; vm_compute; reflexivity).
  split; [vm_compute; reflexivity|].
  split; [vm_compute; reflexivity|]. split; [vm_compute; reflexivity|].
  split; [vm_compute; reflexivity|].
  split.
  { exists 1, 2, 3. unfold chan_on.
    repeat split; try (vm_compute; reflexivity);
      eexists; split; vm_compute; reflexivity. }
  split; [vm_compute; reflexivity|]. split; [vm_compute; reflexivity|].
  split; [exact Hk|].
  split.
  { intros k m.
    change (step w (Deliver k 2 m))
      with (if consuming k 2 w then Some (consumer_callback 2 m w) else None).
    by rewrite Hk. }
  split; [intros [|[|[|[|[|t]]]]] ok; vm_compute; reflexivity|].
  split; [intros [|[|[|[|[|t]]]]]; vm_compute; reflexivity|].
  split; [intros [|[|[|[|[|t]]]]]; vm_compute; reflexivity|].
  split; [intros [|[|[|[|[|t]]]]]; vm_compute; reflexivity|].
  split; [vm_compute; reflexivity|].
  split; [vm_compute; reflexivity|]. split; [vm_compute; reflexivity|].
  split; [vm_compute; reflexivity|].
  intros m.
  change (step w_error (Deliver 2 2 m))
    with (if consuming 2 2 w_error
          then Some (consumer_callback 2 m w_error) else None).
  replace (consuming 2 2 w_error) with true by (vm_compute; reflexivity).
  by eexists.
Qed.

(** * What listen does with the deliveries it takes *)

Section ListenAccounting.
Context `{Platform}.

(** X1. [listen] accounts for every delivery it takes from the
    consume sequence: each one is either yielded as an envelope or
    nacked, never both and never neither. *)
Theorem listen_conserves (w : World) (g : TaskId) (s : Subscription) :
  reachable w -> tasks w !! g = Some (TListen s) ->
  length (yielded s) + length (nacks (history g w)) = length (consumed s) /\
  (forall m msg allUpTo requeue,
     m ∈ yielded s -> (msg, allUpTo, requeue) ∈ nacks (history g w) ->
     raw m <> msg) /\
  (forall msg, msg ∈ consumed s ->
     (exists m, m ∈ yielded s /\ raw m = msg) \/
     (msg, false, false) ∈ nacks (history g w)).
Proof.
  intros Hw Hg. pose proof (reachable_Inv w Hw) as HI.
  pose proof (inv_yielded w HI g s Hg) as Hy.
  pose proof (inv_nacked w HI g s Hg) as Hn.
  split; [|split].
  - rewrite Hy, Hn, !length_map, <- length_app.
    apply Permutation_length, filter_app_complement.
  - intros m msg a r Hm Hmsg Heq. rewrite Hy in Hm. rewrite Hn in Hmsg.
    apply list_elem_of_fmap in Hm as (msg1 & -> & Hm).
    apply list_elem_of_fmap in Hmsg as (msg2 & Heq2 & Hmsg).
    apply list_elem_of_filter in Hm as [Hacc _].
    apply list_elem_of_filter in Hmsg as [Hrej _].
    simpl in Heq. by simplify_eq.
  - intros msg Hin. rewrite Hy, Hn.
    destruct (accepted (opts s) msg) eqn:Hacc.
    + left. exists (envelope_of (opts s) msg). split; [|done].
      apply list_elem_of_fmap. exists msg. split; [done|].
      by apply list_elem_of_filter.
    + right. apply list_elem_of_fmap. exists msg. split; [done|].
      apply list_elem_of_filter. split; [congruence|done].
Qed.

(** X2. Without a [routingKeys] allow-list [listen] never nacks: it
    yields an envelope for every delivery it takes, in order. *)
Theorem listen_without_allow_list (w : World) (g : TaskId)
    (s : Subscription) :
  reachable w -> tasks w !! g = Some (TListen s) ->
  opt_routingKeys (opts s) = None ->
  nacks (history g w) = [] /\
  map raw (yielded s) = consumed s /\
  yielded s = map (envelope_of (opts s)) (consumed s).
Proof.
  intros Hw Hg Hk. pose proof (reachable_Inv w Hw) as HI.
  assert (forall msg, accepted (opts s) msg = true) as Hacc
    by (intros msg; unfold accepted; by rewrite Hk).
  assert (filter (fun msg => accepted (opts s) msg = true) (consumed s)
          = consumed s) as Hall.
  { induction (consumed s) as [|msg l IH]; [done|].
    rewrite filter_cons_True by apply Hacc. by rewrite IH. }
  assert (filter (fun msg => accepted (opts s) msg <> true) (consumed s)
          = []) as Hnone.
  { clear Hall. induction (consumed s) as [|msg l IH]; [done|].
    rewrite filter_cons_False by (rewrite Hacc; auto). exact IH. }
  rewrite (inv_nacked w HI g s Hg), (inv_yielded w HI g s Hg), Hall, Hnone.
  split; [done|]. split; [apply map_raw_envelope|done].
Qed.

End ListenAccounting.

(** The run of [Scenario.filtered]: two deliveries taken, one yielded
    and one nacked. *)
Lemma listen_conserves_witness :
  reachable (H := Sample.platform) (Sample.after Scenario.filtered) /\
  length (yielded (Scenario.listener Scenario.filtered)) +
  length (nacks (history 2 (Sample.after Scenario.filtered))) = 2.
Proof.
  assert (reachable (H := Sample.platform) (Sample.after Scenario.filtered))
    as Hw by (exists Scenario.filtered; vm_compute; reflexivity).
  destruct (listen_conserves (H := Sample.platform)
              (Sample.after Scenario.filtered) 2
              (Scenario.listener Scenario.filtered) Hw) as (Hlen & _);
    [vm_compute; reflexivity|].
  split; [exact Hw|]. rewrite Hlen. vm_compute. reflexivity.
Defined.

(** The run of [Scenario.decoded]: no option given, both deliveries
    yielded. *)
Lemma listen_without_allow_list_witness :
  reachable (H := Sample.platform) (Sample.after Scenario.decoded) /\
  nacks (history 2 (Sample.after Scenario.decoded)) = [] /\
  map raw (yielded (Scenario.listener Scenario.decoded)) =
    [Sample.delivery "true" "a" 1; Sample.delivery "oops" "a" 2].
Proof.
  assert (reachable (H := Sample.platform) (Sample.after Scenario.decoded))
    as Hw by (exists Scenario.decoded; vm_compute; reflexivity).
  destruct (listen_without_allow_list (H := Sample.platform)
              (Sample.after Scenario.decoded) 2
              (Scenario.listener Scenario.decoded) Hw) as (Hn & Hy & _);
    [vm_compute; reflexivity | vm_compute; reflexivity |].
  split; [exact Hw|]. split; [exact Hn|].
  rewrite Hy. vm_compute. reflexivity.
Defined.

(** * ack and nack *)

Section Growth.
Context `{Platform}.

Lemma micro_run_related (R : World -> World -> Prop) (P : World -> Prop) :
  (forall w, R w w) ->
  (forall w1 w2 w3, R w1 w2 -> R w2 w3 -> R w1 w3) ->
  (forall w m w', P w -> micro w m = Some w' -> P w' /\ R w w') ->
  forall ms w w', P w -> micro_run w ms = Some w' -> P w' /\ R w w'.
Proof.
  intros Hrefl Htrans Hm ms.
  induction ms as [|m ms IH]; intros w w' HP Hr; simpl in Hr.
  - simplify_eq. auto.
  - destruct (micro w m) as [w1|] eqn:E; [|done].
    destruct (Hm w m w1 HP E) as [HP1 HR1].
    destruct (IH w1 w' HP1 Hr) as [HP' HR']. eauto.
Qed.

Lemma grows_refl w : grows w w.
Proof. split; [done|]. split; [|done]. intros k ->. by exists k. Qed.

Lemma grows_trans w1 w2 w3 : grows w1 w2 -> grows w2 w3 -> grows w1 w3.
Proof.
  intros (Hl1 & Hc1 & Hr1) (Hl2 & Hc2 & Hr2). split; [lia|].
  split; [|auto]. intros k Hk.
  destruct (Hc1 k Hk) as (k' & Hk' & ?).
  destruct (Hc2 k' Hk') as (k'' & Hk'' & ?). exists k''. split; [done|lia].
Qed.

Lemma micro_consumer_bound w m w' :
  consumer_bound w -> micro w m = Some w' -> consumer_bound w'.
Proof.
  intros HB Hs. unfold consumer_bound in *. micro_cases Hs.
  all: intros ? Hk; unfold_world;
    rewrite ?cleanup_chans_length, ?length_app, ?length_alter; simpl;
    simplify_eq; try lia.
  all: try (by (apply HB in Hk; lia)).
  all: try (by (apply HB; assumption)).
  all: by apply HB.
Qed.

Lemma micro_grows w m w' :
  consumer_bound w -> micro w m = Some w' -> grows w w'.
Proof.
  intros HB Hs. unfold consumer_bound, grows in *.
  setoid_rewrite instance_ready_iff.
  micro_cases Hs.
  all: unfold_world;
    rewrite ?cleanup_chans_length, ?length_app, ?length_alter; simpl.
  all: split; [lia|]; split;
    [intros ? Hk; simplify_eq; eauto
    |intros Hr; lookup_goal; fin].
  all: eexists; split; [done|]; apply HB in Hk; lia.
Qed.

Lemma step_grows w ev w' :
  consumer_bound w -> step w ev = Some w' ->
  consumer_bound w' /\ grows w w'.
Proof.
  intros HB Hs. rewrite <- step_micros in Hs.
  apply (micro_run_related grows consumer_bound) with (micros w ev);
    [apply grows_refl|apply grows_trans| |done|done].
  intros w1 m w2 HB1 Hm. split.
  - by eapply micro_consumer_bound.
  - by eapply micro_grows.
Qed.

Lemma run_grows evs : forall w w',
  consumer_bound w -> run w evs = Some w' ->
  consumer_bound w' /\ grows w w'.
Proof.
  induction evs as [|ev evs IH]; intros w w' HB Hr; simpl in Hr.
  - simplify_eq. split; [done|apply grows_refl].
  - destruct (step w ev) as [w1|] eqn:Hs; [|done].
    destruct (step_grows w ev w1 HB Hs) as [HB1 HG1].
    destruct (IH w1 w' HB1 Hr) as [HB' HG'].
    split; [done|]. by eapply grows_trans.
Qed.

Lemma consumer_bound_coniglio : consumer_bound coniglio.
Proof. intros k Hk. discriminate. Qed.

Lemma reachable_consumer_bound w : reachable w -> consumer_bound w.
Proof.
  intros [evs Hr]. by destruct (run_grows evs coniglio w
                                   consumer_bound_coniglio Hr).
Qed.

(** The deliveries of a run came on channels that exist. *)
Lemma pushed_on_bound evs : forall w w',
  consumer_bound w -> run w evs = Some w' ->
  forall k msg, (k, msg) ∈ pushed_on evs -> k < length (chans w').
Proof.
  induction evs as [|ev evs IH]; intros w w' HB Hr k msg Hin.
  { by apply elem_of_nil in Hin. }
  simpl in Hr. destruct (step w ev) as [w1|] eqn:Hs; [|done].
  destruct (step_grows w ev w1 HB Hs) as [HB1 (Hlen1 & _)].
  destruct (run_grows evs w1 w' HB1 Hr) as [_ (Hlen & _)].
  assert ((k, msg) ∈ pushed_on evs -> k < length (chans w'))
    as Hrec by (by apply (IH w1 w' HB1 Hr)).
  destruct ev as [| | | | | |k0 g [m|]| | |]; simpl in Hin; auto.
  apply elem_of_cons in Hin as [Heq|Hin]; [|auto].
  simplify_eq. simpl in Hs.
  destruct (consuming _ g w) eqn:Hc; [|done]. unfold consuming in Hc.
  destruct (chans w !! _) as [K|] eqn:HK; [|done].
  apply lookup_lt_Some in HK. lia.
Qed.

Lemma step_createChannel w p sl c w' :
  tasks w !! p = Some (TLogin sl (LCreatingChannel c)) ->
  step w (Settle p true) = Some w' ->
  consumer w' = Some (length (chans w)).
Proof.
  intros Hp Hs. rewrite (step_login_settle w p sl _ true Hp) in Hs.
  unfold login_settle in Hs. cbv zeta in Hs.
  destruct (conn _) in Hs; by simplify_eq.
Qed.

(** X3. Once [coniglio] has returned the instance, [ack] and [nack]
    never find [channels.consumer] undefined, then or later: they
    call the driver on the channel the variable holds, which exists,
    with the raw delivery of the envelope; [nack] always for that
    one message, and without requeue unless the caller passes
    [true]. *)
Theorem ack_nack_defined (w : World) :
  reachable w -> instance_ready w = true ->
  exists k,
    consumer w = Some k /\ k < length (chans w) /\
    (forall m, ack m w = Return (CallAck k (raw m))) /\
    (forall m, nack m None w = Return (CallNack k (raw m) false false)) /\
    (forall m r, nack m (Some r) w = Return (CallNack k (raw m) false r)) /\
    (forall evs w', run w evs = Some w' ->
       instance_ready w' = true /\
       exists k', consumer w' = Some k' /\ k <= k' /\
                  forall m, ack m w' = Return (CallAck k' (raw m))).
Proof.
  intros Hw Hr. pose proof (reachable_Inv w Hw) as HI.
  pose proof (reachable_consumer_bound w Hw) as HB.
  destruct (inv_ready w HI Hr) as (p & sl & Hp).
  destruct (inv_assigned w HI p sl Hp) as (_ & [k Hk] & _).
  exists k. unfold ack, nack. rewrite Hk.
  split; [done|]. split; [by apply HB|]. split; [done|].
  split; [done|]. split; [done|].
  intros evs w' Hrun.
  destruct (run_grows evs w w' HB Hrun) as (_ & _ & Hc & Hready).
  split; [by apply Hready|].
  destruct (Hc k Hk) as (k' & Hk' & Hle). exists k'.
  by rewrite Hk'.
Qed.

(** X4. [ack] and [nack] go to the channel [channels.consumer] holds
    when they are called, not to the one that delivered the
    message: once a login has created its consumer channel, an
    envelope of a delivery pushed before is acked or nacked on a
    newer channel than the one it came on. *)
Theorem ack_after_reconnect (evs1 evs2 : list Event) (w1 w : World)
    (p : TaskId) (sl : SleeperId) (c : ConnId) :
  run coniglio evs1 = Some w1 ->
  tasks w1 !! p = Some (TLogin sl (LCreatingChannel c)) ->
  run w1 (Settle p true :: evs2) = Some w ->
  forall k m, (k, raw m) ∈ pushed_on evs1 ->
    exists k',
      k < k' /\ ack m w = Return (CallAck k' (raw m)) /\
      forall r, nack m r w =
                Return (CallNack k' (raw m) false (default false r)).
Proof.
  intros Hr1 Hp Hr2 k m Hin.
  pose proof (pushed_on_bound evs1 coniglio w1 consumer_bound_coniglio
                Hr1 k (raw m) Hin) as Hk.
  assert (consumer_bound w1) as HB1
    by (apply reachable_consumer_bound; by exists evs1).
  change (run w1 (Settle p true :: evs2))
    with (match step w1 (Settle p true) with
          | Some w' => run w' evs2 | None => None end) in Hr2.
  destruct (step w1 (Settle p true)) as [w2|] eqn:Hs; [|done].
  pose proof (step_createChannel w1 p sl c w2 Hp Hs) as Hc2.
  destruct (step_grows w1 _ w2 HB1 Hs) as [HB2 _].
  destruct (run_grows evs2 w2 w HB2 Hr2) as (_ & _ & Hc & _).
  destruct (Hc _ Hc2) as (k' & Hk' & Hle).
  exists k'. unfold ack, nack. rewrite Hk'. split; [lia|done].
Qed.

End Growth.

(** The instance right after [coniglio] returned it: [ack] goes to
    channel 0. *)
Lemma ack_nack_defined_witness :
  reachable (H := Sample.platform) (Sample.after Sample.connect_ok) /\
  exists k, consumer (Sample.after Sample.connect_ok) = Some k /\
            k < length (chans (Sample.after Sample.connect_ok)).
Proof.
  assert (reachable (H := Sample.platform) (Sample.after Sample.connect_ok))
    as Hw by (exists Sample.connect_ok; vm_compute; reflexivity).
  destruct (ack_nack_defined (H := Sample.platform) _ Hw)
    as (k & Hk & Hlt & _); [vm_compute; reflexivity|].
  split; [exact Hw|]. by exists k.
Defined.

(** A delivery that came on channel 0, acked after the login that
    follows a ['close'] has created its consumer channel. *)
Lemma ack_after_reconnect_witness :
  exists k',
    0 < k' /\
    ack (envelope_of (H := Sample.platform) None
           (Sample.delivery "true" "a" 1))
        (Sample.after (Scenario.yielded_then_closed ++ [Settle 4 true]))
    = Return (CallAck k' (Sample.delivery "true" "a" 1)).
Proof.
  destruct (ack_after_reconnect (H := Sample.platform)
              Scenario.yielded_then_closed []
              (Sample.after Scenario.yielded_then_closed)
              (Sample.after (Scenario.yielded_then_closed ++ [Settle 4 true]))
              4 3 1)
    with (k := 0)
         (m := envelope_of (H := Sample.platform) None
                 (Sample.delivery "true" "a" 1))
    as (k' & Hlt & Hack & _).
  - vm_compute. reflexivity.
  - vm_compute. reflexivity.
  - vm_compute. reflexivity.
  - vm_compute. apply list_elem_of_here.
  - exists k'. split; [exact Hlt|exact Hack].
Defined.

(** * cleanup *)

Section CleanupFacts.
Context `{Platform}.

Lemma world_eq w1 w2 :
  conn w1 = conn w2 -> loginInProgress w1 = loginInProgress w2 ->
  expSleeperPublisher w1 = expSleeperPublisher w2 ->
  consumer w1 = consumer w2 -> publisher w1 = publisher w2 ->
  conns w1 = conns w2 -> chans w1 = chans w2 ->
  sleepers w1 = sleepers w2 -> tasks w1 = tasks w2 -> log w1 = log w2 ->
  w1 = w2.
Proof. destruct w1, w2; simpl; congruence. Qed.

Lemma alter_fixed {A} (f : A -> A) (l : list A) i :
  (forall x, l !! i = Some x -> f x = x) -> alter f i l = l.
Proof.
  intros Hf. apply list_eq. intros j.
  destruct (decide (i = j)) as [->|Hne].
  - rewrite list_lookup_alter_eq. destruct (l !! j) eqn:E; [|done].
    simpl. by rewrite Hf.
  - by rewrite list_lookup_alter_ne.
Qed.

(** The connections after [cleanup], entry by entry. *)
Lemma cleanup_conns_lookup w i :
  conns (cleanup w) !! i =
    if bool_decide (conn w = Some i)
    then conn_torn_down <$> conns w !! i
    else conns w !! i.
Proof.
  unfold cleanup. destruct (conn w) as [c|] eqn:Hc;
    [|by rewrite bool_decide_eq_false_2].
  cbv zeta. unfold alter_conn, alter_chan.
  destruct (consumer w), (publisher w); simpl;
    (case_bool_decide as Hi;
     [simplify_eq; rewrite !list_lookup_alter_eq;
      by destruct (conns w !! i)
     |rewrite !list_lookup_alter_ne by congruence; done]).
Qed.

(** The channels after [cleanup], entry by entry. *)
Lemma cleanup_chans_lookup w i :
  chans (cleanup w) !! i =
    if cleaned w i then chan_torn_down <$> chans w !! i
    else chans w !! i.
Proof.
  unfold cleanup, cleaned. destruct (conn w) as [c|] eqn:Hc; [|done].
  cbv zeta. unfold alter_conn, alter_chan.
  destruct (consumer w) as [k1|], (publisher w) as [k2|]; simpl;
    repeat case_bool_decide; simplify_eq; simpl;
    rewrite ?list_lookup_alter_eq;
    repeat (rewrite list_lookup_alter_ne by congruence;
            rewrite ?list_lookup_alter_eq);
    try done; by destruct (chans w !! _).
Qed.

Lemma conn_torn_down_idemp C : conn_torn_down (conn_torn_down C) = conn_torn_down C.
Proof. reflexivity. Qed.

Lemma chan_torn_down_idemp K : chan_torn_down (chan_torn_down K) = chan_torn_down K.
Proof. reflexivity. Qed.

Lemma cleaned_cleanup w k : cleaned (cleanup w) k = cleaned w k.
Proof.
  unfold cleaned.
  by rewrite cleanup_conn, cleanup_consumer, cleanup_publisher.
Qed.

Lemma cleanup_idemp w : cleanup (cleanup w) = cleanup w.
Proof.
  apply world_eq; autorewrite with world; try done.
  - apply list_eq. intros i. rewrite !cleanup_conns_lookup, cleanup_conn.
    case_bool_decide; [|done].
    destruct (conns w !! i); simpl; by rewrite ?conn_torn_down_idemp.
  - apply list_eq. intros i.
    rewrite !cleanup_chans_lookup, cleaned_cleanup.
    destruct (cleaned w i); [|done].
    destruct (chans w !! i); simpl; by rewrite ?chan_torn_down_idemp.
Qed.

(** X5. [cleanup] tears down what the three variables refer to and
    nothing else, and assigns none of them: with [conn] unset it does
    nothing at all; otherwise the connection in [conn] ends up closed
    and without listeners, the channels in [channels.consumer] and
    [channels.publisher] closed and without ['error'] listener but
    with their consumers still registered, and every other
    connection and channel as it was. *)
Theorem cleanup_teardown (w : World) :
  (conn w = None -> cleanup w = w) /\
  conn (cleanup w) = conn w /\ consumer (cleanup w) = consumer w /\
  publisher (cleanup w) = publisher w /\
  loginInProgress (cleanup w) = loginInProgress w /\
  tasks (cleanup w) = tasks w /\ log (cleanup w) = log w /\
  (forall c C, conns (cleanup w) !! c = Some C ->
     if bool_decide (conn w = Some c)
     then on_error C = [] /\ on_close C = [] /\ conn_open C = false
     else conns w !! c = Some C) /\
  (forall k K, chans (cleanup w) !! k = Some K ->
     exists K0, chans w !! k = Some K0 /\
       ch_consumers K = ch_consumers K0 /\ ch_conn K = ch_conn K0 /\
       if cleaned w k
       then ch_open K = false /\ ch_on_error K = 0
       else K = K0).
Proof.
  split; [unfold cleanup; by intros ->|].
  autorewrite with world. repeat (split; [done|]). split.
  - intros c C. rewrite cleanup_conns_lookup.
    case_bool_decide; [|done].
    destruct (conns w !! c) as [C0|]; [|done]. simpl.
    intros ?; by simplify_eq.
  - intros k K. rewrite cleanup_chans_lookup.
    destruct (cleaned w k); [|by eauto].
    destruct (chans w !! k) as [K0|]; [|done]. simpl.
    intros ?; simplify_eq. by exists K0.
Qed.

(** X6. Tearing down twice is tearing down once, and what [cleanup]
    tore down is inert: a late ['error'] or ['close'] of the
    connection, or ['error'] of one of its two channels, finds no
    listener and changes nothing, and no delivery comes through a
    channel of that connection any more. *)
Theorem cleanup_inert (w : World) (c : ConnId) :
  conn w = Some c -> is_Some (conns w !! c) ->
  cleanup (cleanup w) = cleanup w /\
  step (cleanup w) (ConnError c) = Some (cleanup w) /\
  step (cleanup w) (ConnClose c) = Some (cleanup w) /\
  (forall k, cleaned w k = true -> is_Some (chans w !! k) ->
     step (cleanup w) (ChanError k) = Some (cleanup w)) /\
  (forall k K g msg,
     chans w !! k = Some K -> ch_conn K = c \/ cleaned w k = true ->
     step (cleanup w) (Deliver k g msg) = None).
Proof.
  intros Hc [C HC].
  assert (conns (cleanup w) !! c = Some (conn_torn_down C)) as HC'.
  { rewrite cleanup_conns_lookup, bool_decide_eq_true_2 by done.
    by rewrite HC. }
  split; [apply cleanup_idemp|].
  split; [|split; [|split]].
  - simpl. rewrite HC'. simpl. f_equal. unfold alter_conn.
    apply world_eq; try done. simpl. apply alter_fixed.
    intros C1 H1. rewrite HC' in H1. by simplify_eq.
  - simpl. rewrite HC'. simpl. f_equal. unfold alter_conn.
    apply world_eq; try done. simpl.
    rewrite (alter_fixed conn_removeAllListeners_close);
      [apply alter_fixed|]; intros C1 H1; rewrite HC' in H1; by simplify_eq.
  - intros k Hk [K HK].
    assert (chans (cleanup w) !! k = Some (chan_torn_down K)) as HK'
      by (by rewrite cleanup_chans_lookup, Hk, HK).
    simpl. rewrite HK'. f_equal. unfold alter_chan.
    apply world_eq; try done. simpl. apply alter_fixed.
    intros K1 H1. rewrite HK' in H1. by simplify_eq.
  - intros k K g msg HK Hor. simpl. unfold consuming.
    rewrite cleanup_chans_lookup, HK.
    destruct (cleaned w k) eqn:Hcl; simpl; [done|].
    destruct Hor as [<- | ?]; [|done].
    rewrite cleanup_conns_lookup, bool_decide_eq_true_2 by done.
    destruct (conns w !! ch_conn K); simpl; by rewrite ?andb_false_r.
Qed.

End CleanupFacts.

(** The connected instance: after [cleanup], a late ['close'] of
    connection 0 changes nothing. *)
Lemma cleanup_inert_witness :
  conn (Sample.after Sample.connect_ok) = Some 0 /\
  step (H := Sample.platform) (cleanup (Sample.after Sample.connect_ok))
    (ConnClose 0) = Some (cleanup (Sample.after Sample.connect_ok)).
Proof.
  assert (conn (Sample.after Sample.connect_ok) = Some 0) as Hc
    by (vm_compute; reflexivity).
  destruct (cleanup_inert (H := Sample.platform)
              (Sample.after Sample.connect_ok) 0 Hc) as (_ & _ & Hclose & _).
  - vm_compute. by eexists.
  - split; [exact Hc|exact Hclose].
Defined.

(** * More on the backoff sequence *)

Module BackoffMore.
Import Binary64 Binary64Facts Backoff BackoffFacts.
Open Scope Q_scope.

Lemma pow2_succ (k : nat) :
  2 ^ Z.of_nat (S k) == 2 ^ Z.of_nat k * 2.
Proof.
  rewrite Nat2Z.inj_succ, <- Z.add_1_r.
  rewrite Qpower_plus by discriminate. reflexivity.
Qed.

Lemma pow2_pos (k : nat) : 0 < 2 ^ Z.of_nat k.
Proof. apply Qpower_0_lt. reflexivity. Qed.

Lemma min_double (x m : Q) :
  0 <= m -> Qmin (Qmin x m * 2) m == Qmin (x * 2) m.
Proof.
  intros Hm.
  destruct (Q.min_spec x m) as [[H1 E1] | [H1 E1]]; rewrite E1.
  - reflexivity.
  - destruct (Q.min_spec (m * 2) m) as [[H2 E2] | [H2 E2]]; rewrite E2;
    destruct (Q.min_spec (x * 2) m) as [[H3 E3] | [H3 E3]]; rewrite E3;
    lra.
Qed.

Lemma current_step b m k :
  current (before_call b m (S k)) =
  Qmin (current (before_call b m k) * 2) m.
Proof.
  change (before_call b m (S k)) with (advance (before_call b m k)).
  unfold advance. simpl. by rewrite max_before_call.
Qed.

Lemma closed_form b m k :
  0 <= m ->
  current (before_call b m (S k)) == Qmin (b * 2 ^ Z.of_nat (S k)) m.
Proof.
  intros Hm. induction k as [|k IH].
  - rewrite current_step. simpl. reflexivity.
  - rewrite current_step, IH, min_double by done.
    rewrite (pow2_succ (S k)). by rewrite Qmult_assoc.
Qed.

Lemma pow2_linear (n : nat) : inject_Z (Z.of_nat n) + 1 <= 2 ^ Z.of_nat n.
Proof.
  induction n as [|n IH]; [discriminate|].
  rewrite pow2_succ, Nat2Z.inj_succ, <- Z.add_1_r, inject_Z_plus.
  assert (0 <= inject_Z (Z.of_nat n)).
  { change (inject_Z 0 <= inject_Z (Z.of_nat n)).
    rewrite <- Zle_Qle. apply Nat2Z.is_nonneg. }
  change (inject_Z 1) with 1. lra.
Qed.

Lemma pow2_mono (n k : nat) :
  (n <= k)%nat -> 2 ^ Z.of_nat n <= 2 ^ Z.of_nat k.
Proof.
  induction 1 as [|k _ IH]; [apply Qle_refl|].
  rewrite pow2_succ. pose proof (pow2_pos k). lra.
Qed.

(** The number of calls after which [current] has reached [max]. *)
Lemma reaches_max b m :
  0 < b -> 0 < m ->
  exists n : nat, m <= b * 2 ^ Z.of_nat n.
Proof.
  intros Hb Hm. exists (Z.to_nat (Qceiling (m / b))).
  assert (~ b == 0) as Hb0 by lra.
  assert (0 <= m / b) as Hdiv.
  { apply Qle_shift_div_l; [exact Hb|]. lra. }
  assert (0 <= Qceiling (m / b))%Z as Hc.
  { rewrite Zle_Qle. change (inject_Z 0) with 0.
    eapply Qle_trans; [exact Hdiv|apply Qle_ceiling]. }
  pose proof (pow2_linear (Z.to_nat (Qceiling (m / b)))) as Hp.
  rewrite Z2Nat.id in Hp |- * by exact Hc.
  pose proof (Qle_ceiling (m / b)) as Hle.
  assert (m / b <= 2 ^ Qceiling (m / b)) as Hpow by lra.
  rewrite <- (Qmult_div_r m b Hb0) at 1.
  apply Qmult_le_l; assumption.
Qed.

(** X7. The closed form of the backoff: a sleeper made with base [b]
    and cap [m] has [current = b] at its first call and
    [current = min (b * 2^k, m)] at call [k] afterwards, so it doubles
    exactly as long as the double stays below the cap; with [b <= m]
    it never decreases. *)
Theorem backoff_closed_form (b m : Q) (k : nat) :
  0 < b -> 0 < m ->
  current (before_call b m 0) = b /\
  current (before_call b m (S k)) == Qmin (b * 2 ^ Z.of_nat (S k)) m /\
  (b * 2 ^ Z.of_nat (S k) <= m ->
     current (before_call b m (S k)) == b * 2 ^ Z.of_nat (S k)) /\
  (b <= m ->
     current (before_call b m k) <= current (before_call b m (S k))).
Proof.
  intros Hb Hm. split; [reflexivity|].
  assert (0 <= m) as Hm0 by lra.
  pose proof (closed_form b m k Hm0) as Hc.
  split; [exact Hc|]. split.
  - intros Hle. rewrite Hc. by apply Q.min_l.
  - intros Hbm. rewrite current_step.
    pose proof (current_positive b m k Hb Hm) as Hpos.
    assert (current (before_call b m k) <= m) as Hcap
      by (destruct k; [exact Hbm|apply current_capped]).
    apply Q.min_glb; lra.
Qed.

(** X8. The backoff saturates: after finitely many calls [current]
    is the cap and stays there, and from then on every delay lies
    between half the cap and the cap, both included, where the cap
    and its half are floats. *)
Theorem backoff_saturates (b m : Q) :
  0 < b -> 0 < m -> representable m -> representable (m / 2) ->
  exists K : nat, forall (k : nat) (r : Q),
    (K <= k)%nat -> 0 <= r -> r < 1 ->
    current (before_call b m k) == m /\
    m / 2 <= delay (before_call b m k) r /\
    delay (before_call b m k) r <= m.
Proof.
  intros Hb Hm Rm Rm2. destruct (reaches_max b m Hb Hm) as [n Hn].
  exists (S n). intros k r Hk Hr0 Hr1.
  destruct k as [|k]; [lia|].
  assert (current (before_call b m (S k)) == m) as Hcur.
  { rewrite closed_form by lra. apply Q.min_r.
    assert (2 ^ Z.of_nat n <= 2 ^ Z.of_nat (S k)) as Hpow
      by (apply pow2_mono; lia).
    eapply Qle_trans; [exact Hn|].
    apply Qmult_le_l; assumption. }
  split; [exact Hcur|].
  set (c := current (before_call b m (S k))) in *.
  assert (representable c) as Rc
    by (apply (representable_comp m); [symmetry; exact Hcur|exact Rm]).
  assert (representable (c / 2)) as Rc2
    by (apply (representable_comp (m / 2)); [rewrite Hcur; reflexivity|exact Rm2]).
  destruct (jittered_bounds c r) as [Hlo Hhi]; [lra..|exact Rc|exact Rc2|].
  unfold delay. fold c. rewrite max_before_call.
  rewrite half_mul in Hlo |- *.
  destruct (Q.min_spec (jittered c r) m)
    as [[H1 E] | [H1 E]]; rewrite E; lra.
Qed.

(** The sleeper of the module at its third call. *)
Lemma backoff_closed_form_witness :
  current (before_call 1000 30000 2) == Qmin (1000 * 2 ^ 2) 30000.
Proof.
  destruct (backoff_closed_form 1000 30000 1) as (_ & Hc & _);
    [reflexivity | reflexivity | exact Hc].
Defined.

(** The sleeper of the module saturates. *)
Lemma backoff_saturates_witness :
  exists K : nat, forall (k : nat) (r : Q),
    (K <= k)%nat -> 0 <= r -> r < 1 ->
    current (before_call 1000 30000 k) == 30000 /\
    30000 / 2 <= delay (before_call 1000 30000 k) r /\
    delay (before_call 1000 30000 k) r <= 30000.
Proof.
  apply (backoff_saturates 1000 30000);
    first [vm_compute; reflexivity | split; vm_compute; reflexivity].
Defined.

End BackoffMore.

(** * configure *)

(** Evaluating lookups in singleton and empty maps. *)
Ltac singleton_lookups :=
  repeat first
    [ rewrite lookup_singleton_eq
    | rewrite lookup_singleton_ne by done
    | rewrite lookup_empty ].

Section Configure.
Context `{Platform}.

Lemma queue_calls_length q :
  length (queue_calls q) = S (length (default [] (QueueSpec.bindTo q))).
Proof. unfold queue_calls. simpl. by rewrite length_map. Qed.

Lemma queues_calls_length qs :
  length (concat (map queue_calls qs)) = length qs + bindings qs.
Proof.
  unfold bindings. induction qs as [|q qs IH]; [done|].
  simpl. rewrite !length_app, IH, length_map. lia.
Qed.

Lemma queue_calls_not_exchange qs c :
  c ∈ concat (map queue_calls qs) -> is_exchange_call c = false.
Proof.
  induction qs as [|q qs IH]; simpl; [by intros ?%elem_of_nil|].
  rewrite elem_of_cons, elem_of_app, list_elem_of_fmap.
  intros [-> | [(b & -> & _) | ?]]; auto.
Qed.

(** Every [bindQueue] of the calls for some queues comes after the
    [assertQueue] of the queue it names. *)
Lemma bind_after_assert qs i qn e rk a :
  concat (map queue_calls qs) !! i = Some (BindQueue qn e rk a) ->
  exists j d x au args,
    j < i /\
    concat (map queue_calls qs) !! j = Some (AssertQueue qn d x au args).
Proof.
  revert i. induction qs as [|q qs IH]; intros i Hi; [done|].
  simpl in Hi.
  destruct i as [|i]; [done|]. simpl in Hi.
  apply lookup_app_Some in Hi as [Hi | [Hlen Hi]].
  - apply list_lookup_fmap_Some in Hi as (b & Heq & Hb).
    unfold bind_call in Heq. simplify_eq.
    exists 0, (QueueSpec.durable q), (QueueSpec.exclusive q),
      (QueueSpec.autoDelete q), (queue_arguments q).
    split; [lia|done].
  - destruct (IH _ Hi) as (j & d & x & au & args & Hj & Hl).
    exists (S (length (map (bind_call q) (default [] (QueueSpec.bindTo q)))
               + j)), d, x, au, args.
    split; [lia|]. simpl. by rewrite lookup_app_r, Nat.add_comm, Nat.add_sub
      by lia.
Qed.

(** X9. The calls of [configure] in program order: one
    [assertExchange] per exchange, one [assertQueue] per queue and one
    [bindQueue] per binding; every exchange is asserted before any
    queue is touched, and every [bindQueue] comes after the
    [assertQueue] of the queue it binds. *)
Theorem configure_call_order (o : ConfigureOptions.t) :
  let exs := default [] (ConfigureOptions.exchanges o) in
  let qs := default [] (ConfigureOptions.queues o) in
  let calls := configure_calls o in
  length calls = length exs + length qs + bindings qs /\
  (forall i j c d,
     calls !! i = Some c -> calls !! j = Some d ->
     is_exchange_call c = true -> is_exchange_call d = false -> i < j) /\
  (forall i qn e rk a,
     calls !! i = Some (BindQueue qn e rk a) ->
     exists j d x au args,
       j < i /\ calls !! j = Some (AssertQueue qn d x au args)).
Proof.
  intros exs qs calls. subst calls. unfold configure_calls.
  fold exs. fold qs. split; [|split].
  - rewrite length_app, length_map, queues_calls_length. lia.
  - intros i j c d Hi Hj Hc Hd.
    apply lookup_app_Some in Hi as [Hi | [_ Hi]].
    + apply lookup_lt_Some in Hi.
      apply lookup_app_Some in Hj as [Hj | [Hj _]]; [|lia].
      apply list_lookup_fmap_Some in Hj as (ex & -> & _). done.
    + apply list_elem_of_lookup_2, queue_calls_not_exchange in Hi.
      congruence.
  - intros i qn e rk a Hi.
    apply lookup_app_Some in Hi as [Hi | [Hlen Hi]].
    + by apply list_lookup_fmap_Some in Hi as (ex & ? & _).
    + destruct (bind_after_assert qs _ qn e rk a Hi)
        as (j & d & x & au & args & Hj & Hl).
      exists (length (map exchange_call exs) + j), d, x, au, args.
      split; [lia|].
      by rewrite lookup_app_r, Nat.add_comm, Nat.add_sub by lia.
Qed.

Lemma perform_all_ok k ok calls : forall i,
  (forall j, j < length calls -> ok (i + j) = true) ->
  perform (Some k) ok i calls = (map (pair k) calls, Return tt).
Proof.
  induction calls as [|c calls IH]; intros i Hok; [done|].
  simpl. rewrite <- (Nat.add_0_r i) at 1. rewrite Hok by (simpl; lia).
  rewrite IH; [done|]. intros j Hj.
  replace (S i + j) with (i + S j) by lia. apply Hok. simpl. lia.
Qed.

Lemma perform_fails k ok calls : forall i n,
  n < length calls ->
  (forall j, j < n -> ok (i + j) = true) -> ok (i + n) = false ->
  perform (Some k) ok i calls =
    (map (pair k) (take (S n) calls), Throw DriverError).
Proof.
  induction calls as [|c calls IH]; intros i n Hn Hok Hfail;
    [simpl in Hn; lia|].
  destruct n as [|n].
  - simpl. rewrite Nat.add_0_r in Hfail. rewrite Hfail. by destruct calls.
  - simpl. rewrite <- (Nat.add_0_r i) at 1. rewrite Hok by lia.
    rewrite (IH (S i) n); [done|simpl in Hn; lia| |].
    + intros j Hj. replace (S i + j) with (i + S j) by lia.
      apply Hok. lia.
    + by replace (S i + n) with (i + S n) by lia.
Qed.

(** X10. [configure] awaits its calls one after the other on the
    channel it read at the start and gives up at the first one that
    fails: with every call succeeding it makes them all and resolves;
    when call [n] is the first to fail it makes calls [0..n] and
    rejects, and nothing is retried.  With [channels.publisher]
    undefined it throws before its first call, unless there is
    nothing to do; the variable is defined once [coniglio] has
    returned the instance. *)
Theorem configure_fails_fast (o : ConfigureOptions.t) (w : World)
    (ok : nat -> bool) :
  let calls := configure_calls o in
  match publisher w with
  | Some k =>
      ((forall i, i < length calls -> ok i = true) ->
         configure o w ok = (map (pair k) calls, Return tt)) /\
      (forall n, n < length calls ->
         (forall i, i < n -> ok i = true) -> ok n = false ->
         configure o w ok =
           (map (pair k) (take (S n) calls), Throw DriverError))
  | None =>
      configure o w ok =
        ([], match calls with [] => Return tt | _ => Throw TypeError end)
  end /\
  (reachable w -> instance_ready w = true -> is_Some (publisher w)).
Proof.
  intros calls. subst calls. unfold configure. split.
  - destruct (publisher w) as [k|].
    + split.
      * intros Hok. by apply perform_all_ok.
      * intros n Hn Hok Hfail. by apply perform_fails.
    + by destruct (configure_calls o).
  - intros Hw Hr. apply publisher_ready; [by apply reachable_Inv|done].
Qed.

Lemma lookup_spread (a b : Args) key :
  spread a b !! key = match b !! key with
                      | Some v => Some v
                      | None => a !! key
                      end.
Proof.
  unfold spread. destruct (b !! key) as [v|] eqn:Hb.
  - by apply lookup_union_Some_l.
  - by rewrite lookup_union_r.
Qed.

(** X11. The [arguments] [configure] passes to [assertQueue]:
    [x-dead-letter-exchange], [x-message-ttl] and [x-max-length] are
    the options of the queue when these are truthy, which then
    override an entry of the same name in [q.arguments]; when the
    option is left out, or is the empty string or zero, the entry of
    [q.arguments] stands, if there is one; every other key is that
    of [q.arguments]. *)
Theorem queue_arguments_lookup (q : QueueSpec.t) :
  let given := default ∅ (QueueSpec.arguments q) in
  queue_arguments q !! "x-dead-letter-exchange" =
    match truthy_string (QueueSpec.deadLetterExchange q) with
    | Some d => Some (JString d)
    | None => given !! "x-dead-letter-exchange"
    end /\
  queue_arguments q !! "x-message-ttl" =
    match truthy_number (QueueSpec.messageTtl q) with
    | Some n => Some (JNumber n)
    | None => given !! "x-message-ttl"
    end /\
  queue_arguments q !! "x-max-length" =
    match truthy_number (QueueSpec.maxLength q) with
    | Some n => Some (JNumber n)
    | None => given !! "x-max-length"
    end /\
  (forall key,
     key <> "x-dead-letter-exchange" -> key <> "x-message-ttl" ->
     key <> "x-max-length" ->
     queue_arguments q !! key = given !! key) /\
  (forall n, QueueSpec.messageTtl q = Some n ->
     queue_arguments q !! "x-message-ttl" =
       if Qeq_bool n 0 then given !! "x-message-ttl"
       else Some (JNumber n)) /\
  (QueueSpec.deadLetterExchange q = Some "" ->
     queue_arguments q !! "x-dead-letter-exchange" =
       given !! "x-dead-letter-exchange").
Proof.
  intros given.
  assert (forall key,
    queue_arguments q !! key =
      match (match truthy_number (QueueSpec.maxLength q) with
             | Some n => ({[ "x-max-length" := JNumber n ]} : Args)
             | None => ∅ end) !! key with
      | Some v => Some v
      | None =>
        match (match truthy_number (QueueSpec.messageTtl q) with
               | Some n => ({[ "x-message-ttl" := JNumber n ]} : Args)
               | None => ∅ end) !! key with
        | Some v => Some v
        | None =>
          match (match truthy_string (QueueSpec.deadLetterExchange q) with
                 | Some d => ({[ "x-dead-letter-exchange" := JString d ]}
                              : Args)
                 | None => ∅ end) !! key with
          | Some v => Some v
          | None => given !! key
          end
        end
      end) as Hkey.
  { intros key. unfold queue_arguments. cbv zeta.
    rewrite !lookup_spread, lookup_empty. subst given.
    by destruct (default ∅ (QueueSpec.arguments q) !! key). }
  assert (queue_arguments q !! "x-message-ttl" =
    match truthy_number (QueueSpec.messageTtl q) with
    | Some n => Some (JNumber n)
    | None => given !! "x-message-ttl"
    end) as Httl.
  { rewrite Hkey.
    destruct (truthy_number (QueueSpec.maxLength q)),
      (truthy_number (QueueSpec.messageTtl q)),
      (truthy_string (QueueSpec.deadLetterExchange q));
      by singleton_lookups. }
  assert (queue_arguments q !! "x-dead-letter-exchange" =
    match truthy_string (QueueSpec.deadLetterExchange q) with
    | Some d => Some (JString d)
    | None => given !! "x-dead-letter-exchange"
    end) as Hdlx.
  { rewrite Hkey.
    destruct (truthy_number (QueueSpec.maxLength q)),
      (truthy_number (QueueSpec.messageTtl q)),
      (truthy_string (QueueSpec.deadLetterExchange q));
      by singleton_lookups. }
  split; [exact Hdlx|]. split; [exact Httl|]. split.
  { rewrite Hkey.
    destruct (truthy_number (QueueSpec.maxLength q)),
      (truthy_number (QueueSpec.messageTtl q)),
      (truthy_string (QueueSpec.deadLetterExchange q));
      by singleton_lookups. }
  split.
  { intros key H1 H2 H3. rewrite Hkey.
    destruct (truthy_number (QueueSpec.maxLength q)),
      (truthy_number (QueueSpec.messageTtl q)),
      (truthy_string (QueueSpec.deadLetterExchange q));
      by singleton_lookups. }
  split.
  - intros n Hn. rewrite Httl. unfold truthy_number. rewrite Hn.
    by destruct (Qeq_bool n 0).
  - intros Hd. rewrite Hdlx. unfold truthy_string. by rewrite Hd.
Qed.

End Configure.

(** * Sleepers and listeners *)

Section Sleepers.
Context `{Platform}.

Lemma in_range_new : in_range (Backoff.getExpSleeper 1000 30000).
Proof. split; [done|]. exists 500%Z. split; [lia|reflexivity]. Qed.

Lemma in_range_advance s : in_range s -> in_range (Backoff.advance s).
Proof.
  intros (Hm & n & Hn & Hc). unfold in_range, Backoff.advance. simpl.
  rewrite Hm. split; [done|].
  assert (Backoff.current s * 2 == inject_Z (2 * (2 * n)))%Q as Hd.
  { rewrite Hc, (inject_Z_mult 2 (2 * n)). change (inject_Z 2) with 2%Q.
    ring. }
  destruct (Z.le_gt_cases (2 * n) 15000) as [Hle|Hgt].
  - exists (2 * n)%Z. split; [lia|]. rewrite <- Hd. apply Q.min_l.
    rewrite Hd. change 30000%Q with (inject_Z 30000).
    rewrite <- Zle_Qle. lia.
  - exists 15000%Z. split; [lia|].
    change (inject_Z (2 * 15000)) with 30000%Q. apply Q.min_r.
    rewrite Hd. change 30000%Q with (inject_Z 30000).
    rewrite <- Zle_Qle. lia.
Qed.

Lemma in_range_current s :
  in_range s ->
  (1000 <= Backoff.current s)%Q /\ (Backoff.current s <= 30000)%Q.
Proof.
  intros (_ & n & Hn & Hc). rewrite Hc.
  change 1000%Q with (inject_Z 1000). change 30000%Q with (inject_Z 30000).
  rewrite <- !Zle_Qle. lia.
Qed.

Lemma micro_sleepers w m w' :
  (forall sl s, sleepers w !! sl = Some s -> in_range s) ->
  micro w m = Some w' ->
  forall sl s, sleepers w' !! sl = Some s -> in_range s.
Proof.
  intros HS Hs.
  pose proof in_range_new as Hnew. pose proof in_range_advance as Hadv.
  micro_cases Hs.
  all: intros ? ? Hx; unfold_world; lookup_inv; simplify_eq;
    eauto using in_range_new, in_range_advance.
Qed.

Lemma conns_cleanup_close w c C l :
  conns (cleanup w) !! c = Some C -> l ∈ on_close C ->
  exists C0, conns w !! c = Some C0 /\ l ∈ on_close C0.
Proof.
  rewrite cleanup_conns_lookup. case_bool_decide; [|by eauto].
  destruct (conns w !! c) as [C0|]; [|done]. simpl.
  intros ? Hl; simplify_eq. simpl in Hl. by apply elem_of_nil in Hl.
Qed.

Lemma micro_run_guarded (P : World -> Prop) (G : Micro -> Prop) :
  (forall w m w', P w -> G m -> micro w m = Some w' -> P w') ->
  forall ms w w', Forall G ms -> P w -> micro_run w ms = Some w' -> P w'.
Proof.
  intros Hm ms. induction ms as [|m ms IH]; intros w w' HG HP Hr;
    simpl in Hr.
  - by simplify_eq.
  - destruct (micro w m) as [w1|] eqn:E; [|done].
    apply Forall_cons in HG as [HG1 HG]. eauto.
Qed.

Lemma micro_sleepers_length w m w' :
  micro w m = Some w' -> length (sleepers w) <= length (sleepers w').
Proof. intros Hs. micro_cases Hs; unfold_world; len. Qed.

Lemma micro_sleepers_ok n w m w' :
  sleepers_ok w -> n <= length (sleepers w) -> guarded n m ->
  micro w m = Some w' -> sleepers_ok w'.
Proof.
  intros [H1 H2 H3 H4 H5 H6 H7] Hn HG Hs. split.
  - by eapply micro_sleepers.
  - clear H1 H3 H4 H5 H6 H7. micro_cases Hs; unfold_world; len.
  - clear H1 H4 H5 H6 H7. micro_cases Hs.
    all: intros ? ? ? Hx; unfold_world; lookup_inv; simplify_eq.
    all: repeat match goal with
      | Hy : tasks _ !! _ = Some (TLogin _ _) |- _ =>
          apply H3 in Hy
      end; lia.
  - clear H1 H5 H6 H7. micro_cases Hs.
    all: intros ? ? ? Hx Hl; unfold_world;
      try (destruct (conns_cleanup_close _ _ _ _ Hx Hl) as (? & Hx' & Hl');
           clear Hx Hl; rename Hx' into Hx; rename Hl' into Hl);
      lookup_inv; simplify_eq; simpl in *;
      rewrite ?elem_of_nil, ?list_elem_of_singleton in *; simplify_eq.
    all: repeat match goal with
      | Hy : tasks _ !! _ = Some (TLogin _ _) |- _ =>
          apply H3 in Hy
      end.
    all: try (pose proof (H4 _ _ _ Hx Hl)); try lia.
  - clear H1 H4 H6 H7. micro_cases Hs.
    all: intros ? ? Hx; unfold_world; lookup_inv; simplify_eq;
      simpl in *; try (apply H5 in Hx); try lia.
  - clear H1 H4 H5 H7. micro_cases Hs.
    all: intros ? ? ? ? ? Hx; unfold_world; lookup_inv; simplify_eq;
      simpl in *; try (apply H6 in Hx); try lia.
  - clear H1 H4 H5 H6. micro_cases Hs.
    all: intros ? ? ? Hx; unfold_world;
      rewrite ?elem_of_app, ?list_elem_of_singleton in Hx.
    all: repeat match goal with
      | Hy : _ \/ _ |- _ => destruct Hy as [Hy|Hy]
      end; simplify_eq; simpl in *.
    all: repeat match goal with
      | Hy : tasks _ !! _ = Some (TLogin _ _) |- _ =>
          apply H3 in Hy
      end.
    all: try (apply H7 in Hx); try lia.
Qed.

Lemma micros_guarded w ev :
  sleepers_ok w -> Forall (guarded (length (sleepers w))) (micros w ev).
Proof.
  intros HS. destruct ev; simpl; try (by repeat constructor).
  - destruct (conns w !! c); [|by repeat constructor].
    constructor; [done|]. apply Forall_fmap, Forall_forall. by intros [].
  - destruct (conns w !! c) as [C|] eqn:HC; [|by repeat constructor].
    do 2 (constructor; [done|]). apply Forall_fmap, Forall_forall.
    intros [sl] Hl. simpl. by eapply (sleeper_close w HS).
Qed.

Lemma step_sleepers_ok w ev w' :
  sleepers_ok w -> step w ev = Some w' -> sleepers_ok w'.
Proof.
  intros HS Hs. rewrite <- step_micros in Hs.
  pose proof (micro_run_guarded
    (fun w1 => sleepers_ok w1 /\ length (sleepers w) <= length (sleepers w1))
    (guarded (length (sleepers w)))) as Hrun.
  eapply Hrun; [|by apply micros_guarded| |exact Hs]; [|by split].
  intros w1 m w2 [HS1 Hlen] HG Hm. split.
  - by eapply micro_sleepers_ok.
  - apply micro_sleepers_length in Hm. lia.
Qed.

Lemma sleepers_ok_coniglio : sleepers_ok coniglio.
Proof.
  split.
  - intros [|[|sl]] s Hs; simpl in Hs; simplify_eq; apply in_range_new.
  - simpl. lia.
  - intros [|[|t]] sl pc Ht; simpl in Ht; simplify_eq. simpl. lia.
  - intros c C sl Hc. done.
  - intros [|[|t]] sl Ht; simpl in Ht; simplify_eq.
  - intros [|[|t]] ex rk payload sl Ht; simpl in Ht; simplify_eq.
  - intros t v sl Hin. simpl in Hin.
    rewrite !elem_of_cons, elem_of_nil in Hin. naive_solver.
Qed.

Lemma reachable_sleepers_ok w : reachable w -> sleepers_ok w.
Proof.
  apply reachable_ind; [apply sleepers_ok_coniglio|].
  intros w0 ev w1 _. apply step_sleepers_ok.
Qed.

Lemma in_range_delay s r :
  in_range s -> (0 <= r)%Q -> (r < 1)%Q ->
  (500 <= Backoff.delay s r)%Q /\ (Backoff.delay s r <= 30000)%Q.
Proof.
  intros Hin Hr0 Hr1. destruct (in_range_current s Hin) as [Hlo Hhi].
  destruct Hin as (Hm & n & Hn & Hc).
  assert (Binary64.representable (Backoff.current s)) as Rc.
  { apply (Binary64Facts.representable_comp (inject_Z (2 * n)));
      [symmetry; exact Hc|].
    apply Binary64Facts.representable_integer. lia. }
  assert (Binary64.representable (Backoff.current s / 2)) as Rc2.
  { apply (Binary64Facts.representable_comp (inject_Z n)).
    - rewrite Hc, inject_Z_mult. change (inject_Z 2) with 2%Q. field.
    - apply Binary64Facts.representable_integer. lia. }
  destruct (BackoffFacts.jittered_bounds (Backoff.current s) r)
    as [Hj1 Hj2]; [lra..|exact Rc|exact Rc2|].
  rewrite BackoffFacts.half_mul in Hj1.
  unfold Backoff.delay. rewrite Hm.
  destruct (Q.min_spec (Backoff.jittered (Backoff.current s) r) 30000)
    as [[H1 E] | [H1 E]]; rewrite E; lra.
Qed.

(** X12. Every backoff sleep of the module lasts at least half a
    second and at most thirty: every sleeper there is was made by
    [getExpSleeper(1000, 30000)] and has [current] between 1000 and
    30000, and the sleepers the module will sleep on next (the
    publish sleeper, that of each login sequence, that of each
    ['close'] listener and of each handler about to sleep) all
    exist. *)
Theorem every_sleep_in_range (w : World) :
  reachable w ->
  (forall sl s r,
     sleepers w !! sl = Some s -> (0 <= r)%Q -> (r < 1)%Q ->
     Backoff.max s = 30000%Q /\
     (1000 <= Backoff.current s)%Q /\ (Backoff.current s <= 30000)%Q /\
     (500 <= Backoff.delay s r)%Q /\ (Backoff.delay s r <= 30000)%Q) /\
  is_Some (sleepers w !! expSleeperPublisher w) /\
  (forall t sl pc,
     tasks w !! t = Some (TLogin sl pc) -> is_Some (sleepers w !! sl)) /\
  (forall c C sl,
     conns w !! c = Some C -> Reconnect sl ∈ on_close C ->
     is_Some (sleepers w !! sl)) /\
  (forall t v sl, (t, ASleep v sl) ∈ log w -> is_Some (sleepers w !! sl)).
Proof.
  intros Hw. pose proof (reachable_sleepers_ok w Hw) as HS.
  split; [|split; [|split; [|split]]].
  - intros sl s r Hs Hr0 Hr1.
    pose proof (sleepers_in_range w HS sl s Hs) as Hin.
    destruct (in_range_delay s r Hin Hr0 Hr1) as [? ?].
    destruct (in_range_current s Hin) as [? ?].
    destruct Hin as (? & _). by split_and!.
  - apply lookup_lt_is_Some. apply (sleeper_publisher w HS).
  - intros t sl pc Ht. apply lookup_lt_is_Some.
    by eapply (sleeper_login w HS).
  - intros c C sl Hc Hl. apply lookup_lt_is_Some.
    by eapply (sleeper_close w HS).
  - intros t v sl Hin. apply lookup_lt_is_Some.
    by eapply (sleeper_logged w HS).
Qed.

Lemma micro_listeners w m w' :
  (forall c C, conns w !! c = Some C ->
     length (on_close C) <= 1 /\
     length (filter (fun l => is_logger l = true) (on_error C)) <= 1) ->
  micro w m = Some w' ->
  forall c C, conns w' !! c = Some C ->
    length (on_close C) <= 1 /\
    length (filter (fun l => is_logger l = true) (on_error C)) <= 1.
Proof.
  intros HL Hs. micro_cases Hs.
  all: intros ? ? Hx; unfold_world;
    try (rewrite cleanup_conns_lookup in Hx; case_bool_decide;
         [destruct (conns _ !! _); simpl in Hx; simplify_eq; simpl; lia|]);
    lookup_inv; simplify_eq; simpl;
    rewrite ?filter_app, ?length_app; simpl;
    try (by eapply HL); try (split; lia).
  all: match goal with
    | Hy : conns _ !! _ = Some _ |- _ => destruct (HL _ _ Hy)
    end; split; simpl; try lia.
Qed.

Lemma reachable_listeners w :
  reachable w ->
  forall c C, conns w !! c = Some C ->
    length (on_close C) <= 1 /\
    length (filter (fun l => is_logger l = true) (on_error C)) <= 1.
Proof.
  apply (reachable_ind (fun w => forall c C, conns w !! c = Some C ->
    length (on_close C) <= 1 /\
    length (filter (fun l => is_logger l = true) (on_error C)) <= 1)).
  - intros c C Hc. done.
  - intros w0 ev w1 _ HL Hs. rewrite <- step_micros in Hs.
    eapply (micro_run_preserves (fun w => forall c C,
      conns w !! c = Some C ->
      length (on_close C) <= 1 /\
      length (filter (fun l => is_logger l = true) (on_error C)) <= 1));
      [|exact HL|exact Hs].
    intros w2 m w3 HL2 Hm. by eapply micro_listeners.
Qed.

(** X13. No connection ever has more than one ['close'] listener or
    more than one logging ['error'] listener, so a ['close'] starts at
    most one reconnect handler; that handler only sleeps, no login is
    started by the event itself, and the listener is gone
    afterwards. *)
Theorem one_close_listener (w : World) (c : ConnId) (C : Connection) :
  reachable w -> conns w !! c = Some C ->
  (on_close C = [] \/ exists sl, on_close C = [Reconnect sl]) /\
  length (filter (fun l => is_logger l = true) (on_error C)) <= 1 /\
  exists w',
    step w (ConnClose c) = Some w' /\
    tasks w' = tasks w ++
               map (fun l => match l with
                             | Reconnect sl => TCloseHandler (CSleeping sl)
                             end) (on_close C) /\
    logins_started w' = logins_started w /\
    loginInProgress w' = loginInProgress w /\
    conns w' !! c =
      Some {| on_error := on_error C; on_close := []; conn_open := false |}.
Proof.
  intros Hw Hc. destruct (reachable_listeners w Hw c C Hc) as [Hclose Herr].
  assert (on_close C = [] \/ exists sl, on_close C = [Reconnect sl]) as Hcase.
  { destruct (on_close C) as [|[sl] [|l ls]]; simpl in Hclose;
      [by left|right; by exists sl|lia]. }
  split; [exact Hcase|]. split; [exact Herr|].
  simpl. rewrite Hc. eexists. split; [reflexivity|].
  assert (alter conn_close c (alter conn_removeAllListeners_close c (conns w))
          !! c = Some {| on_error := on_error C; on_close := [];
                         conn_open := false |}) as Hc'
    by (by rewrite !list_lookup_alter_eq, Hc).
  destruct Hcase as [E | [sl E]]; rewrite E; simpl; unfold_world.
  - rewrite app_nil_r. by split_and!.
  - split; [done|]. split; [|by split].
    unfold logins_started. simpl.
    by rewrite count_logins_app, Nat.add_0_r.
Qed.

End Sleepers.

(** After the run of [Scenario.publish_retried] the publish sleeper
    exists, and its next sleep with draw 1/2 is in range. *)
Lemma every_sleep_in_range_witness :
  reachable (H := Sample.platform) (Sample.after Scenario.publish_retried) /\
  exists s,
    sleepers (Sample.after Scenario.publish_retried)
      !! expSleeperPublisher (Sample.after Scenario.publish_retried) = Some s /\
    (500 <= Backoff.delay s (1 # 2))%Q /\
    (Backoff.delay s (1 # 2) <= 30000)%Q.
Proof.
  assert (reachable (H := Sample.platform)
            (Sample.after Scenario.publish_retried)) as Hw
    by (exists Scenario.publish_retried; vm_compute; reflexivity).
  destruct (every_sleep_in_range (H := Sample.platform) _ Hw)
    as (Hs & [s Hp] & _).
  split; [exact Hw|]. exists s. split; [exact Hp|].
  destruct (Hs _ s (1 # 2)%Q Hp) as (_ & _ & _ & H1 & H2);
    [discriminate|reflexivity|].
  split; [exact H1|exact H2].
Defined.

(** The connection of the connected instance has one ['close']
    listener. *)
Lemma one_close_listener_witness :
  reachable (H := Sample.platform) (Sample.after Sample.connect_ok) /\
  exists w',
    step (H := Sample.platform) (Sample.after Sample.connect_ok) (ConnClose 0)
      = Some w' /\
    logins_started w' = logins_started (Sample.after Sample.connect_ok).
Proof.
  assert (reachable (H := Sample.platform) (Sample.after Sample.connect_ok))
    as Hw by (exists Sample.connect_ok; vm_compute; reflexivity).
  destruct (one_close_listener (H := Sample.platform)
              (Sample.after Sample.connect_ok) 0
              {| on_error := [LogConnectionError]; on_close := [Reconnect 1];
                 conn_open := true |} Hw)
    as (_ & _ & w' & Hs & _ & Hn & _); [vm_compute; reflexivity|].
  split; [exact Hw|]. exists w'. split; [exact Hs|exact Hn].
Defined.

(** * startConsumer *)

Section StartConsumer.
Context `{Platform}.

Lemma variables_assigned w g s :
  Inv w -> tasks w !! g = Some (TListen s) ->
  exists c k, conn w = Some c /\ consumer w = Some k.
Proof.
  intros HI Hg.
  assert (instance_ready w = true) as Hr by (by eapply (inv_user w HI)).
  destruct (inv_ready w HI Hr) as (p & sl & Hp).
  destruct (inv_assigned w HI p sl Hp) as ([c Hc] & [k Hk] & _). eauto.
Qed.

Lemma startConsumer_rest_spec w t g s c k :
  tasks w !! g = Some (TListen s) -> conn w = Some c ->
  consumer w = Some k ->
  startConsumer_rest t g w =
    Some (emit t (AConsume k (queue s))
            (alter_chan (chan_consume (queue s) g) (Some k)
               (alter_conn (conn_once_error (Resubscribe g)) c
                  (alter_sub (sub_set_buffer []) g w)))).
Proof.
  intros Hg Hc Hk. unfold startConsumer_rest, subscription.
  by rewrite Hg, Hc, Hk.
Qed.

(** X14. The second half of [startConsumer], for the generator's own
    call and for the one of its ['error'] listener alike.  When
    [prefetch] fulfils, the buffer is emptied, dropping what was
    pushed and not yet yielded, the ['error'] listener is registered
    once more on the connection in [conn], and [consume] is called
    for the queue of the generator on the channel
    [channels.consumer] holds at that moment.  When [prefetch] rejects
    nothing is registered and the caller fails; nothing retries
    it. *)
Theorem startConsumer_setup (w : World) (t g : TaskId) (s : Subscription) :
  reachable w -> tasks w !! g = Some (TListen s) ->
  (t = g /\ pc s = GPrefetching) \/
  tasks w !! t = Some (TResubscribe g RPrefetching) ->
  exists c k,
    conn w = Some c /\ consumer w = Some k /\ k < length (chans w) /\
    (exists w',
       step w (Settle t true) = Some w' /\
       log w' = log w ++ [(t, AConsume k (queue s))] /\
       tasks w' !! g =
         Some (TListen
                 {| queue := queue s; opts := opts s; buffer := [];
                    pc := if decide (t = g) then GRunnable else pc s;
                    consumed := consumed s; yielded := yielded s |}) /\
       chans w' = alter (chan_consume (queue s) g) k (chans w) /\
       conns w' = alter (conn_once_error (Resubscribe g)) c (conns w) /\
       registered g w') /\
    (exists w'',
       step w (Settle t false) = Some w'' /\
       log w'' = log w /\ chans w'' = chans w /\ conns w'' = conns w /\
       tasks w'' =
         <[t := if decide (t = g) then TListen (sub_set_pc GFailed s)
                else TResubscribe g RFailed]> (tasks w)).
Proof.
  intros Hw Hg Hcase. pose proof (reachable_Inv w Hw) as HI.
  destruct (variables_assigned w g s HI Hg) as (c & k & Hc & Hk).
  pose proof (reachable_consumer_bound w Hw k Hk) as Hlt.
  pose proof (lookup_lt_Some _ _ _ Hg) as Hglt.
  exists c, k. split; [done|]. split; [done|]. split; [done|].
  change (step w (Settle t true)) with (step_settle t true w).
  change (step w (Settle t false)) with (step_settle t false w).
  unfold step_settle.
  assert (registered g
            (set_chans (alter (chan_consume (queue s) g) k (chans w)) w))
    as Hreg.
  { unfold registered. simpl. apply consumers_in_consume. right. done. }
  destruct Hcase as [[-> Hpc] | Ht].
  - rewrite Hg, Hpc. simpl.
    rewrite (startConsumer_rest_spec w g g s c k Hg Hc Hk).
    split; eexists; (split; [reflexivity|]); unfold_world.
    + rewrite decide_True by done. split; [done|].
      split; [|by split_and!].
      by rewrite !list_lookup_alter_eq, Hg.
    + rewrite decide_True by done. split_and!; try done.
      apply list_eq. intros i. destruct (decide (i = g)) as [->|Hne].
      * by rewrite list_lookup_alter_eq, list_lookup_insert_eq, Hg by done.
      * by rewrite list_lookup_alter_ne, list_lookup_insert_ne by done.
  - assert (t <> g) as Hne by (intros ->; congruence).
    rewrite Ht. simpl.
    rewrite (startConsumer_rest_spec w t g s c k Hg Hc Hk).
    split; eexists; (split; [reflexivity|]); unfold_world.
    + rewrite decide_False by done. split; [done|].
      split; [|by split_and!].
      rewrite list_lookup_insert_ne by done.
      rewrite list_lookup_alter_eq, Hg. simpl. by destruct s.
    + rewrite decide_False by done. by split_and!.
Qed.

End StartConsumer.

(** [listen('q')] called and pulled once: generator 2 awaits its
    [prefetch]. *)
Lemma startConsumer_setup_witness :
  reachable (H := Sample.platform)
    (Sample.after (Sample.connect_ok ++ [Listen "q" None; Pull 2])) /\
  exists w',
    step (H := Sample.platform)
      (Sample.after (Sample.connect_ok ++ [Listen "q" None; Pull 2]))
      (Settle 2 true) = Some w' /\
    registered 2 w'.
Proof.
  assert (reachable (H := Sample.platform)
            (Sample.after (Sample.connect_ok ++ [Listen "q" None; Pull 2])))
    as Hw by (exists (Sample.connect_ok ++ [Listen "q" None; Pull 2]);
              vm_compute; reflexivity).
  destruct (startConsumer_setup (H := Sample.platform) _ 2 2
              {| queue := "q"; opts := None; buffer := [];
                 pc := GPrefetching; consumed := []; yielded := [] |} Hw)
    as (c & k & _ & _ & _ & (w' & Hs & _ & _ & _ & _ & Hreg) & _).
  - vm_compute. reflexivity.
  - left. split; reflexivity.
  - split; [exact Hw|]. exists w'. split; [exact Hs|exact Hreg].
Defined.

Section LoginTurn.
Context `{Platform}.

(** X15. A turn of [login] whose three awaits fulfil makes everything
    anew: a connection and two channels that did not exist before,
    the connection with one logging ['error'] listener and one
    ['close'] listener, the channels open and on that connection,
    and a fresh publish sleeper; nothing of what came before is
    reused, and in particular no consumer is registered on the new
    consumer channel. *)
Theorem login_fresh_resources (w : World) (p : TaskId) (sl : SleeperId) :
  tasks w !! p = Some (TLogin sl LConnecting) ->
  exists w1 w2 w3,
    step w (Settle p true) = Some w1 /\
    step w1 (Settle p true) = Some w2 /\
    step w2 (Settle p true) = Some w3 /\
    conn w3 = Some (length (conns w)) /\
    consumer w3 = Some (length (chans w)) /\
    publisher w3 = Some (S (length (chans w))) /\
    conns w3 = conns w ++
      [{| on_error := [LogConnectionError]; on_close := [Reconnect sl];
          conn_open := true |}] /\
    chans w3 = chans w ++
      [{| ch_conn := length (conns w); ch_on_error := 1; ch_open := true;
          ch_consumers := [] |};
       {| ch_conn := length (conns w); ch_on_error := 1; ch_open := true;
          ch_consumers := [] |}] /\
    sleepers w3 = sleepers w ++ [Backoff.getExpSleeper 1000 30000] /\
    expSleeperPublisher w3 = length (sleepers w) /\
    loginInProgress w3 = None /\
    (forall g, consuming (length (chans w)) g w3 = false).
Proof.
  intros Hp. pose proof (lookup_lt_Some _ _ _ Hp) as Hlt.
  eexists _, _, _.
  split; [rewrite (step_login_settle w p sl _ true Hp); reflexivity|].
  split.
  { erewrite step_login_settle;
      [|unfold_world; by apply list_lookup_insert_eq].
    reflexivity. }
  split.
  { erewrite step_login_settle;
      [|unfold_world; apply list_lookup_insert_eq; len].
    reflexivity. }
  unfold_world. split_and!; try done.
  - f_equal. lia.
  - by rewrite <- app_assoc.
  - intros g. unfold consuming. simpl.
    rewrite lookup_app_l by len.
    by rewrite list_lookup_middle, andb_false_r.
Qed.

End LoginTurn.

(** The first login of [coniglio]. *)
Lemma login_fresh_resources_witness :
  exists w3,
    run (H := Sample.platform) coniglio
      [Settle 1 true; Settle 1 true; Settle 1 true] = Some w3 /\
    conn w3 = Some 0 /\ consumer w3 = Some 0 /\ publisher w3 = Some 1.
Proof.
  destruct (login_fresh_resources (H := Sample.platform) coniglio 1 1)
    as (w1 & w2 & w3 & H1 & H2 & H3 & Hc & Hk1 & Hk2 & _);
    [reflexivity|].
  exists w3. split; [|split; [exact Hc|split; [exact Hk1|exact Hk2]]].
  rewrite (run_cons_Some _ _ _ _ H1), (run_cons_Some _ _ _ _ H2).
  by rewrite (run_cons_Some _ _ _ _ H3).
Defined.

(** * The writer of the sample platform *)

(** Numbers are written as [Number::toString] writes them: the
    shortest digits that read back as the number, in positional
    notation from [1e-6] up to [1e21] and with an exponent outside. *)
Lemma number_text_samples :
  map Sample.number_text
    [0; 1000; -3; 1 # 4; 1 # 10; 3 # 10; 4503599627370497 # 4503599627370496;
     10 ^ 21; 10 ^ 20; 10 ^ (-6); 10 ^ (-7); 15 # 100000000;
     2 ^ 53; 2 ^ (-1074); 123456789 # 1000]%Q
  = ["0"; "1000"; "-3"; "0.25"; "0.1"; "0.3"; "1.0000000000000002";
     "1e+21"; "100000000000000000000"; "0.000001"; "1e-7"; "1.5e-7";
     "9007199254740992"; "5e-324"; "123456.789"]%string.
Proof. vm_compute. reflexivity. Qed.

(** Arrays and objects are written without spaces, and every value
    has a text. *)
Lemma json_text_samples :
  Sample.stringify
    (JArray [JNull; JBool true; JNumber 12; JNumber (1 # 4); JArray [];
             JObject []])
  = Return "[null,true,12,0.25,[],{}]"%string /\
  forall v, exists s, Sample.stringify v = Return s.
Proof.
  split; [vm_compute; reflexivity|]. intros v. eexists. reflexivity.
Qed.
